(** * Subsurface dive list: a shallow embedding of [core/divelist.c]

    The development follows the C file: the data the functions touch
    (dives, cylinders, trips, the two global tables and the selection
    counters), then the functions themselves, then the properties.

    Conventions.
    - [int], [timestamp_t] (a 64-bit integer) and the [mbar] / [seconds] /
      [mm] payloads of the unit structs are [Z].  Signed overflow is
      undefined in C, so signed arithmetic is written without wrap-around;
      [unsigned int amount_selected] wraps modulo 2^32 and the wrap is
      written out.
    - A [char *] is an [option string]; [None] is the null pointer.
    - A [struct dive *] / [struct dive_trip *] is an address into a heap of
      objects; a [struct dive_table] is the list of the [nr] pointers it
      holds (capacity and reallocation are not modelled). *)

From Stdlib Require Import ZArith List Bool Lia QArith Sorted.
From stdpp Require Import base option list gmap strings.

Close Scope Q_scope.
Open Scope Z_scope.

(** ** Data model *)

Definition dive_ptr := nat.
Definition trip_ptr := nat.

(** [cylinder_t]: the four pressures (in mbar) read by [calculate_airuse];
    [size_mliter] stands for [type.size.mliter], which only the external
    [gas_volume] looks at. *)
Record cylinder_t := mk_cylinder {
  cyl_start : Z;      (* start.mbar *)
  cyl_end : Z;        (* end.mbar *)
  sample_start : Z;   (* sample_start.mbar *)
  sample_end : Z;     (* sample_end.mbar *)
  size_mliter : Z
}.

(** [struct dive], restricted to the fields [divelist.c] reads or writes in
    the functions embedded below.  [dive_location] is what
    [get_dive_location(dive)] returns. *)
Record dive := mk_dive {
  id : Z;
  when : Z;
  number : Z;
  duration : Z;                 (* duration.seconds *)
  divetrip : option trip_ptr;
  selected : bool;
  hidden_by_filter : bool;
  notrip : bool;
  dive_location : option string;
  cylinder : list cylinder_t;   (* cylinder[0 .. MAX_CYLINDERS) *)
  dc_duration : Z;              (* dc.duration.seconds *)
  dc_meandepth : Z              (* dc.meandepth.mm *)
}.

Definition null_dive : dive :=
  mk_dive 0 0 0 0 None false false false None [] 0 0.

#[export] Instance dive_inhabited : Inhabited dive := populate null_dive.

(** [struct dive_trip]; [dives] is the trip's own [struct dive_table]. *)
Record dive_trip := mk_trip {
  location : option string;
  notes : option string;
  autogen : bool;
  dives : list dive_ptr
}.

Definition null_trip : dive_trip := mk_trip None None false [].

#[export] Instance dive_trip_inhabited : Inhabited dive_trip := populate null_trip.

(** ** Queries on the global dive table

    These functions only read [dive_table]; they take it as the sequence of
    dive records its entries point to. *)

Section Queries.

(** [dive_endtime] is defined in [dive.c]. *)
Variable dive_endtime : dive -> Z.

(** The loop of [get_surface_interval]:
    [for (i = nr - 1; i >= 0; --i) if (dives[i]->when < when) break;]
    started with [i = n - 1].  [None] is the exit with [i < 0]. *)
Fixpoint previous_dive_idx (dive_table : list dive) (w : Z) (n : nat) : option nat :=
  match n with
  | O => None
  | S i => if when (dive_table !!! i) <? w then Some i
           else previous_dive_idx dive_table w i
  end.

Definition get_surface_interval (dive_table : list dive) (w : Z) : Z :=
  match previous_dive_idx dive_table w (length dive_table) with
  | None => -1
  | Some i =>
      let prev_end := dive_endtime (dive_table !!! i) in
      if prev_end >? w then 0 else w - prev_end
  end.

(** The loop of [get_dive_id_closest_to]:
    [for (i = 0; i < nr && dives[i]->when <= when; i++);]
    The result is the value of [i] on exit. *)
Fixpoint first_later_idx (dive_table : list dive) (w : Z) : nat :=
  match dive_table with
  | [] => O
  | d :: rest => if when d <=? w then S (first_later_idx rest w) else O
  end.

Definition get_dive_id_closest_to (dive_table : list dive) (w : Z) : Z :=
  let nr := length dive_table in
  if (nr =? 0)%nat then 0
  else if (nr =? 1)%nat then id (dive_table !!! O)
  else
    let i := first_later_idx dive_table w in
    if (i =? nr)%nat then id (dive_table !!! (i - 1)%nat)
    else if (i =? 0)%nat then id (dive_table !!! O)
    else if w - when (dive_table !!! (i - 1)%nat) <? when (dive_table !!! i) - w
         then id (dive_table !!! (i - 1)%nat)
         else id (dive_table !!! i).

(** The index of the dive whose id [get_dive_id_closest_to] returns
    (same case analysis, reading no id). *)
Definition closest_idx (dive_table : list dive) (w : Z) : nat :=
  let nr := length dive_table in
  let i := first_later_idx dive_table w in
  if (nr <=? 1)%nat then O
  else if (i =? nr)%nat then (i - 1)%nat
  else if (i =? 0)%nat then O
  else if w - when (dive_table !!! (i - 1)%nat) <? when (dive_table !!! i) - w
       then (i - 1)%nat else i.

End Queries.

(** A table is chronological when start times never decrease along it;
    this is what sortedness by [comp_dives] gives on the primary key. *)
Definition chronological (dive_table : list dive) : Prop :=
  forall i j di dj, dive_table !! i = Some di -> dive_table !! j = Some dj ->
    (i <= j)%nat -> when di <= when dj.

Definition ids_increasing (dive_table : list dive) : Prop :=
  forall i j di dj, dive_table !! i = Some di -> dive_table !! j = Some dj ->
    (i <= j)%nat -> id di <= id dj.

(** ** Strings *)

(** Modelled from the spec: [empty_string] and [copy_string] are string
    helpers the core consumes (section 6; their header is not part of
    [divelist.c]).  A string is empty when it is the null pointer or has no
    characters; a copy has the characters of its source, and the copy of an
    empty string is the null pointer (so that a trip location still counts
    as unset, and is "filled from the first dive that has a non-empty
    location"). *)
Definition empty_string (s : option string) : bool :=
  match s with
  | None => true
  | Some EmptyString => true
  | Some _ => false
  end.

Definition copy_string (s : option string) : option string :=
  if empty_string s then None else s.

(** [copy_string(empty_string(b) ? a : b)] *)
Definition copy_non_empty_string (a b : option string) : option string :=
  copy_string (if empty_string b then a else b).

(** What the specification sentence describes: the first of [(a, b)] that is
    not empty. *)
Definition first_non_empty (a b : option string) : option string :=
  copy_string (if empty_string a then b else a).

(** ** Generic table operations (the [MAKE_...] macros) *)

Section Tables.
Context {A : Type}.

(** [MAKE_GET_INSERTION_INDEX]: first [i] with [fun(item, array[i])],
    else [nr]. *)
Fixpoint get_insertion_index (less : A -> A -> bool) (table : list A) (item : A) : nat :=
  match table with
  | [] => O
  | x :: rest => if less item x then O else S (get_insertion_index less rest item)
  end.

(** [MAKE_ADD_TO], for [idx <= nr]: the tail is shifted right by one.
    (For [idx > nr] the C loop stores nothing and leaves an uninitialised
    slot; callers that take [idx] from outside check the range.) *)
Definition add_to_table (table : list A) (idx : nat) (item : A) : list A :=
  take idx table ++ item :: drop idx table.

(** [MAKE_REMOVE_FROM]: the tail is shifted left over [idx] and the last
    slot is dropped; with [idx >= nr - 1] nothing is shifted and the last
    slot is dropped all the same. *)
Definition remove_from_table (table : list A) (idx : nat) : list A :=
  if (idx <? length table)%nat then delete idx table else removelast table.

(** [MAKE_SORT]: [qsort] with the table's comparison function.  The model
    is insertion sort; [qsort] leaves the order of elements that compare
    equal unspecified, the model keeps it. *)
Fixpoint sort_insert (cmp : A -> A -> Z) (x : A) (sorted : list A) : list A :=
  match sorted with
  | [] => [x]
  | y :: rest => if cmp x y <? 0 then x :: y :: rest else y :: sort_insert cmp x rest
  end.

Definition sort_table (cmp : A -> A -> Z) (table : list A) : list A :=
  foldr (sort_insert cmp) [] table.

End Tables.

(** [MAKE_GET_IDX]: pointer-equality scan; [None] is the C result [-1]. *)
Fixpoint get_idx_in_table (table : list nat) (item : nat) : option nat :=
  match table with
  | [] => None
  | x :: rest => if (x =? item)%nat then Some O
                 else S <$> get_idx_in_table rest item
  end.

(** [remove_dive(table, dive)] *)
Definition remove_dive (table : list dive_ptr) (d : dive_ptr) : list dive_ptr :=
  match get_idx_in_table table d with
  | Some idx => remove_from_table table idx
  | None => table
  end.

(** ** Program state *)

(** The heap of dive and trip objects with its allocation counters, and the
    globals of [divelist.c] ([dive_table] itself lives in [dive.c]). *)
Record state := mk_state {
  dive_heap : gmap dive_ptr dive;
  trip_heap : gmap trip_ptr dive_trip;
  next_dive : dive_ptr;
  next_trip : trip_ptr;
  dive_table : list dive_ptr;
  trip_table : list trip_ptr;
  amount_selected : Z;            (* unsigned int *)
  current_dive : option dive_ptr;
  autogroup : bool
}.

Definition with_dive_heap (h : gmap dive_ptr dive) (s : state) : state :=
  mk_state h (trip_heap s) (next_dive s) (next_trip s) (dive_table s)
           (trip_table s) (amount_selected s) (current_dive s) (autogroup s).
Definition with_trip_heap (h : gmap trip_ptr dive_trip) (s : state) : state :=
  mk_state (dive_heap s) h (next_dive s) (next_trip s) (dive_table s)
           (trip_table s) (amount_selected s) (current_dive s) (autogroup s).
Definition with_dive_table (t : list dive_ptr) (s : state) : state :=
  mk_state (dive_heap s) (trip_heap s) (next_dive s) (next_trip s) t
           (trip_table s) (amount_selected s) (current_dive s) (autogroup s).
Definition with_trip_table (t : list trip_ptr) (s : state) : state :=
  mk_state (dive_heap s) (trip_heap s) (next_dive s) (next_trip s) (dive_table s)
           t (amount_selected s) (current_dive s) (autogroup s).
Definition with_amount_selected (n : Z) (s : state) : state :=
  mk_state (dive_heap s) (trip_heap s) (next_dive s) (next_trip s) (dive_table s)
           (trip_table s) n (current_dive s) (autogroup s).
Definition with_current_dive (c : option dive_ptr) (s : state) : state :=
  mk_state (dive_heap s) (trip_heap s) (next_dive s) (next_trip s) (dive_table s)
           (trip_table s) (amount_selected s) c (autogroup s).

(** [*p]; reading through a pointer that is not allocated is undefined in
    C, the model reads a zeroed object. *)
Definition dive_at (s : state) (p : dive_ptr) : dive := dive_heap s !!! p.
Definition trip_at (s : state) (t : trip_ptr) : dive_trip := trip_heap s !!! t.

Definition store_dive (p : dive_ptr) (d : dive) (s : state) : state :=
  with_dive_heap (<[p := d]> (dive_heap s)) s.
Definition store_trip (t : trip_ptr) (tr : dive_trip) (s : state) : state :=
  with_trip_heap (<[t := tr]> (trip_heap s)) s.

(** Allocation hands out the next unused address. *)
Definition alloc_dive (d : dive) (s : state) : dive_ptr * state :=
  (next_dive s,
   mk_state (<[next_dive s := d]> (dive_heap s)) (trip_heap s) (S (next_dive s))
            (next_trip s) (dive_table s) (trip_table s) (amount_selected s)
            (current_dive s) (autogroup s)).

(** [alloc_trip]: [calloc], a zeroed trip. *)
Definition alloc_trip (s : state) : trip_ptr * state :=
  (next_trip s,
   mk_state (dive_heap s) (<[next_trip s := null_trip]> (trip_heap s)) (next_dive s)
            (S (next_trip s)) (dive_table s) (trip_table s) (amount_selected s)
            (current_dive s) (autogroup s)).

Definition free_dive (p : dive_ptr) (s : state) : state :=
  with_dive_heap (delete p (dive_heap s)) s.
Definition free_trip (t : trip_ptr) (s : state) : state :=
  with_trip_heap (delete t (trip_heap s)) s.

(** Field assignments [d->f = v]. *)
Definition set_selected (b : bool) (d : dive) : dive :=
  mk_dive (id d) (when d) (number d) (duration d) (divetrip d) b
          (hidden_by_filter d) (notrip d) (dive_location d) (cylinder d)
          (dc_duration d) (dc_meandepth d).
Definition set_hidden_by_filter (b : bool) (d : dive) : dive :=
  mk_dive (id d) (when d) (number d) (duration d) (divetrip d) (selected d)
          b (notrip d) (dive_location d) (cylinder d)
          (dc_duration d) (dc_meandepth d).
Definition set_divetrip (t : option trip_ptr) (d : dive) : dive :=
  mk_dive (id d) (when d) (number d) (duration d) t (selected d)
          (hidden_by_filter d) (notrip d) (dive_location d) (cylinder d)
          (dc_duration d) (dc_meandepth d).
Definition set_number (n : Z) (d : dive) : dive :=
  mk_dive (id d) (when d) n (duration d) (divetrip d) (selected d)
          (hidden_by_filter d) (notrip d) (dive_location d) (cylinder d)
          (dc_duration d) (dc_meandepth d).
Definition set_location (l : option string) (t : dive_trip) : dive_trip :=
  mk_trip l (notes t) (autogen t) (dives t).
Definition set_notes (n : option string) (t : dive_trip) : dive_trip :=
  mk_trip (location t) n (autogen t) (dives t).
Definition set_autogen (b : bool) (t : dive_trip) : dive_trip :=
  mk_trip (location t) (notes t) b (dives t).
Definition set_dives (l : list dive_ptr) (t : dive_trip) : dive_trip :=
  mk_trip (location t) (notes t) (autogen t) l.

(** How a call can fail to return normally. *)
Inductive failure := AssertionFailed | MemoryFault | OutOfFuel.

Inductive result (A : Type) : Type :=
  | Done (a : A)
  | Failed (f : failure).
Arguments Done {A} a.
Arguments Failed {A} f.

Definition bind {A B : Type} (r : result A) (k : A -> result B) : result B :=
  match r with
  | Done a => k a
  | Failed f => Failed f
  end.

Notation "'do' x '<-' r ';' k" := (bind r (fun x => k))
  (at level 10, x name, r at level 100, k at level 200).

Definition wrap32 (n : Z) : Z := n mod 2 ^ 32.

(** ** The dive list *)

Section Divelist.

(** Collaborators of [dive.c] / [dive.h] that [divelist.c] calls. *)
Variable TRIP_THRESHOLD : Z.
Variable dive_endtime : dive -> Z.
(** [try_to_merge(a, b, prefer_b)]: the content of the merged dive, or
    [None] for [NULL]. *)
Variable try_to_merge : dive -> dive -> bool -> option dive.

(** Modelled from the spec: [get_dive(nr)] is the accessor of [dive.h]
    for the global dive table; it gives the entry at [nr], and [NULL]
    when [nr] is not an index of the table (the callers test for it). *)
Definition get_dive (s : state) (nr : Z) : option dive_ptr :=
  if nr <? 0 then None else dive_table s !! Z.to_nat nr.

(** *** Ordering *)

Definition trip_date (s : state) (trip : option trip_ptr) : Z :=
  match trip with
  | None => 0
  | Some t =>
      match dives (trip_at s t) with
      | [] => 0
      | d :: _ => when (dive_at s d)
      end
  end.

Definition trip_enddate (s : state) (trip : option trip_ptr) : Z :=
  match trip with
  | None => 0
  | Some t =>
      match last (dives (trip_at s t)) with
      | None => 0
      | Some d => dive_endtime (dive_at s d)
      end
  end.

Definition comp_dives (s : state) (a b : dive_ptr) : Z :=
  let da := dive_at s a in
  let db := dive_at s b in
  let by_id := if id da <? id db then -1 else if id da >? id db then 1 else 0 in
  if when da <? when db then -1
  else if when da >? when db then 1
  else if bool_decide (divetrip da = divetrip db) then by_id
  else
    match divetrip db, divetrip da with
    | None, _ => -1
    | _, None => 1
    | _, _ =>
        if trip_date s (divetrip da) <? trip_date s (divetrip db) then -1
        else if trip_date s (divetrip da) >? trip_date s (divetrip db) then 1
        else by_id
    end.

Definition comp_trips (s : state) (a b : trip_ptr) : Z :=
  match dives (trip_at s a), dives (trip_at s b) with
  | [], [] => 0
  | [], _ :: _ => -1
  | _ :: _, [] => 1
  | da :: _, db :: _ => comp_dives s da db
  end.

Definition dive_less_than (s : state) (a b : dive_ptr) : bool :=
  comp_dives s a b <? 0.

Definition trip_less_than (s : state) (a b : trip_ptr) : bool :=
  comp_trips s a b <? 0.

Definition sort_dive_table (s : state) (table : list dive_ptr) : list dive_ptr :=
  sort_table (comp_dives s) table.

Definition sort_trip_table (s : state) (table : list trip_ptr) : list trip_ptr :=
  sort_table (comp_trips s) table.

(** [get_divenr]: the index of the first dive of the global table with
    the id of [*dive]; [-1] if there is none or [dive] is null. *)
Fixpoint divenr_from (s : state) (the_id : Z) (table : list dive_ptr) (i : Z) : Z :=
  match table with
  | [] => -1
  | d :: rest => if id (dive_at s d) =? the_id then i
                 else divenr_from s the_id rest (i + 1)
  end.

Definition get_divenr (s : state) (dive : option dive_ptr) : Z :=
  match dive with
  | None => -1
  | Some p => divenr_from s (id (dive_at s p)) (dive_table s) 0
  end.

(** *** Trips *)

(** [unregister_dive_from_trip]: the trip the dive was in, if any. *)
Definition unregister_dive_from_trip (dive : dive_ptr) (s : state)
  : option trip_ptr * state :=
  match divetrip (dive_at s dive) with
  | None => (None, s)
  | Some trip =>
      let s := store_trip trip
                 (set_dives (remove_dive (dives (trip_at s trip)) dive) (trip_at s trip)) s in
      let s := store_dive dive (set_divetrip None (dive_at s dive)) s in
      (Some trip, s)
  end.

(** [unregister_trip(trip, trip_table)]: the table after the call.  The
    index is looked up first, then the assertion is checked. *)
Definition unregister_trip (trip : trip_ptr) (table : list trip_ptr) (s : state)
  : result (list trip_ptr) :=
  let idx := get_idx_in_table table trip in
  if negb (length (dives (trip_at s trip)) =? 0)%nat then Failed AssertionFailed
  else
    match idx with
    | Some i => Done (remove_from_table table i)
    | None => Done table
    end.

Definition delete_trip (trip : trip_ptr) (table : list trip_ptr) (s : state)
  : result (list trip_ptr * state) :=
  do table' <- unregister_trip trip table s;
  Done (table', free_trip trip s).

(** [remove_dive_from_trip(dive, trip_table)] *)
Definition remove_dive_from_trip (dive : dive_ptr) (table : list trip_ptr) (s : state)
  : result (list trip_ptr * state) :=
  let '(trip, s) := unregister_dive_from_trip dive s in
  match trip with
  | Some t =>
      if (length (dives (trip_at s t)) =? 0)%nat then delete_trip t table s
      else Done (table, s)
  | None => Done (table, s)
  end.

(** [add_dive_to_trip]; the warning printed when the dive already has
    another trip is not modelled. *)
Definition add_dive_to_trip (dive : dive_ptr) (trip : trip_ptr) (s : state) : state :=
  if bool_decide (divetrip (dive_at s dive) = Some trip) then s
  else
    let tr := trip_at s trip in
    let idx := get_insertion_index (dive_less_than s) (dives tr) dive in
    let s := store_trip trip (set_dives (add_to_table (dives tr) idx dive) tr) s in
    store_dive dive (set_divetrip (Some trip) (dive_at s dive)) s.

Definition insert_trip (trip : trip_ptr) (table : list trip_ptr) (s : state)
  : list trip_ptr :=
  add_to_table table (get_insertion_index (trip_less_than s) table trip) trip.

Definition create_trip_from_dive (dive : dive_ptr) (s : state) : trip_ptr * state :=
  let '(trip, s) := alloc_trip s in
  (trip, store_trip trip
           (set_location (copy_string (dive_location (dive_at s dive))) (trip_at s trip)) s).

(** [combine_trips] *)
Definition combine_trips (trip_a trip_b : trip_ptr) (s : state) : trip_ptr * state :=
  let '(trip, s) := alloc_trip s in
  let s := store_trip trip
             (set_location (copy_non_empty_string (location (trip_at s trip_a))
                                                  (location (trip_at s trip_b)))
                           (trip_at s trip)) s in
  let s := store_trip trip
             (set_notes (copy_non_empty_string (notes (trip_at s trip_a))
                                               (notes (trip_at s trip_b)))
                        (trip_at s trip)) s in
  (trip, s).

(** *** Autogrouping *)

(** The inner loop of [get_dives_to_autogroup]:
    [for ( *to = *from + 1; *to < table->nr; ( *to)++)], run over the
    entries from index [to] on.  Returns the final [*to]. *)
Fixpoint autogroup_extend (rest : list dive_ptr) (trip : trip_ptr)
    (lastdive : dive_ptr) (to : nat) (s : state) : nat * state :=
  match rest with
  | [] => (to, s)
  | dive :: rest' =>
      let d := dive_at s dive in
      if bool_decide (divetrip d <> None) || notrip d
         || (when d >=? when (dive_at s lastdive) + TRIP_THRESHOLD)
      then (to, s)
      else
        let s :=
          match dive_location d, location (trip_at s trip) with
          | Some _, None =>
              store_trip trip (set_location (copy_string (dive_location d)) (trip_at s trip)) s
          | _, _ => s
          end in
        autogroup_extend rest' trip dive (S to) s
  end.

(** The outer loop of [get_dives_to_autogroup], run over the entries from
    index [i] on.  The result is [(trip, from, to, allocated)], or [None]
    for the [NULL] return. *)
Fixpoint autogroup_scan (rest : list dive_ptr) (i : nat) (lastdive : option dive_ptr)
    (s : state) : option (trip_ptr * nat * nat * bool) * state :=
  match rest with
  | [] => (None, s)
  | dive :: rest' =>
      let d := dive_at s dive in
      match divetrip d with
      | Some _ => autogroup_scan rest' (S i) (Some dive) s
      | None =>
          if notrip d then autogroup_scan rest' (S i) None s
          else
            let reuse :=
              match lastdive with
              | None => None
              | Some l =>
                  if when d >=? when (dive_at s l) + TRIP_THRESHOLD then None
                  else Some (divetrip (dive_at s l))
              end in
            match reuse with
            | Some (Some trip) =>
                let '(to, s) := autogroup_extend rest' trip dive (S i) s in
                (Some (trip, i, to, false), s)
            | Some None =>
                (* [lastdive] always has a trip here; a null trip would be
                   dereferenced by the inner loop *)
                (None, s)
            | None =>
                let '(trip, s) := create_trip_from_dive dive s in
                let s := store_trip trip (set_autogen true (trip_at s trip)) s in
                let '(to, s) := autogroup_extend rest' trip dive (S i) s in
                (Some (trip, i, to, true), s)
            end
      end
  end.

Definition get_dives_to_autogroup (table : list dive_ptr) (start : nat) (s : state)
  : option (trip_ptr * nat * nat * bool) * state :=
  autogroup_scan (drop start table) start None s.

(** [for (j = from; j < to; ++j) add_dive_to_trip(table->dives[j], trip);] *)
Definition add_range_to_trip (table : list dive_ptr) (from to : nat) (trip : trip_ptr)
    (s : state) : state :=
  foldl (fun s dive => add_dive_to_trip dive trip s) s
        (take (to - from) (drop from table)).

(** The loop of [autogroup_dives].  Every round moves [i] forward by at
    least one, so [length table - i + 1] rounds of [fuel] are enough. *)
Fixpoint autogroup_loop (fuel : nat) (table : list dive_ptr) (i : nat)
    (trips : list trip_ptr) (s : state) : result (list trip_ptr * state) :=
  match fuel with
  | O => Failed OutOfFuel
  | S fuel' =>
      match get_dives_to_autogroup table i s with
      | (None, s) => Done (trips, s)
      | (Some (trip, from, to, alloc), s) =>
          let s := add_range_to_trip table from to trip s in
          let trips := if alloc : bool then insert_trip trip trips s else trips in
          autogroup_loop fuel' table to trips s
      end
  end.

(** [autogroup_dives(table, trip_table)]: the trip table after the call. *)
Definition autogroup_dives (table : list dive_ptr) (trips : list trip_ptr) (s : state)
  : result (list trip_ptr * state) :=
  if negb (autogroup s) then Done (trips, s)
  else
    do r <- autogroup_loop (S (length table)) table O trips s;
    Done (sort_trip_table (snd r) (fst r), snd r).

(** [process_loaded_dives]; [set_dc_nickname] touches no state modelled
    here. *)
Definition process_loaded_dives (s : state) : result state :=
  let s := with_dive_table (sort_dive_table s (dive_table s)) s in
  let s := with_trip_table (sort_trip_table s (trip_table s)) s in
  do r <- autogroup_dives (dive_table s) (trip_table s) s;
  Done (with_trip_table (fst r) (snd r)).

(** *** Selection *)

Definition select_dive (dive : option dive_ptr) (s : state) : state :=
  match dive with
  | None => s
  | Some p =>
      let s :=
        if selected (dive_at s p) then s
        else
          let s := store_dive p (set_selected true (dive_at s p)) s in
          with_amount_selected (wrap32 (amount_selected s + 1)) s in
      with_current_dive (Some p) s
  end.

(** [while (--selected_dive >= 0)] started with [selected_dive = n]. *)
Fixpoint selected_before (s : state) (n : nat) : option dive_ptr :=
  match n with
  | O => None
  | S i =>
      match get_dive s (Z.of_nat i) with
      | Some q => if selected (dive_at s q) then Some q else selected_before s i
      | None => selected_before s i
      end
  end.

(** [while (++selected_dive < dive_table.nr)] over the entries [rest]
    that follow [selected_dive]. *)
Fixpoint selected_after (s : state) (rest : list dive_ptr) : option dive_ptr :=
  match rest with
  | [] => None
  | q :: rest' => if selected (dive_at s q) then Some q else selected_after s rest'
  end.

Definition deselect_dive (dive : option dive_ptr) (s : state) : state :=
  match dive with
  | None => s
  | Some p =>
      if selected (dive_at s p) then
        let s := store_dive p (set_selected false (dive_at s p)) s in
        let s := if amount_selected s =? 0 then s
                 else with_amount_selected (amount_selected s - 1) s in
        if bool_decide (current_dive s = Some p) && (amount_selected s >? 0) then
          let idx := get_divenr s (Some p) in
          match selected_before s (Z.to_nat idx) with
          | Some q => with_current_dive (Some q) s
          | None =>
              match selected_after s (drop (Z.to_nat (idx + 1)) (dive_table s)) with
              | Some q => with_current_dive (Some q) s
              | None => with_current_dive None s
              end
          end
        else with_current_dive None s
      else s
  end.

Definition filter_dive (d : option dive_ptr) (shown : bool) (s : state) : state :=
  match d with
  | None => s
  | Some p =>
      let s := store_dive p (set_hidden_by_filter (negb shown) (dive_at s p)) s in
      if negb shown && selected (dive_at s p) then deselect_dive (Some p) s else s
  end.

(** *** Adding and removing dives *)

(** [delete_dive_from_table(table, idx)] *)
Definition delete_dive_from_table (table : list dive_ptr) (idx : nat) (s : state)
  : list dive_ptr * state :=
  (remove_from_table table idx, free_dive (table !!! idx) s).

Definition unregister_dive (idx : Z) (s : state) : option dive_ptr * state :=
  match get_dive s idx with
  | None => (None, s)
  | Some p =>
      let s := with_dive_table (remove_from_table (dive_table s) (Z.to_nat idx)) s in
      let s := if selected (dive_at s p)
               then with_amount_selected (wrap32 (amount_selected s - 1)) s else s in
      (Some p, store_dive p (set_selected false (dive_at s p)) s)
  end.

Definition delete_single_dive (idx : Z) (s : state) : result state :=
  match get_dive s idx with
  | None => Done s
  | Some p =>
      let s := if selected (dive_at s p) then deselect_dive (Some p) s else s in
      do r <- remove_dive_from_trip p (trip_table s) s;
      let s := with_trip_table (fst r) (snd r) in
      let '(table, s) := delete_dive_from_table (dive_table s) (Z.to_nat idx) s in
      Done (with_dive_table table s)
  end.

(** [add_single_dive(idx, dive)].  [add_to_dive_table] shifts the entries
    from [idx] on; for an [idx] outside [0 .. nr] it writes outside the
    table or leaves a slot unset. *)
Definition add_single_dive (idx : Z) (dive : dive_ptr) (s : state) : result state :=
  if (idx <? 0) || (Z.of_nat (length (dive_table s)) <? idx) then Failed MemoryFault
  else
    let s := with_dive_table (add_to_table (dive_table s) (Z.to_nat idx) dive) s in
    Done (if selected (dive_at s dive)
          then with_amount_selected (wrap32 (amount_selected s + 1)) s else s).

(** *** Import planner *)

Definition insert_dive (table : list dive_ptr) (d : dive_ptr) (s : state) : list dive_ptr :=
  add_to_table table (get_insertion_index (dive_less_than s) table d) d.

Definition clear_table (table : list dive_ptr) (s : state) : state :=
  foldl (fun s d => free_dive d s) s table.

Definition clear_trip_table (table : list trip_ptr) (s : state) : state :=
  foldl (fun s t => free_trip t s) s table.

(** [merge_imported_dives], as a walk over the table with [prev] the
    entry at [i - 1] and [rest] the entries from [i] on.  After a merge
    the loop redoes index [i] with the merged dive as [prev]. *)
Fixpoint merge_imported_from (prev : dive_ptr) (rest : list dive_ptr) (s : state)
  : list dive_ptr * state :=
  match rest with
  | [] => ([prev], s)
  | dive :: rest' =>
      let dp := dive_at s prev in
      let dd := dive_at s dive in
      if negb (duration dp =? 0) && negb (duration dd =? 0)
         && (dive_endtime dp <? when dd)
      then let '(l, s) := merge_imported_from dive rest' s in (prev :: l, s)
      else
        match try_to_merge dp dd false with
        | None => let '(l, s) := merge_imported_from dive rest' s in (prev :: l, s)
        | Some m =>
            let '(merged, s) := alloc_dive m s in
            let s := free_dive prev s in
            let s := free_dive dive s in
            merge_imported_from merged rest' s
        end
  end.

Definition merge_imported_dives (table : list dive_ptr) (s : state)
  : list dive_ptr * state :=
  match table with
  | [] => ([], s)
  | first :: rest => merge_imported_from first rest s
  end.

(** [try_to_merge_into]: [None] is the [false] return; otherwise the new
    [dives_to_add] and [dives_to_remove]. *)
Definition try_to_merge_into (dive_to_add : dive_ptr) (idx : nat) (table : list dive_ptr)
    (prefer_imported : bool) (dives_to_add dives_to_remove : list dive_ptr) (s : state)
  : option (list dive_ptr * list dive_ptr * state) :=
  let old_dive := table !!! idx in
  match try_to_merge (dive_at s old_dive) (dive_at s dive_to_add) prefer_imported with
  | None => None
  | Some m =>
      let '(merged, s) := alloc_dive m s in
      let s := store_dive merged
                 (set_divetrip (divetrip (dive_at s old_dive)) (dive_at s merged)) s in
      let dives_to_remove := insert_dive dives_to_remove old_dive s in
      let dives_to_add := insert_dive dives_to_add merged s in
      Some (dives_to_add, dives_to_remove, s)
  end.

Definition trips_overlap (s : state) (t1 t2 : trip_ptr) : bool :=
  if (length (dives (trip_at s t1)) =? 0)%nat || (length (dives (trip_at s t2)) =? 0)%nat
  then false
  else if trip_date s (Some t1) <? trip_date s (Some t2)
       then trip_enddate s (Some t1) >=? trip_date s (Some t2)
       else trip_enddate s (Some t2) >=? trip_date s (Some t1).

Definition dive_is_after_last (s : state) (d : dive_ptr) : bool :=
  match last (dive_table s) with
  | None => true
  | Some l => dive_less_than s l d
  end.

(** The tables and counters [merge_dive_tables] updates through its
    pointer arguments. *)
Record merge_out := mk_merge_out {
  mo_delete_from : option (list dive_ptr);
  mo_dives_to_add : list dive_ptr;
  mo_dives_to_remove : list dive_ptr;
  mo_num_merged : nat;
  mo_sequence_changed : bool;
  mo_state : state
}.

(** [while (j < dives_to->nr && dive_less_than(dives_to->dives[j], dive_to_add)) j++;]
    over the entries from [j] on. *)
Fixpoint find_insertion_point (s : state) (rest : list dive_ptr) (dive_to_add : dive_ptr)
    (j : nat) : nat :=
  match rest with
  | [] => j
  | x :: rest' =>
      if dive_less_than s x dive_to_add
      then find_insertion_point s rest' dive_to_add (S j) else j
  end.

(** The main loop of [merge_dive_tables] over the entries of
    [dives_from]. *)
Fixpoint merge_dive_tables_loop (dives_from dives_to : list dive_ptr)
    (prefer_imported : bool) (trip : option trip_ptr)
    (j : nat) (last_merged_into : Z) (acc : merge_out) : merge_out :=
  match dives_from with
  | [] => acc
  | dive_to_add :: rest =>
      let s := mo_state acc in
      let delete_from := (fun t => remove_dive t dive_to_add) <$> mo_delete_from acc in
      let j := find_insertion_point s (drop j dives_to) dive_to_add j in
      let merged_prev :=
        if (0 <? j)%nat && (Z.of_nat j - 1 >? last_merged_into)
           && (dive_endtime (dive_at s (dives_to !!! (j - 1)%nat)) >? when (dive_at s dive_to_add))
        then try_to_merge_into dive_to_add (j - 1) dives_to prefer_imported
               (mo_dives_to_add acc) (mo_dives_to_remove acc) s
        else None in
      match merged_prev with
      | Some (to_add, to_remove, s) =>
          merge_dive_tables_loop rest dives_to prefer_imported trip j (Z.of_nat j - 1)
            (mk_merge_out delete_from to_add to_remove (S (mo_num_merged acc))
               (mo_sequence_changed acc) (free_dive dive_to_add s))
      | None =>
          let merged_next :=
            if (j <? length dives_to)%nat && (Z.of_nat j >? last_merged_into)
               && (dive_endtime (dive_at s dive_to_add) >? when (dive_at s (dives_to !!! j)))
            then try_to_merge_into dive_to_add j dives_to prefer_imported
                   (mo_dives_to_add acc) (mo_dives_to_remove acc) s
            else None in
          match merged_next with
          | Some (to_add, to_remove, s) =>
              merge_dive_tables_loop rest dives_to prefer_imported trip j (Z.of_nat j)
                (mk_merge_out delete_from to_add to_remove (S (mo_num_merged acc))
                   (mo_sequence_changed acc) (free_dive dive_to_add s))
          | None =>
              let to_add := insert_dive (mo_dives_to_add acc) dive_to_add s in
              let changed := mo_sequence_changed acc || negb (dive_is_after_last s dive_to_add) in
              let s := store_dive dive_to_add (set_divetrip trip (dive_at s dive_to_add)) s in
              merge_dive_tables_loop rest dives_to prefer_imported trip j last_merged_into
                (mk_merge_out delete_from to_add (mo_dives_to_remove acc)
                   (mo_num_merged acc) changed s)
          end
      end
  end.

(** [merge_dive_tables].  The tables behind the pointer arguments come in
    by value and go out in the result; [mo_sequence_changed] is the
    return value.  The final [dives_from->nr = 0] is done by the caller,
    who owns [dives_from]. *)
Definition merge_dive_tables (dives_from : list dive_ptr)
    (delete_from : option (list dive_ptr)) (dives_to : list dive_ptr)
    (prefer_imported : bool) (trip : option trip_ptr)
    (dives_to_add dives_to_remove : list dive_ptr) (num_merged : nat) (s : state)
  : merge_out :=
  merge_dive_tables_loop dives_from dives_to prefer_imported trip O (-1)
    (mk_merge_out delete_from dives_to_add dives_to_remove num_merged false s).


(** The [flags] bit mask of the import functions, one field per bit (the
    bit values are defined in [divelist.h]). *)
Record import_flags := mk_flags {
  IMPORT_PREFER_IMPORTED : bool;
  IMPORT_IS_DOWNLOADED : bool;
  IMPORT_MERGE_ALL_TRIPS : bool;
  IMPORT_ADD_TO_NEW_TRIP : bool
}.

(** The tables and locals of [process_imported_dives]. *)
Record planner := mk_planner {
  import_table : list dive_ptr;
  dives_to_add : list dive_ptr;
  dives_to_remove : list dive_ptr;
  trips_to_add : list trip_ptr;
  sequence_changed : bool;
  start_renumbering_at : nat;
  st : state
}.

(** [try_to_merge_trip]: the loop over the global trip table, from the
    entries [trips] on; [None] is the [false] return. *)
Fixpoint try_to_merge_trip_from (trips : list trip_ptr) (trip_import : trip_ptr)
    (prefer_imported : bool) (pl : planner) : option planner :=
  match trips with
  | [] => None
  | trip_old :: rest =>
      let s := st pl in
      if trips_overlap s trip_import trip_old then
        let r := merge_dive_tables (dives (trip_at s trip_import)) (Some (import_table pl))
                   (dives (trip_at s trip_old)) prefer_imported (Some trip_old)
                   (dives_to_add pl) (dives_to_remove pl) (start_renumbering_at pl) s in
        Some (mk_planner (default (import_table pl) (mo_delete_from r))
                (mo_dives_to_add r) (mo_dives_to_remove r) (trips_to_add pl)
                (sequence_changed pl || mo_sequence_changed r) (mo_num_merged r)
                (free_trip trip_import (mo_state r)))
      else try_to_merge_trip_from rest trip_import prefer_imported pl
  end.

Definition try_to_merge_trip (trip_import : trip_ptr) (prefer_imported : bool)
    (pl : planner) : option planner :=
  try_to_merge_trip_from (trip_table (st pl)) trip_import prefer_imported pl.

(** "If no trip to merge-into was found, add trip as-is": the inner loop
    over the dives of the trip, then the insertion of the trip. *)
Definition add_trip_as_is (trip_import : trip_ptr) (pl : planner) : planner :=
  let pl :=
    foldl (fun pl d =>
             mk_planner (remove_dive (import_table pl) d)
               (insert_dive (dives_to_add pl) d (st pl))
               (dives_to_remove pl) (trips_to_add pl)
               (sequence_changed pl || negb (dive_is_after_last (st pl) d))
               (start_renumbering_at pl) (st pl))
          pl (dives (trip_at (st pl) trip_import)) in
  let s := st pl in
  mk_planner (import_table pl) (dives_to_add pl) (dives_to_remove pl)
    (insert_trip trip_import (trips_to_add pl) s)
    (sequence_changed pl) (start_renumbering_at pl)
    (store_trip trip_import (set_dives [] (trip_at s trip_import)) s).

(** The loop over [import_trip_table].  The inner loop of the C code
    counts with the same variable [i]: after a trip was added as-is, [i]
    is the number of dives that trip had, and the loop increment makes
    the next index one more than that.  Once [i] can move backwards
    nothing bounds the number of rounds, hence the [fuel]; a trip that
    was merged has been freed, and reading it again is a
    [MemoryFault]. *)
Fixpoint import_trips_loop (fuel : nat) (import_trip_table : list trip_ptr)
    (flags : import_flags) (i : nat) (pl : planner) : result planner :=
  match fuel with
  | O => Failed OutOfFuel
  | S fuel' =>
      match import_trip_table !! i with
      | None => Done pl
      | Some trip_import =>
          match trip_heap (st pl) !! trip_import with
          | None => Failed MemoryFault
          | Some tr =>
              let merged :=
                if IMPORT_MERGE_ALL_TRIPS flags || autogen tr
                then try_to_merge_trip trip_import (IMPORT_PREFER_IMPORTED flags) pl
                else None in
              match merged with
              | Some pl' => import_trips_loop fuel' import_trip_table flags (S i) pl'
              | None =>
                  import_trips_loop fuel' import_trip_table flags
                    (S (length (dives tr))) (add_trip_as_is trip_import pl)
              end
          end
      end
  end.

(** The [IMPORT_ADD_TO_NEW_TRIP] branch: all remaining dives go to one
    new trip. *)
Definition add_to_new_trip (pl : planner) : planner :=
  let '(new_trip, s) := create_trip_from_dive (import_table pl !!! O) (st pl) in
  let trips := insert_trip new_trip (trips_to_add pl) s in
  let pl :=
    foldl (fun pl d =>
             let s := store_dive d (set_divetrip (Some new_trip) (dive_at (st pl) d)) (st pl) in
             mk_planner (import_table pl) (insert_dive (dives_to_add pl) d s)
               (dives_to_remove pl) (trips_to_add pl)
               (sequence_changed pl || negb (dive_is_after_last s d))
               (start_renumbering_at pl) s)
          (mk_planner (import_table pl) (dives_to_add pl) (dives_to_remove pl) trips
             (sequence_changed pl) (start_renumbering_at pl) s)
          (import_table pl) in
  mk_planner [] (dives_to_add pl) (dives_to_remove pl) (trips_to_add pl)
    (sequence_changed pl) (start_renumbering_at pl) (st pl).

(** The other branch: the remaining dives are merged into the global
    table. *)
Definition merge_into_global (flags : import_flags) (pl : planner) : planner :=
  let r := merge_dive_tables (import_table pl) None (dive_table (st pl))
             (IMPORT_PREFER_IMPORTED flags) None
             (dives_to_add pl) (dives_to_remove pl) (start_renumbering_at pl) (st pl) in
  mk_planner [] (mo_dives_to_add r) (mo_dives_to_remove r) (trips_to_add pl)
    (sequence_changed pl || mo_sequence_changed r) (mo_num_merged r) (mo_state r).

(** [process_imported_dives] from the sort of the import table up to the
    renumbering, for a non-empty [import_table]; [set_dc_nickname]
    touches no state modelled here. *)
Definition plan_imported_dives (fuel : nat) (table : list dive_ptr)
    (trips : list trip_ptr) (flags : import_flags) (s : state)
  : result planner :=
  let table := sort_dive_table s table in
  let '(table, s) := merge_imported_dives table s in
  do grouped <- (if negb (IMPORT_ADD_TO_NEW_TRIP flags)
                  then autogroup_dives table trips s
                  else Done (trips, s));
  let '(trips, s) := grouped in
  do pl <- import_trips_loop fuel trips flags O
             (mk_planner table [] [] [] false O s);
  Done (if IMPORT_ADD_TO_NEW_TRIP flags && (0 <? length (import_table pl))%nat
        then add_to_new_trip pl
        else if (0 <? length (import_table pl))%nat
             then merge_into_global flags pl
             else pl).

(** [for (i = start_renumbering_at; i < dives_to_add->nr; i++)
       dives_to_add->dives[i]->number = ++nr;]
    over the entries from [start_renumbering_at] on. *)
Fixpoint renumber_from (added : list dive_ptr) (nr : Z) (s : state) : state :=
  match added with
  | [] => s
  | d :: rest => renumber_from rest (nr + 1) (store_dive d (set_number (nr + 1) (dive_at s d)) s)
  end.

(** The closing step of [process_imported_dives]. *)
Definition renumber_added_dives (new_dive_has_number : bool) (preexisting : nat)
    (pl : planner) : planner :=
  let s := st pl in
  let nr := match last (dive_table s) with
            | Some l => number (dive_at s l)
            | None => 0
            end in
  if negb (sequence_changed pl) && (nr >=? Z.of_nat preexisting) && negb new_dive_has_number
  then mk_planner (import_table pl) (dives_to_add pl) (dives_to_remove pl) (trips_to_add pl)
         (sequence_changed pl) (start_renumbering_at pl)
         (renumber_from (drop (start_renumbering_at pl) (dives_to_add pl)) nr s)
  else pl.

(** [get_dive_nr_at_idx]: the number a dive gets when it is inserted at
    [idx]. *)
Definition get_dive_nr_at_idx (idx : Z) (s : state) : Z :=
  if (length (dive_table s) =? 0)%nat then 1
  else if idx >=? Z.of_nat (length (dive_table s)) then
    match get_dive s (Z.of_nat (length (dive_table s)) - 1) with
    | Some last_dive =>
        if number (dive_at s last_dive) =? 0 then 0
        else number (dive_at s last_dive) + 1
    | None => 0
    end
  else 0.

(** [process_imported_dives], with [table] for [import_table] and
    [trips] for [import_trip_table] ([None] when the caller passes
    [NULL]); the three output tables are cleared first. *)
Definition process_imported_dives (fuel : nat) (table : list dive_ptr)
    (trips : option (list trip_ptr)) (flags : import_flags)
    (to_add to_remove : list dive_ptr) (new_trips : list trip_ptr)
    (s : state) : result planner :=
  let trips := default [] trips in
  let s := clear_table to_add s in
  let s := clear_table to_remove s in
  let s := clear_trip_table new_trips s in
  let new_dive_has_number :=
    existsb (fun d => number (dive_at s d) >? 0) table in
  if (length table =? 0)%nat then Done (mk_planner table [] [] [] false O s)
  else
    let preexisting := length (dive_table s) in
    do pl <- plan_imported_dives fuel table trips flags s;
    Done (renumber_added_dives new_dive_has_number preexisting pl).

End Divelist.

(** ** Air use and SAC *)

Section Physiology.

(** Collaborators of [dive.c] / [equipment.c]. *)
Variable is_cylinder_used : dive -> nat -> bool.
(** [gas_volume(cyl, p)], with the pressure [p] given in mbar. *)
Variable gas_volume : cylinder_t -> Z -> Z.
(** The closing floating-point expression of [calculate_sac],
    [lrint(airuse / depth_to_atm(meandepth, dive) * 60 / duration * 1000)],
    as a function of [airuse], [meandepth], [duration] and the dive. *)
Variable sac_rate : Q -> Z -> Z -> dive -> Z.

Definition start_pressure (cyl : cylinder_t) : Z :=
  if cyl_start cyl =? 0 then sample_start cyl else cyl_start cyl.

Definition end_pressure (cyl : cylinder_t) : Z :=
  if cyl_end cyl =? 0 then sample_end cyl else cyl_end cyl.

(** [!end.mbar || start.mbar <= end.mbar] *)
Definition no_pressure_drop (cyl : cylinder_t) : bool :=
  (end_pressure cyl =? 0) || (start_pressure cyl <=? end_pressure cyl).

(** The loop of [calculate_airuse] over the cylinders from index [i] on,
    with the [int] accumulator [airuse].  The [double] result is given as
    the rational it stands for: [0.0] on the early return, the
    accumulator over [1000.0] at the end. *)
Fixpoint airuse_from (d : dive) (cyls : list cylinder_t) (i : nat) (airuse : Z) : Q :=
  match cyls with
  | [] => Qmake airuse 1000
  | cyl :: rest =>
      if no_pressure_drop cyl then
        if is_cylinder_used d i then 0%Q
        else airuse_from d rest (S i) airuse
      else
        airuse_from d rest (S i)
          (airuse + (gas_volume cyl (start_pressure cyl) - gas_volume cyl (end_pressure cyl)))
  end.

Definition calculate_airuse (d : dive) : Q :=
  airuse_from d (cylinder d) O 0.

(** [calculate_sac]; the test [!airuse] on the [double] is the test that
    the rational is zero. *)
Definition calculate_sac (d : dive) : Z :=
  let airuse := calculate_airuse d in
  if Qeq_bool airuse 0 then 0
  else if dc_duration d =? 0 then 0
  else if dc_meandepth d =? 0 then 0
  else sac_rate airuse (dc_meandepth d) (dc_duration d) d.

(** The sum the specification sentence describes: over all cylinders,
    [gas_volume(cyl, start) - gas_volume(cyl, end)]. *)
Definition pressure_drop_volume (cyl : cylinder_t) : Z :=
  gas_volume cyl (start_pressure cyl) - gas_volume cyl (end_pressure cyl).

Definition sum_over_cylinders (d : dive) : Z :=
  foldr (fun cyl acc => pressure_drop_volume cyl + acc) 0 (cylinder d).

(** Some cylinder is used and has no usable pressure drop. *)
Definition used_without_drop (d : dive) : Prop :=
  exists i cyl, cylinder d !! i = Some cyl /\ is_cylinder_used d i = true
                /\ no_pressure_drop cyl = true.

(** The sum over the cylinders that do have a pressure drop. *)
Definition sum_over_drops (d : dive) : Z :=
  foldr (fun cyl acc => if no_pressure_drop cyl then acc
                        else pressure_drop_volume cyl + acc) 0 (cylinder d).

End Physiology.

(** ** Invariants of the global state *)

(** The number of entries of [table] that point to a selected dive. *)
Fixpoint count_selected (s : state) (table : list dive_ptr) : Z :=
  match table with
  | [] => 0
  | p :: rest => (if selected (dive_at s p) then 1 else 0) + count_selected s rest
  end.

(** [amount_selected = |{d : d.selected}|] over the global dive table. *)
Definition selection_consistent (s : state) : Prop :=
  amount_selected s = count_selected s (dive_table s).

(** The global table holds every dive once, and its [int nr] is in
    range. *)
Definition table_well_formed (s : state) : Prop :=
  NoDup (dive_table s) /\ Z.of_nat (length (dive_table s)) < 2 ^ 31.

(** ** Scenarios *)

(** A dive as it is right after being logged: an id and a start time,
    every other field zero. *)
Definition plain_dive (the_id w : Z) : dive :=
  mk_dive the_id w 0 0 None false false false None [] 0 0.

Definition numbered_dive (the_id w n : Z) : dive :=
  mk_dive the_id w n 0 None false false false None [] 0 0.

Definition selected_dive (the_id w : Z) : dive :=
  mk_dive the_id w 0 0 None true false false None [] 0 0.

(** A log of exactly two dives [A] (at address 0) and [B] (at address 1),
    no trips, autogrouping switched on. *)
Definition two_dive_log (A B : dive) : state :=
  mk_state (<[0%nat := A]> (<[1%nat := B]> ∅)) ∅ 2%nat 0%nat [0; 1]%nat [] 0 None true.

(** Three days in seconds, the value [dive.h] gives [TRIP_THRESHOLD]. *)
Definition three_days : Z := 3600 * 24 * 3.

(** Stand-ins for the collaborators in the closed examples: a dive ends
    [duration] seconds after it starts, and no two dives can be merged. *)
Definition end_by_duration (d : dive) : Z := when d + duration d.
Definition never_merge (a b : dive) (prefer_b : bool) : option dive := None.

Definition no_flags : import_flags := mk_flags false false false false.

(** Three dives with ids 1, 2, 3 at addresses 0, 1, 2, all selected. *)
Definition three_selected (current : option dive_ptr) : state :=
  mk_state (<[0%nat := selected_dive 1 1000]>
              (<[1%nat := selected_dive 2 2000]>
                 (<[2%nat := selected_dive 3 3000]> ∅)))
           ∅ 3%nat 0%nat [0; 1; 2]%nat [] 3 current false.

(** A log of three dives of which the first was never numbered, so that
    the last one has number 2; a freshly downloaded, numberless fourth dive
    sits at address 3, outside the table. *)
Definition partly_numbered_log : state :=
  mk_state (<[0%nat := numbered_dive 1 1000 0]>
              (<[1%nat := numbered_dive 2 2000 1]>
                 (<[2%nat := numbered_dive 3 3000 2]>
                    (<[3%nat := numbered_dive 4 4000 0]> ∅))))
           ∅ 4%nat 0%nat [0; 1; 2]%nat [] 0 None false.

(** A log whose only dive has number 42, and three numberless dives at
    addresses 1, 2, 3, all later than it. *)
Definition log_ending_at_42 : state :=
  mk_state (<[0%nat := numbered_dive 1 1000 42]>
              (<[1%nat := numbered_dive 2 2000 0]>
                 (<[2%nat := numbered_dive 3 3000 0]>
                    (<[3%nat := numbered_dive 4 4000 0]> ∅))))
           ∅ 4%nat 0%nat [0]%nat [] 0 None false.

(** Two trips that both have a location and notes. *)
Definition two_named_trips : state :=
  mk_state ∅
           (<[0%nat := mk_trip (Some "Red Sea") (Some "liveaboard") false []]>
              (<[1%nat := mk_trip (Some "Bonaire") (Some "shore dives") false []]> ∅))
           0%nat 2%nat [] [0; 1]%nat 0 None false.

(** A table in which the earlier dive got the larger id (it was imported
    after the later one had been logged). *)
Definition late_import_table : list dive :=
  [plain_dive 2 0; plain_dive 1 100].

(** Two dives of ten and twenty minutes. *)
Definition two_timed_dives : list dive :=
  [mk_dive 1 1000 0 600 None false false false None [] 0 0;
   mk_dive 2 5000 0 1200 None false false false None [] 0 0].

(** A dive with a used ten-litre cylinder that went from 200 to 50 bar and
    an unused second cylinder for which only a start pressure is known. *)
Definition dive_with_spare_cylinder : dive :=
  mk_dive 1 1000 0 3000 None false false false None
          [mk_cylinder 200000 50000 0 0 10000; mk_cylinder 200000 0 0 0 10000]
          3000 15000.

(** Stand-ins for the cylinder collaborators: only the first cylinder is
    used, and gas behaves ideally ([size * pressure], in ml at 1 bar). *)
Definition first_cylinder_only (d : dive) (i : nat) : bool := (i =? 0)%nat.
Definition ideal_gas_volume (cyl : cylinder_t) (mbar : Z) : Z :=
  size_mliter cyl * mbar / 1000.
Definition no_sac_rate (airuse : Q) (meandepth duration_s : Z) (d : dive) : Z := 1.

(** The global dive table as the sequence of dive records it points to,
    and its sortedness by [comp_dives] (invariant 1 of the data model). *)
Definition loaded_dives (s : state) : list dive :=
  (fun p => dive_at s p) <$> dive_table s.

Definition dive_table_sorted (s : state) : Prop :=
  forall i j a b, dive_table s !! i = Some a -> dive_table s !! j = Some b ->
    (i <= j)%nat -> comp_dives s a b <= 0.

(** ** Further functions of [divelist.c] *)

(** The sort key of [comp_dives]: start time, trip bucket (0 for a dive in
    a trip, 1 for a trip-less dive), start of the trip, id. *)
Definition dive_sort_key (s : state) (d : dive_ptr) : Z * Z * Z * Z :=
  (when (dive_at s d),
   match divetrip (dive_at s d) with Some _ => 0 | None => 1 end,
   trip_date s (divetrip (dive_at s d)),
   id (dive_at s d)).

Definition compare_Z (x y : Z) : Z :=
  if x <? y then -1 else if x >? y then 1 else 0.

(** Lexicographic comparison of two keys, as [-1], [0] or [1]. *)
Definition compare_keys (k1 k2 : Z * Z * Z * Z) : Z :=
  let '(w1, b1, t1, i1) := k1 in
  let '(w2, b2, t2, i2) := k2 in
  if compare_Z w1 w2 =? 0 then
    if compare_Z b1 b2 =? 0 then
      if compare_Z t1 t2 =? 0 then compare_Z i1 i2 else compare_Z t1 t2
    else compare_Z b1 b2
  else compare_Z w1 w2.

(** A table is in order for [less] when no later entry is less than an
    earlier one. *)
Definition in_order {A : Type} (less : A -> A -> bool) (table : list A) : Prop :=
  forall i j x y, table !! i = Some x -> table !! j = Some y -> (i < j)%nat ->
    less y x = false.

(** [first_selected_dive] *)
Fixpoint first_selected_from (s : state) (table : list dive_ptr) : option dive_ptr :=
  match table with
  | [] => None
  | d :: rest => if selected (dive_at s d) then Some d else first_selected_from s rest
  end.

Definition first_selected_dive (s : state) : option dive_ptr :=
  first_selected_from s (dive_table s).

(** [last_selected_dive]: the loop keeps the last selected dive seen. *)
Definition last_selected_dive (s : state) : option dive_ptr :=
  foldl (fun ret d => if selected (dive_at s d) then Some d else ret) None (dive_table s).

(** One round of the loop of [consecutive_selected] on the flags
    [(consecutive, firstfound, lastfound)]. *)
Definition consecutive_step (s : state) (flags : bool * bool * bool) (d : dive_ptr)
  : bool * bool * bool :=
  let '(consecutive, firstfound, lastfound) := flags in
  if selected (dive_at s d) then
    if negb firstfound then (consecutive, true, lastfound)
    else if lastfound then (false, firstfound, lastfound)
    else (consecutive, firstfound, lastfound)
  else if firstfound then (consecutive, firstfound, true)
  else (consecutive, firstfound, lastfound).

Definition consecutive_selected (s : state) : bool :=
  if (amount_selected s =? 0) || (amount_selected s =? 1) then true
  else fst (fst (foldl (consecutive_step s) (true, false, false) (dive_table s))).

(** [find_next_visible_dive]: the first loop,
    [for (i = 0; i < nr; i++) if (when <= get_dive(i)->when) break;]. *)
Fixpoint first_not_before (s : state) (table : list dive_ptr) (w : Z) : nat :=
  match table with
  | [] => O
  | d :: rest => if w <=? when (dive_at s d) then O else S (first_not_before s rest w)
  end.

(** The second loop, [for (j = ...; j > 0; j--)], started at [j]. *)
Fixpoint visible_down_to_one (s : state) (j : nat) : option dive_ptr :=
  match j with
  | O => None
  | S k =>
      if negb (hidden_by_filter (dive_at s (dive_table s !!! j))) then Some (dive_table s !!! j)
      else visible_down_to_one s k
  end.

(** The third loop, over the entries from [i] on. *)
Fixpoint first_visible (s : state) (rest : list dive_ptr) : option dive_ptr :=
  match rest with
  | [] => None
  | d :: rest' => if negb (hidden_by_filter (dive_at s d)) then Some d
                  else first_visible s rest'
  end.

Definition find_next_visible_dive (s : state) (w : Z) : option dive_ptr :=
  if (length (dive_table s) =? 0)%nat then None
  else
    let i := first_not_before s (dive_table s) w in
    match visible_down_to_one s (i - 1) with
    | Some d => Some d
    | None => first_visible s (drop i (dive_table s))
    end.

(** [trip_shown_dives] *)
Definition trip_shown_dives (s : state) (trip : trip_ptr) : Z :=
  foldl (fun res d => if negb (hidden_by_filter (dive_at s d)) then res + 1 else res)
        0 (dives (trip_at s trip)).

(** [deselect_dives_in_trip] and [select_dives_in_trip] *)
Definition deselect_dives_in_trip (trip : option trip_ptr) (s : state) : state :=
  match trip with
  | None => s
  | Some t => foldl (fun s d => deselect_dive (Some d) s) s (dives (trip_at s t))
  end.


(** The static [min_datafile_version] and its three functions; the
    variable is passed in and out. *)
Definition get_min_datafile_version (min_datafile_version : Z) : Z := min_datafile_version.

Definition reset_min_datafile_version : Z := 0.

Definition report_datafile_version (version : Z) (min_datafile_version : Z) : Z :=
  if (min_datafile_version =? 0) || (min_datafile_version >? version)
  then version else min_datafile_version.

(** [struct dive_or_trip]: a dive pointer and a trip pointer, of which
    callers set one. *)
Record dive_or_trip := mk_dive_or_trip {
  the_dive : option dive_ptr;
  the_trip : option trip_ptr
}.

(** [comp_dive_to_trip]; [None] when the code reads through a null
    pointer: a null trip, or a null dive compared with a trip that has
    dives. *)
Definition comp_dive_to_trip (s : state) (a : option dive_ptr) (b : option trip_ptr)
  : option Z :=
  match b with
  | None => None
  | Some t =>
      match dives (trip_at s t) with
      | [] => Some (-1)
      | d :: _ =>
          match a with
          | Some da => Some (comp_dives s da d)
          | None => None
          end
      end
  end.

(** [comp_dive_or_trip] *)
Definition comp_dive_or_trip (s : state) (a b : dive_or_trip) : option Z :=
  match the_dive a, the_dive b with
  | Some da, Some db => Some (comp_dives s da db)
  | _, _ =>
      match the_trip a, the_trip b with
      | Some ta, Some tb => Some (comp_trips s ta tb)
      | _, _ =>
          match the_dive a with
          | Some _ => comp_dive_to_trip s (the_dive a) (the_trip b)
          | None => Z.opp <$> comp_dive_to_trip s (the_dive b) (the_trip a)
          end
      end
  end.

Definition dive_or_trip_less_than (s : state) (a b : dive_or_trip) : option bool :=
  (fun c => c <? 0) <$> comp_dive_or_trip s a b.

Section NewDiveTrip.

Variable TRIP_THRESHOLD : Z.

(** The loop of [get_trip_for_new_dive] over the global table: the trip
    of the first dive in range that has one. *)
Fixpoint trip_in_range (s : state) (table : list dive_ptr) (new_when : Z)
  : option trip_ptr :=
  match table with
  | [] => None
  | d :: rest =>
      if when (dive_at s d) >=? new_when + TRIP_THRESHOLD then None
      else
        match divetrip (dive_at s d) with
        | Some trip =>
            if when (dive_at s d) + TRIP_THRESHOLD >=? new_when then Some trip
            else trip_in_range s rest new_when
        | None => trip_in_range s rest new_when
        end
  end.

(** [get_trip_for_new_dive]: the trip and the value of [*allocated]. *)
Definition get_trip_for_new_dive (new_dive : dive_ptr) (s : state)
  : trip_ptr * bool * state :=
  match trip_in_range s (dive_table s) (when (dive_at s new_dive)) with
  | Some trip => (trip, false, s)
  | None =>
      let '(trip, s) := create_trip_from_dive new_dive s in
      (trip, true, store_trip trip (set_autogen true (trip_at s trip)) s)
  end.

End NewDiveTrip.

(** [create_and_hookup_trip_from_dive]: the trip of the first [alloc_trip]
    is overwritten by the one of [create_trip_from_dive] and leaks. *)
Definition create_and_hookup_trip_from_dive (dive : dive_ptr) (table : list trip_ptr)
    (s : state) : trip_ptr * list trip_ptr * state :=
  let '(_, s) := alloc_trip s in
  let '(dive_trip, s) := create_trip_from_dive dive s in
  let s := add_dive_to_trip dive dive_trip s in
  (dive_trip, insert_trip dive_trip table s, s).

Section DiveGas.

(** Collaborators: [get_o2(cyl->gasmix)] and [get_he(cyl->gasmix)] in
    permille, [cylinder_none], [is_cylinder_used] and the constant
    [O2_IN_AIR]. *)
Variable get_o2 : cylinder_t -> Z.
Variable get_he : cylinder_t -> Z.
Variable cylinder_none : cylinder_t -> bool.
Variable is_cylinder_used : dive -> nat -> bool.
Variable O2_IN_AIR : Z.

(** The loop of [get_dive_gas] over the cylinders from index [i] on; the
    result is [(maxo2, maxhe, mino2)]. *)
Fixpoint dive_gas_loop (d : dive) (cyls : list cylinder_t) (i : nat)
    (maxo2 maxhe mino2 : Z) : Z * Z * Z :=
  match cyls with
  | [] => (maxo2, maxhe, mino2)
  | cyl :: rest =>
      let o2 := get_o2 cyl in
      let he := get_he cyl in
      if negb (is_cylinder_used d i) then dive_gas_loop d rest (S i) maxo2 maxhe mino2
      else if cylinder_none cyl then dive_gas_loop d rest (S i) maxo2 maxhe mino2
      else
        let maxo2 := if o2 >? maxo2 then o2 else maxo2 in
        if he >? maxhe then dive_gas_loop d rest (S i) maxo2 he o2
        else if he <? maxhe then dive_gas_loop d rest (S i) maxo2 maxhe mino2
        else if o2 <=? maxo2 then dive_gas_loop d rest (S i) maxo2 maxhe mino2
        else dive_gas_loop d rest (S i) maxo2 he o2
  end.

(** [get_dive_gas]: the values stored to [( *o2_p, *he_p, *o2max_p)]. *)
Definition get_dive_gas (d : dive) : Z * Z * Z :=
  let '(maxo2, maxhe, mino2) := dive_gas_loop d (cylinder d) O (-1) (-1) 1000 in
  if ((maxhe =? 0) && (maxo2 =? O2_IN_AIR) && (mino2 =? maxo2))
     || ((maxo2 =? -1) && (maxhe =? -1) && (mino2 =? 1000))
  then (0, maxhe, 0)
  else (mino2, maxhe, maxo2).

(** The cylinders the loop looks at: used and not [cylinder_none]. *)
Fixpoint considered_from (d : dive) (cyls : list cylinder_t) (i : nat) : list cylinder_t :=
  match cyls with
  | [] => []
  | cyl :: rest =>
      if is_cylinder_used d i && negb (cylinder_none cyl)
      then cyl :: considered_from d rest (S i)
      else considered_from d rest (S i)
  end.

Definition considered_cylinders (d : dive) : list cylinder_t :=
  considered_from d (cylinder d) O.

End DiveGas.

(** The globals of the dive list that are not heap objects: what a
    function leaves alone when it only plans changes. *)
Definition globals (s : state)
  : list dive_ptr * list trip_ptr * Z * option dive_ptr * bool :=
  (dive_table s, trip_table s, amount_selected s, current_dive s, autogroup s).

(** ** Further scenarios *)

Definition dive_in_trip (the_id w dur : Z) (t : trip_ptr) (sel : bool) : dive :=
  mk_dive the_id w 0 dur (Some t) sel false false None [] 0 0.

(** Three selected dives at addresses 0, 1, 2 of which the first two are
    in the trip at address 0. *)
Definition log_with_trip : state :=
  mk_state (<[0%nat := dive_in_trip 1 1000 0 0%nat true]>
              (<[1%nat := dive_in_trip 2 2000 0 0%nat true]>
                 (<[2%nat := selected_dive 3 3000]> ∅)))
           (<[0%nat := mk_trip (Some "Bonaire") None false [0; 1]%nat]> ∅)
           3%nat 1%nat [0; 1; 2]%nat [0]%nat 3 None false.

(** Two ten-minute dives, five minutes apart, each in a trip of its
    own. *)
Definition log_with_two_trips : state :=
  mk_state (<[0%nat := dive_in_trip 1 1000 600 0%nat false]>
              (<[1%nat := dive_in_trip 2 1300 600 1%nat false]> ∅))
           (<[0%nat := mk_trip None None false [0%nat]]>
              (<[1%nat := mk_trip None None false [1%nat]]> ∅))
           2%nat 2%nat [0; 1]%nat [0; 1]%nat 0 None false.

(** The two dives of [two_timed_dives] as a log. *)
Definition timed_log : state :=
  mk_state (<[0%nat := mk_dive 1 1000 0 600 None false false false None [] 0 0]>
              (<[1%nat := mk_dive 2 5000 0 1200 None false false false None [] 0 0]> ∅))
           ∅ 2%nat 0%nat [0; 1]%nat [] 0 None false.

(** Stand-ins for the gas collaborators: every cylinder holds air and
    none is a placeholder. *)
Definition air_o2 (cyl : cylinder_t) : Z := 209.
Definition air_he (cyl : cylinder_t) : Z := 0.
Definition never_none (cyl : cylinder_t) : bool := false.

(** A stand-in for [try_to_merge] that merges any two dives: the result
    is a copy of the preferred one. *)
Definition always_merge (a b : dive) (prefer_b : bool) : option dive :=
  Some (if prefer_b then b else a).

(** A log of one ten-minute dive, with two downloaded dives at addresses
    1 and 2 that both start while it lasts. *)
Definition log_with_overlapping_import : state :=
  mk_state (<[0%nat := mk_dive 1 1000 0 600 None false false false None [] 0 0]>
              (<[1%nat := mk_dive 2 1100 0 100 None false false false None [] 0 0]>
                 (<[2%nat := mk_dive 3 1200 0 100 None false false false None [] 0 0]> ∅)))
           ∅ 3%nat 0%nat [0%nat] [] 0 None false.

(** * Properties *)

(** ** Queries on the dive table *)

Section QueryFacts.

Variable dive_endtime : dive -> Z.

Lemma previous_dive_idx_spec (tbl : list dive) (w : Z) (n : nat) :
  match previous_dive_idx tbl w n with
  | None => forall j, (j < n)%nat -> w <= when (tbl !!! j)
  | Some i => (i < n)%nat /\ when (tbl !!! i) < w
              /\ forall j, (i < j < n)%nat -> w <= when (tbl !!! j)
  end.
Proof.
  induction n as [|n IH]; simpl.
  - intros j Hj. lia.
  - destruct (Z.ltb_spec (when (tbl !!! n)) w) as [Hlt|Hge].
    + repeat split; [lia | assumption | intros j Hj; lia].
    + destruct (previous_dive_idx tbl w n) as [i|].
      * destruct IH as (Hi & Hw & Hrest). repeat split; [lia | assumption |].
        intros j Hj. destruct (decide (j = n)) as [->|Hne]; [assumption|].
        apply Hrest. lia.
      * intros j Hj. destruct (decide (j = n)) as [->|Hne]; [assumption|].
        apply IH. lia.
Qed.

Lemma lookup_total_of_lookup (tbl : list dive) (i : nat) (d : dive) :
  tbl !! i = Some d -> tbl !!! i = d.
Proof. intros H. by apply list_lookup_total_correct. Qed.

(** C6.  On a chronological table [get_surface_interval w] is [-1] when
    no dive starts strictly before [w]; otherwise, with [prev] the latest
    dive that starts strictly before [w] (the last such entry of the
    table), it is [0] when [prev] ends after [w] and [w - end(prev)]
    when it does not. *)
Theorem get_surface_interval_spec (tbl : list dive) (w : Z) :
  chronological tbl ->
  ((forall d, d ∈ tbl -> ~ when d < w) ->
     get_surface_interval dive_endtime tbl w = -1)
  /\ ((exists d, d ∈ tbl /\ when d < w) ->
      exists i prev,
        tbl !! i = Some prev /\ when prev < w
        /\ (forall d, d ∈ tbl -> when d < w -> when d <= when prev)
        /\ (forall j d, tbl !! j = Some d -> when d < w -> (j <= i)%nat)
        /\ (dive_endtime prev > w -> get_surface_interval dive_endtime tbl w = 0)
        /\ (dive_endtime prev <= w ->
            get_surface_interval dive_endtime tbl w = w - dive_endtime prev)).
Proof.
  intros Hchron. unfold get_surface_interval.
  pose proof (previous_dive_idx_spec tbl w (length tbl)) as Hscan.
  destruct (previous_dive_idx tbl w (length tbl)) as [i|]; split.
  - intros Hnone. destruct Hscan as (Hi & Hw & _). exfalso.
    apply (Hnone (tbl !!! i)); [|assumption].
    apply list_elem_of_lookup. exists i. by apply list_lookup_lookup_total_lt.
  - intros _. destruct Hscan as (Hi & Hw & Hrest).
    assert (Hlook : tbl !! i = Some (tbl !!! i))
      by (by apply list_lookup_lookup_total_lt).
    assert (Hlast : forall j d, tbl !! j = Some d -> when d < w -> (j <= i)%nat).
    { intros j d Hj Hd. destruct (decide (j <= i)%nat) as [|Hgt]; [assumption|].
      exfalso. apply lookup_lt_Some in Hj as Hjlen.
      specialize (Hrest j ltac:(lia)).
      rewrite (lookup_total_of_lookup _ _ _ Hj) in Hrest. lia. }
    exists i, (tbl !!! i). repeat split; try assumption.
    + intros d Hd Hdw. apply list_elem_of_lookup in Hd as [j Hj].
      apply (Hchron j i d (tbl !!! i) Hj Hlook). by eapply Hlast.
    + intros Hend. destruct (Z.gtb_spec (dive_endtime (tbl !!! i)) w); lia.
    + intros Hend. destruct (Z.gtb_spec (dive_endtime (tbl !!! i)) w); lia.
  - reflexivity.
  - intros (d & Hd & Hdw). exfalso.
    apply list_elem_of_lookup in Hd as [j Hj].
    apply lookup_lt_Some in Hj as Hjlen.
    specialize (Hscan j Hjlen). rewrite (lookup_total_of_lookup _ _ _ Hj) in Hscan. lia.
Qed.

End QueryFacts.

Section ClosestFacts.

Lemma first_later_idx_le_length (tbl : list dive) (w : Z) :
  (first_later_idx tbl w <= length tbl)%nat.
Proof.
  induction tbl as [|d tbl IH]; simpl; [lia|].
  destruct (when d <=? w); lia.
Qed.

Lemma first_later_idx_mono (tbl : list dive) (w1 w2 : Z) :
  w1 <= w2 -> (first_later_idx tbl w1 <= first_later_idx tbl w2)%nat.
Proof.
  intros Hw. induction tbl as [|d tbl IH]; simpl; [lia|].
  destruct (Z.leb_spec (when d) w1), (Z.leb_spec (when d) w2); lia.
Qed.

Lemma first_later_idx_before (tbl : list dive) (w : Z) (k : nat) :
  (k < first_later_idx tbl w)%nat -> when (tbl !!! k) <= w.
Proof.
  revert k. induction tbl as [|d tbl IH]; simpl; intros k Hk; [lia|].
  destruct (Z.leb_spec (when d) w); [|lia].
  destruct k as [|k]; [assumption|]. apply IH. lia.
Qed.

Lemma first_later_idx_at (tbl : list dive) (w : Z) :
  (first_later_idx tbl w < length tbl)%nat ->
  w < when (tbl !!! first_later_idx tbl w).
Proof.
  induction tbl as [|d tbl IH]; simpl; intros Hlt; [lia|].
  destruct (Z.leb_spec (when d) w); [|assumption].
  apply IH. lia.
Qed.

Lemma first_later_idx_app (l1 l2 : list dive) (w : Z) :
  (forall d, d ∈ l1 -> when d <= w) ->
  first_later_idx (l1 ++ l2) w = (length l1 + first_later_idx l2 w)%nat.
Proof.
  induction l1 as [|x l1 IH]; simpl; intros Hall; [reflexivity|].
  destruct (Z.leb_spec (when x) w) as [_|Hgt].
  - rewrite IH; [reflexivity|]. intros d Hd. apply Hall. by right.
  - specialize (Hall x ltac:(left)). lia.
Qed.

Lemma closest_idx_lt_length (tbl : list dive) (w : Z) :
  tbl <> [] -> (closest_idx tbl w < length tbl)%nat.
Proof.
  intros Hne. unfold closest_idx.
  pose proof (first_later_idx_le_length tbl w) as Hle.
  assert (0 < length tbl)%nat by (destruct tbl; simpl; [congruence|lia]).
  repeat match goal with
         | |- context [(?a <=? ?b)%nat] => destruct (Nat.leb_spec a b)
         | |- context [(?a =? ?b)%nat] => destruct (Nat.eqb_spec a b)
         | |- context [?a <? ?b] => destruct (Z.ltb_spec a b)
         end; lia.
Qed.

Lemma closest_idx_id (tbl : list dive) (w : Z) :
  tbl <> [] -> get_dive_id_closest_to tbl w = id (tbl !!! closest_idx tbl w).
Proof.
  intros Hne. unfold get_dive_id_closest_to, closest_idx.
  assert (0 < length tbl)%nat by (destruct tbl; simpl; [congruence|lia]).
  destruct (Nat.eqb_spec (length tbl) 0); [lia|].
  destruct (Nat.eqb_spec (length tbl) 1) as [H1|H1].
  - destruct (Nat.leb_spec (length tbl) 1); [reflexivity|lia].
  - destruct (Nat.leb_spec (length tbl) 1); [lia|].
    repeat match goal with
           | |- context [(?a =? ?b)%nat] => destruct (Nat.eqb_spec a b)
           | |- context [?a <? ?b] => destruct (Z.ltb_spec a b)
           end; reflexivity.
Qed.

Lemma closest_idx_mono (tbl : list dive) (w1 w2 : Z) :
  w1 <= w2 -> (closest_idx tbl w1 <= closest_idx tbl w2)%nat.
Proof.
  intros Hw. unfold closest_idx.
  pose proof (first_later_idx_mono tbl w1 w2 Hw) as Hmono.
  pose proof (first_later_idx_le_length tbl w1) as Hle1.
  pose proof (first_later_idx_le_length tbl w2) as Hle2.
  destruct (Nat.leb_spec (length tbl) 1); [lia|].
  destruct (decide (first_later_idx tbl w1 = first_later_idx tbl w2)) as [Heq|Hneq].
  - rewrite <- Heq.
    repeat match goal with
           | |- context [(?a =? ?b)%nat] => destruct (Nat.eqb_spec a b)
           | |- context [?a <? ?b] => destruct (Z.ltb_spec a b)
           end; lia.
  - repeat match goal with
           | |- context [(?a =? ?b)%nat] => destruct (Nat.eqb_spec a b)
           | |- context [?a <? ?b] => destruct (Z.ltb_spec a b)
           end; lia.
Qed.

(** C7 (amended).  As the timestamp grows, the dive chosen by
    [get_dive_id_closest_to] never moves towards the front of the table;
    the id returned is therefore non-decreasing in the timestamp whenever
    the ids increase along the table. *)
Theorem closest_dive_monotone (tbl : list dive) (w1 w2 : Z) :
  w1 <= w2 ->
  (closest_idx tbl w1 <= closest_idx tbl w2)%nat
  /\ (tbl <> [] ->
      get_dive_id_closest_to tbl w1 = id (tbl !!! closest_idx tbl w1)
      /\ get_dive_id_closest_to tbl w2 = id (tbl !!! closest_idx tbl w2))
  /\ (ids_increasing tbl ->
      get_dive_id_closest_to tbl w1 <= get_dive_id_closest_to tbl w2).
Proof.
  intros Hw. pose proof (closest_idx_mono tbl w1 w2 Hw) as Hidx.
  split; [assumption|]. split.
  - intros Hne. split; by apply closest_idx_id.
  - intros Hids. destruct tbl as [|d tbl]; [reflexivity|].
    rewrite !closest_idx_id by discriminate.
    pose proof (closest_idx_lt_length (d :: tbl) w1 ltac:(discriminate)) as H1.
    pose proof (closest_idx_lt_length (d :: tbl) w2 ltac:(discriminate)) as H2.
    eapply Hids; [| |exact Hidx]; by apply list_lookup_lookup_total_lt.
Qed.

(** C10.  [get_dive_id_closest_to] returns [0] on an empty table and the
    id of the only dive on a one-dive table, whatever the timestamp; at a
    timestamp equally far from two neighbouring dives of a chronological
    table it returns the id of the later one; and on a non-empty table
    the result is always the id of a dive of the table (so [0] marks the
    empty table when ids are positive). *)
Theorem closest_id_edge_cases :
  (forall w, get_dive_id_closest_to [] w = 0)
  /\ (forall d w, get_dive_id_closest_to [d] w = id d)
  /\ (forall l1 a b l2 w,
        chronological (l1 ++ a :: b :: l2) ->
        when a < when b -> w - when a = when b - w ->
        get_dive_id_closest_to (l1 ++ a :: b :: l2) w = id b)
  /\ (forall tbl w, tbl <> [] ->
        exists d, d ∈ tbl /\ get_dive_id_closest_to tbl w = id d).
Proof.
  split; [reflexivity|]. split; [reflexivity|]. split.
  - intros l1 a b l2 w Hchron Hab Htie.
    assert (Hidx : first_later_idx (l1 ++ a :: b :: l2) w = S (length l1)).
    { rewrite first_later_idx_app.
      - simpl. destruct (Z.leb_spec (when a) w); [|lia].
        destruct (Z.leb_spec (when b) w); lia.
      - intros d Hd. apply list_elem_of_lookup in Hd as [k Hk].
        assert (when d <= when a); [|lia].
        apply (Hchron k (length l1) d a).
        + by apply lookup_app_l_Some.
        + by rewrite list_lookup_middle.
        + apply lookup_lt_Some in Hk. lia. }
    unfold get_dive_id_closest_to. rewrite Hidx.
    rewrite length_app. simpl length.
    destruct (Nat.eqb_spec (length l1 + S (S (length l2))) 0); [lia|].
    destruct (Nat.eqb_spec (length l1 + S (S (length l2))) 1); [lia|].
    destruct (Nat.eqb_spec (S (length l1)) (length l1 + S (S (length l2)))); [lia|].
    simpl Nat.eqb. cbv iota.
    replace (S (length l1) - 1)%nat with (length l1) by lia.
    assert (Ha : (l1 ++ a :: b :: l2) !!! length l1 = a).
    { apply list_lookup_total_correct. by rewrite list_lookup_middle. }
    assert (Hb : (l1 ++ a :: b :: l2) !!! S (length l1) = b).
    { apply list_lookup_total_correct.
      change (l1 ++ a :: b :: l2) with (l1 ++ [a] ++ b :: l2).
      rewrite app_assoc. rewrite list_lookup_middle; [reflexivity|].
      rewrite length_app. simpl. lia. }
    rewrite Ha, Hb.
    destruct (Z.ltb_spec (w - when a) (when b - w)); [lia|reflexivity].
  - intros tbl w Hne. exists (tbl !!! closest_idx tbl w). split.
    + apply list_elem_of_lookup. exists (closest_idx tbl w).
      apply list_lookup_lookup_total_lt. by apply closest_idx_lt_length.
    + by apply closest_idx_id.
Qed.

End ClosestFacts.

(** ** Air use *)

Section AirUseFacts.

Variable is_cylinder_used : dive -> nat -> bool.
Variable gas_volume : cylinder_t -> Z -> Z.
Variable sac_rate : Q -> Z -> Z -> dive -> Z.

Let airuse_from := airuse_from is_cylinder_used gas_volume.

Lemma airuse_from_refused (d : dive) (cyls : list cylinder_t) (i : nat) (acc : Z) :
  (exists k cyl, cyls !! k = Some cyl /\ is_cylinder_used d (i + k) = true
                 /\ no_pressure_drop cyl = true) ->
  airuse_from d cyls i acc = 0%Q.
Proof.
  revert i acc. induction cyls as [|c cyls IH]; intros i acc (k & cyl & Hk & Hused & Hdrop).
  - rewrite lookup_nil in Hk. discriminate.
  - simpl. destruct k as [|k]; simpl in Hk.
    + injection Hk as ->. rewrite Hdrop.
      replace (i + 0)%nat with i in Hused by lia. by rewrite Hused.
    + assert (Hrest : forall acc', airuse_from d cyls (S i) acc' = 0%Q).
      { intros acc'. apply IH. exists k, cyl.
        replace (S i + k)%nat with (i + S k)%nat by lia. auto. }
      destruct (no_pressure_drop c); [|apply Hrest].
      destruct (is_cylinder_used d i); [reflexivity|apply Hrest].
Qed.

Lemma airuse_from_total (d : dive) (cyls : list cylinder_t) (i : nat) (acc : Z) :
  (forall k cyl, cyls !! k = Some cyl -> is_cylinder_used d (i + k) = true ->
                 no_pressure_drop cyl = false) ->
  airuse_from d cyls i acc
  = Qmake (acc + foldr (fun cyl a => if no_pressure_drop cyl then a
                                     else pressure_drop_volume gas_volume cyl + a) 0 cyls)
          1000.
Proof.
  revert i acc. induction cyls as [|c cyls IH]; intros i acc Hall.
  - simpl. by rewrite Z.add_0_r.
  - simpl.
    assert (Hrest : forall k cyl, cyls !! k = Some cyl ->
              is_cylinder_used d (S i + k) = true -> no_pressure_drop cyl = false).
    { intros k cyl Hk Hu. apply (Hall (S k) cyl Hk).
      by replace (i + S k)%nat with (S i + k)%nat by lia. }
    destruct (no_pressure_drop c) eqn:Hc.
    + destruct (is_cylinder_used d i) eqn:Hu.
      * specialize (Hall O c eq_refl). replace (i + 0)%nat with i in Hall by lia.
        rewrite Hall in Hc; [discriminate|assumption].
      * by apply IH.
    + fold (pressure_drop_volume gas_volume c). rewrite IH by assumption.
      f_equal. lia.
Qed.

(** C8 (amended).  If some cylinder is used and has no usable pressure
    drop, [calculate_airuse] returns 0 and so does [calculate_sac].
    Otherwise [calculate_airuse] is one thousandth (litres from
    millilitres) of the sum of [gas_volume(cyl, start) - gas_volume(cyl,
    end)] over the cylinders that have a pressure drop; unused cylinders
    without one are skipped. *)
Theorem calculate_airuse_spec (d : dive) :
  (used_without_drop is_cylinder_used d ->
     calculate_airuse is_cylinder_used gas_volume d = 0%Q
     /\ calculate_sac is_cylinder_used gas_volume sac_rate d = 0)
  /\ (~ used_without_drop is_cylinder_used d ->
      calculate_airuse is_cylinder_used gas_volume d
      = Qmake (sum_over_drops gas_volume d) 1000).
Proof.
  split.
  - intros (k & cyl & Hk & Hused & Hdrop).
    assert (Hzero : calculate_airuse is_cylinder_used gas_volume d = 0%Q).
    { apply airuse_from_refused. exists k, cyl. auto. }
    split; [assumption|]. unfold calculate_sac. by rewrite Hzero.
  - intros Hnone. unfold calculate_airuse, sum_over_drops.
    fold airuse_from. rewrite airuse_from_total; [reflexivity|].
    intros k cyl Hk Hused. destruct (no_pressure_drop cyl) eqn:Hdrop; [|reflexivity].
    exfalso. apply Hnone. exists k, cyl. auto.
Qed.

End AirUseFacts.

(** ** Trips *)

Section TripFacts.

Lemma trip_at_store_trip_eq (s : state) (t : trip_ptr) (tr : dive_trip) :
  trip_at (store_trip t tr s) t = tr.
Proof. unfold trip_at, store_trip. simpl. apply lookup_total_insert_eq. Qed.

Lemma trip_at_store_trip_ne (s : state) (t u : trip_ptr) (tr : dive_trip) :
  t <> u -> trip_at (store_trip t tr s) u = trip_at s u.
Proof. intros Hne. unfold trip_at, store_trip. simpl. by apply lookup_total_insert_ne. Qed.

Lemma trip_at_alloc_trip_eq (s : state) :
  trip_at (snd (alloc_trip s)) (next_trip s) = null_trip.
Proof. unfold trip_at, alloc_trip. simpl. apply lookup_total_insert_eq. Qed.

Lemma trip_at_alloc_trip_ne (s : state) (u : trip_ptr) :
  u <> next_trip s -> trip_at (snd (alloc_trip s)) u = trip_at s u.
Proof. intros Hne. unfold trip_at, alloc_trip. simpl. by apply lookup_total_insert_ne. Qed.

(** C5 (amended).  [combine_trips(a, b)] allocates a new trip.  Its
    location is that of [b] when [b] has a non-empty one and a copy of
    that of [a] otherwise, and likewise for the notes: when both trips
    have a value, the second one wins.  The new trip has no dives, and
    neither the dives nor any other trip (so neither [a] nor [b]) nor the
    tables change. *)
Theorem combine_trips_spec (s : state) (a b : trip_ptr) :
  (a < next_trip s)%nat -> (b < next_trip s)%nat ->
  let t := fst (combine_trips a b s) in
  let s' := snd (combine_trips a b s) in
  t = next_trip s
  /\ location (trip_at s' t)
     = (if empty_string (location (trip_at s b))
        then copy_string (location (trip_at s a)) else location (trip_at s b))
  /\ notes (trip_at s' t)
     = (if empty_string (notes (trip_at s b))
        then copy_string (notes (trip_at s a)) else notes (trip_at s b))
  /\ dives (trip_at s' t) = [] /\ autogen (trip_at s' t) = false
  /\ (forall u, u <> t -> trip_heap s' !! u = trip_heap s !! u)
  /\ dive_heap s' = dive_heap s
  /\ dive_table s' = dive_table s /\ trip_table s' = trip_table s.
Proof.
  intros Ha Hb. unfold combine_trips. simpl.
  assert (Hat : forall u, (u < next_trip s)%nat ->
            trip_at (snd (alloc_trip s)) u = trip_at s u).
  { intros u Hu. apply trip_at_alloc_trip_ne. lia. }
  rewrite !trip_at_store_trip_eq.
  rewrite !trip_at_store_trip_ne by lia.
  change (mk_state (dive_heap s) (<[next_trip s:=null_trip]> (trip_heap s)) (next_dive s)
            (S (next_trip s)) (dive_table s) (trip_table s) (amount_selected s)
            (current_dive s) (autogroup s)) with (snd (alloc_trip s)).
  rewrite !Hat by assumption. rewrite trip_at_alloc_trip_eq. simpl.
  split; [reflexivity|].
  split. { unfold copy_non_empty_string, copy_string.
           destruct (empty_string (location (trip_at s b))) eqn:E; [reflexivity|].
           by rewrite E. }
  split. { unfold copy_non_empty_string, copy_string.
           destruct (empty_string (notes (trip_at s b))) eqn:E; [reflexivity|].
           by rewrite E. }
  split; [reflexivity|]. split; [reflexivity|].
  split; [|auto].
  intros u Hu. by rewrite !lookup_insert_ne.
Qed.

Lemma get_idx_in_table_spec (table : list nat) (item : nat) :
  match get_idx_in_table table item with
  | Some i => exists l1 l2, table = l1 ++ item :: l2 /\ (item ∉ l1) /\ length l1 = i
  | None => item ∉ table
  end.
Proof.
  induction table as [|x table IH]; simpl.
  - apply not_elem_of_nil.
  - destruct (Nat.eqb_spec x item) as [->|Hne].
    + exists (@nil nat), table. repeat split. apply not_elem_of_nil.
    + destruct (get_idx_in_table table item) as [i|]; simpl.
      * destruct IH as (l1 & l2 & -> & Hnot & Hlen).
        exists (x :: l1), l2. repeat split; [|simpl; lia].
        rewrite not_elem_of_cons. split; [congruence|assumption].
      * rewrite not_elem_of_cons. split; [congruence|assumption].
Qed.

Lemma remove_from_table_middle {A : Type} (l1 l2 : list A) (x : A) :
  remove_from_table (l1 ++ x :: l2) (length l1) = l1 ++ l2.
Proof.
  unfold remove_from_table. rewrite length_app. simpl.
  destruct (Nat.ltb_spec (length l1) (length l1 + S (length l2))); [|lia].
  induction l1 as [|y l1 IH]; simpl; [reflexivity|].
  f_equal. apply IH. simpl in *. lia.
Qed.

Lemma first_occurrence_unique (x : nat) (l1 l2 k1 k2 : list nat) :
  l1 ++ x :: l2 = k1 ++ x :: k2 -> x ∉ l1 -> x ∉ k1 -> l1 = k1 /\ l2 = k2.
Proof.
  revert k1. induction l1 as [|y l1 IH]; intros k1 Heq Hl1 Hk1.
  - destruct k1 as [|z k1]; simpl in Heq.
    + injection Heq as ->. auto.
    + injection Heq as -> _. exfalso. apply Hk1. left.
  - destruct k1 as [|z k1]; simpl in Heq.
    + injection Heq as -> _. exfalso. apply Hl1. left.
    + injection Heq as -> Heq.
      rewrite not_elem_of_cons in Hk1, Hl1.
      destruct (IH k1 Heq (proj2 Hl1) (proj2 Hk1)) as [-> ->]. auto.
Qed.

(** C9.  When the trip has no dives, the assertion of [unregister_trip]
    holds and the call removes the (first) entry of the trip from the
    table, leaving a table without the trip in it unchanged; when the
    trip still has dives the assertion fails. *)
Theorem unregister_trip_spec (s : state) (trip : trip_ptr) (table : list trip_ptr) :
  (dives (trip_at s trip) = [] ->
     (trip ∉ table -> unregister_trip trip table s = Done table)
     /\ (forall l1 l2, table = l1 ++ trip :: l2 -> trip ∉ l1 ->
           unregister_trip trip table s = Done (l1 ++ l2)))
  /\ (dives (trip_at s trip) <> [] ->
      unregister_trip trip table s = Failed AssertionFailed).
Proof.
  unfold unregister_trip. split.
  - intros Hempty. rewrite Hempty. simpl.
    pose proof (get_idx_in_table_spec table trip) as Hidx.
    destruct (get_idx_in_table table trip) as [i|]; split.
    + intros Hnot. destruct Hidx as (l1 & l2 & -> & _ & _).
      exfalso. apply Hnot. rewrite elem_of_app. right. left.
    + intros k1 k2 Heq Hk1. destruct Hidx as (l1 & l2 & Hl & Hl1 & Hlen).
      rewrite Hl in Heq.
      destruct (first_occurrence_unique _ _ _ _ _ Heq Hl1 Hk1) as [-> ->].
      subst table i. by rewrite remove_from_table_middle.
    + reflexivity.
    + intros l1 l2 -> _. exfalso. apply Hidx. rewrite elem_of_app. right. left.
  - intros Hne. destruct (dives (trip_at s trip)); [congruence|reflexivity].
Qed.

(** [MAKE_ADD_TO]: length, entries and distinctness of the result. *)
Lemma length_add_to_table {A : Type} (table : list A) (idx : nat) (item : A) :
  length (add_to_table table idx item) = S (length table).
Proof.
  unfold add_to_table. rewrite length_app. simpl. rewrite length_take, length_drop. lia.
Qed.

Lemma elem_of_add_to_table {A : Type} (table : list A) (idx : nat) (item x : A) :
  x ∈ add_to_table table idx item <-> x = item \/ x ∈ table.
Proof.
  unfold add_to_table. rewrite elem_of_app, elem_of_cons.
  rewrite <- (take_drop idx table) at 3. rewrite elem_of_app. tauto.
Qed.

Lemma NoDup_add_to_table {A : Type} (table : list A) (idx : nat) (item : A) :
  NoDup table -> item ∉ table -> NoDup (add_to_table table idx item).
Proof.
  intros Hnodup Hnew. unfold add_to_table.
  rewrite <- (take_drop idx table) in Hnodup, Hnew.
  apply NoDup_app in Hnodup as (Htake & Hdisj & Hdrop).
  rewrite elem_of_app in Hnew.
  apply NoDup_app. split; [exact Htake|]. split.
  - intros x Hx. rewrite elem_of_cons. intros [->|Hin]; [tauto|]. by apply (Hdisj x).
  - apply NoDup_cons. split; [tauto|exact Hdrop].
Qed.

End TripFacts.

(** ** Selection *)

Section SelectionFacts.

Lemma dive_at_store_dive (s : state) (p q : dive_ptr) (d : dive) :
  dive_at (store_dive p d s) q = if decide (p = q) then d else dive_at s q.
Proof. unfold dive_at, store_dive. simpl. apply lookup_total_insert. Qed.

Lemma dive_at_store_dive_eq (s : state) (p : dive_ptr) (d : dive) :
  dive_at (store_dive p d s) p = d.
Proof. rewrite dive_at_store_dive. by rewrite decide_True. Qed.

Lemma dive_at_store_dive_ne (s : state) (p q : dive_ptr) (d : dive) :
  p <> q -> dive_at (store_dive p d s) q = dive_at s q.
Proof. intros Hne. rewrite dive_at_store_dive. by rewrite decide_False. Qed.

Lemma count_selected_bounds (s : state) (table : list dive_ptr) :
  0 <= count_selected s table <= Z.of_nat (length table).
Proof.
  induction table as [|p table IH]; simpl; [lia|].
  destruct (selected (dive_at s p)); lia.
Qed.

Lemma count_selected_ext (s s' : state) (table : list dive_ptr) :
  (forall q, q ∈ table -> selected (dive_at s' q) = selected (dive_at s q)) ->
  count_selected s' table = count_selected s table.
Proof.
  induction table as [|p table IH]; simpl; intros Hext; [reflexivity|].
  rewrite Hext by left. rewrite IH; [reflexivity|].
  intros q Hq. apply Hext. by right.
Qed.

Lemma count_selected_frame (s s' : state) (table : list dive_ptr) :
  dive_heap s' = dive_heap s -> count_selected s' table = count_selected s table.
Proof.
  intros Hheap. apply count_selected_ext. intros q _. unfold dive_at. by rewrite Hheap.
Qed.

Lemma count_selected_app (s : state) (l1 l2 : list dive_ptr) :
  count_selected s (l1 ++ l2) = count_selected s l1 + count_selected s l2.
Proof. induction l1 as [|p l1 IH]; simpl; [reflexivity|]. rewrite IH. lia. Qed.

(** Storing a dive of a duplicate-free table changes the count by the
    difference of the flags. *)
Lemma count_selected_store (s s' : state) (table : list dive_ptr) (p : dive_ptr) (d : dive) :
  NoDup table -> p ∈ table ->
  dive_heap s' = <[p := d]> (dive_heap s) ->
  count_selected s' table
  = count_selected s table + (if selected d then 1 else 0)
    - (if selected (dive_at s p) then 1 else 0).
Proof.
  intros Hnodup Hin Hheap.
  assert (Hp : dive_at s' p = d).
  { unfold dive_at. rewrite Hheap. apply lookup_total_insert_eq. }
  assert (Hother : forall q, q <> p -> dive_at s' q = dive_at s q).
  { intros q Hq. unfold dive_at. rewrite Hheap. by apply lookup_total_insert_ne. }
  apply list_elem_of_split in Hin as (l1 & l2 & ->).
  apply NoDup_app in Hnodup as (_ & Hl1 & Hnd2).
  apply NoDup_cons in Hnd2 as (Hl2 & _).
  rewrite !count_selected_app. simpl. rewrite Hp.
  rewrite (count_selected_ext s s' l1), (count_selected_ext s s' l2).
  - destruct (selected d), (selected (dive_at s p)); lia.
  - intros q Hq. rewrite Hother; [reflexivity|]. intros ->. contradiction.
  - intros q Hq. rewrite Hother; [reflexivity|]. intros ->. apply (Hl1 p Hq). left.
Qed.

Lemma selected_implies_positive (s : state) (p : dive_ptr) :
  p ∈ dive_table s -> selected (dive_at s p) = true ->
  0 < count_selected s (dive_table s).
Proof.
  intros Hin Hsel. apply list_elem_of_split in Hin as (l1 & l2 & ->).
  rewrite count_selected_app. simpl. rewrite Hsel.
  pose proof (count_selected_bounds s l1). pose proof (count_selected_bounds s l2). lia.
Qed.

Lemma wrap32_small (n : Z) : 0 <= n < 2 ^ 32 -> wrap32 n = n.
Proof. intros Hn. unfold wrap32. by apply Z.mod_small. Qed.

(** The state [deselect_dive] leaves behind, whichever dive becomes
    current. *)
Lemma deselect_dive_shape (s : state) (p : dive_ptr) :
  selected (dive_at s p) = true ->
  exists c,
    deselect_dive (Some p) s
    = with_current_dive c
        (if amount_selected s =? 0
         then store_dive p (set_selected false (dive_at s p)) s
         else with_amount_selected (amount_selected s - 1)
                (store_dive p (set_selected false (dive_at s p)) s)).
Proof.
  intros Hsel. unfold deselect_dive. rewrite Hsel. simpl.
  destruct (amount_selected s =? 0) eqn:Hzero; simpl.
  - match goal with |- context [if ?c then _ else _] => destruct c end.
    + repeat match goal with |- context [match ?x with _ => _ end] => destruct x end;
        eexists; reflexivity.
    + eexists. reflexivity.
  - match goal with |- context [if ?c then _ else _] => destruct c end.
    + repeat match goal with |- context [match ?x with _ => _ end] => destruct x end;
        eexists; reflexivity.
    + eexists. reflexivity.
Qed.

Lemma select_dive_consistent (s : state) (p : dive_ptr) :
  table_well_formed s -> selection_consistent s -> p ∈ dive_table s ->
  selection_consistent (select_dive (Some p) s).
Proof.
  intros [Hnodup Hfits] Hinv Hin. unfold select_dive, selection_consistent.
  destruct (selected (dive_at s p)) eqn:Hsel; simpl.
  { rewrite (count_selected_frame s) by reflexivity. exact Hinv. }
  erewrite (count_selected_store s); [|exact Hnodup|exact Hin|reflexivity].
  rewrite Hsel. simpl.
  pose proof (count_selected_bounds s (dive_table s)).
  rewrite Hinv. rewrite wrap32_small; lia.
Qed.

Lemma deselect_dive_consistent (s : state) (p : dive_ptr) :
  table_well_formed s -> selection_consistent s -> p ∈ dive_table s ->
  selection_consistent (deselect_dive (Some p) s).
Proof.
  intros [Hnodup Hfits] Hinv Hin.
  destruct (selected (dive_at s p)) eqn:Hsel.
  - destruct (deselect_dive_shape s p Hsel) as [c ->].
    pose proof (selected_implies_positive s p Hin Hsel) as Hpos.
    unfold selection_consistent in *.
    destruct (Z.eqb_spec (amount_selected s) 0) as [Hzero|_]; [lia|]. simpl.
    erewrite (count_selected_store s); [|exact Hnodup|exact Hin|reflexivity].
    rewrite Hsel. simpl. lia.
  - unfold deselect_dive. rewrite Hsel. exact Hinv.
Qed.

Lemma filter_dive_consistent (s : state) (p : dive_ptr) (shown : bool) :
  table_well_formed s -> selection_consistent s -> p ∈ dive_table s ->
  selection_consistent (filter_dive (Some p) shown s).
Proof.
  intros Hwf Hinv Hin. unfold filter_dive.
  set (s1 := store_dive p (set_hidden_by_filter (negb shown) (dive_at s p)) s).
  assert (Hinv1 : selection_consistent s1).
  { unfold selection_consistent in *. subst s1. simpl.
    destruct Hwf as [Hnodup _].
    erewrite (count_selected_store s); [|exact Hnodup|exact Hin|reflexivity].
    simpl. destruct (selected (dive_at s p)); lia. }
  destruct (negb shown && selected (dive_at s1 p)); [|exact Hinv1].
  apply deselect_dive_consistent; assumption.
Qed.

Lemma get_dive_Some (s : state) (idx : Z) (p : dive_ptr) :
  get_dive s idx = Some p -> 0 <= idx /\ dive_table s !! Z.to_nat idx = Some p.
Proof.
  unfold get_dive. destruct (Z.ltb_spec idx 0); [discriminate|]. auto.
Qed.

Lemma count_selected_delete (s : state) (table : list dive_ptr) (i : nat) (p : dive_ptr) :
  table !! i = Some p ->
  count_selected s table
  = count_selected s (delete i table) + (if selected (dive_at s p) then 1 else 0).
Proof.
  intros Hi. rewrite <- (take_drop_middle table i p Hi) at 1.
  rewrite delete_take_drop, !count_selected_app. simpl. lia.
Qed.

Lemma not_elem_of_delete (table : list dive_ptr) (i : nat) (p : dive_ptr) :
  NoDup table -> table !! i = Some p -> p ∉ delete i table.
Proof.
  intros Hnodup Hi. rewrite <- (take_drop_middle table i p Hi) in Hnodup.
  apply NoDup_app in Hnodup as (_ & Hl1 & Hnd2).
  apply NoDup_cons in Hnd2 as (Hl2 & _).
  rewrite delete_take_drop, elem_of_app. intros [H|H]; [|contradiction].
  apply (Hl1 p H). left.
Qed.

Lemma remove_from_table_lookup (table : list dive_ptr) (i : nat) (p : dive_ptr) :
  table !! i = Some p -> remove_from_table table i = delete i table.
Proof.
  intros Hi. unfold remove_from_table. apply lookup_lt_Some in Hi.
  by destruct (Nat.ltb_spec i (length table)); [|lia].
Qed.

Lemma unregister_dive_consistent (s : state) (idx : Z) :
  table_well_formed s -> selection_consistent s ->
  selection_consistent (snd (unregister_dive idx s)).
Proof.
  intros [Hnodup Hfits] Hinv. unfold unregister_dive.
  destruct (get_dive s idx) as [p|] eqn:Hget; [|exact Hinv].
  apply get_dive_Some in Hget as [Hidx Hi].
  rewrite (remove_from_table_lookup _ _ _ Hi).
  pose proof (count_selected_delete s _ _ _ Hi) as Hsplit.
  pose proof (not_elem_of_delete _ _ _ Hnodup Hi) as Hnotin.
  pose proof (count_selected_bounds s (delete (Z.to_nat idx) (dive_table s))) as Hb.
  assert (Hlen : (length (delete (Z.to_nat idx) (dive_table s)) <= length (dive_table s))%nat).
  { rewrite length_delete by eauto. lia. }
  unfold selection_consistent in *. simpl.
  change (dive_at (with_dive_table _ s) p) with (dive_at s p).
  destruct (selected (dive_at s p)) eqn:Hsel; simpl.
  - rewrite wrap32_small by lia.
    rewrite (count_selected_ext s); [lia|].
    intros q Hq. unfold dive_at. simpl.
    rewrite lookup_total_insert_ne; [reflexivity|]. intros ->. contradiction.
  - rewrite (count_selected_ext s); [lia|].
    intros q Hq. unfold dive_at. simpl.
    rewrite lookup_total_insert_ne; [reflexivity|]. intros ->. contradiction.
Qed.

Lemma add_single_dive_consistent (s : state) (idx : Z) (p : dive_ptr) :
  table_well_formed s -> selection_consistent s ->
  0 <= idx <= Z.of_nat (length (dive_table s)) ->
  exists s', add_single_dive idx p s = Done s' /\ selection_consistent s'.
Proof.
  intros [Hnodup Hfits] Hinv Hidx. unfold add_single_dive.
  destruct (Z.ltb_spec idx 0); [lia|].
  destruct (Z.ltb_spec (Z.of_nat (length (dive_table s))) idx); [lia|]. simpl.
  eexists. split; [reflexivity|].
  pose proof (count_selected_bounds s (dive_table s)) as Hb.
  assert (Hcount : count_selected s (add_to_table (dive_table s) (Z.to_nat idx) p)
                   = count_selected s (dive_table s)
                     + (if selected (dive_at s p) then 1 else 0)).
  { unfold add_to_table. rewrite count_selected_app. simpl.
    rewrite <- (take_drop (Z.to_nat idx) (dive_table s)) at 3.
    rewrite count_selected_app. lia. }
  unfold selection_consistent in *.
  change (dive_at (with_dive_table _ s) p) with (dive_at s p).
  destruct (selected (dive_at s p)); simpl.
  - rewrite (count_selected_frame s) by reflexivity. rewrite Hcount.
    rewrite wrap32_small; lia.
  - rewrite (count_selected_frame s) by reflexivity. rewrite Hcount. lia.
Qed.

(** [remove_dive_from_trip] never trips the assertion of
    [unregister_trip]: it deletes the trip only when its last dive is
    gone.  It leaves the dive table and the selection alone. *)
Lemma remove_dive_from_trip_done (s : state) (p : dive_ptr) (table : list trip_ptr) :
  exists table' s',
    remove_dive_from_trip p table s = Done (table', s')
    /\ dive_table s' = dive_table s /\ amount_selected s' = amount_selected s
    /\ (forall q, selected (dive_at s' q) = selected (dive_at s q)).
Proof.
  unfold remove_dive_from_trip, unregister_dive_from_trip.
  destruct (divetrip (dive_at s p)) as [t|] eqn:Htrip.
  - set (s1 := store_dive p _ _).
    assert (Hsel : forall q, selected (dive_at s1 q) = selected (dive_at s q)).
    { intros q. subst s1. rewrite dive_at_store_dive.
      destruct (decide (p = q)) as [->|]; reflexivity. }
    destruct (Nat.eqb_spec (length (dives (trip_at s1 t))) 0) as [Hzero|Hnz].
    + unfold delete_trip, unregister_trip. rewrite Hzero. simpl.
      destruct (get_idx_in_table table t); simpl; eexists _, _; eauto.
    + eexists _, _. eauto.
  - eexists _, _. eauto.
Qed.

Lemma delete_single_dive_consistent (s : state) (idx : Z) :
  table_well_formed s -> selection_consistent s ->
  exists s', delete_single_dive idx s = Done s' /\ selection_consistent s'.
Proof.
  intros Hwf Hinv. unfold delete_single_dive.
  destruct (get_dive s idx) as [p|] eqn:Hget; [|eauto].
  apply get_dive_Some in Hget as [Hidx Hi].
  assert (Hin : p ∈ dive_table s) by (apply list_elem_of_lookup; eauto).
  set (s1 := if selected (dive_at s p) then deselect_dive (Some p) s else s).
  assert (H1 : selection_consistent s1 /\ dive_table s1 = dive_table s
               /\ selected (dive_at s1 p) = false).
  { subst s1. destruct (selected (dive_at s p)) eqn:Hsel; [|auto].
    split; [by apply deselect_dive_consistent|].
    destruct (deselect_dive_shape s p Hsel) as [c ->].
    destruct (amount_selected s =? 0); simpl;
      (split; [reflexivity|]); unfold dive_at; simpl;
      by rewrite lookup_total_insert_eq. }
  destruct H1 as (Hinv1 & Htab1 & Hunsel).
  destruct (remove_dive_from_trip_done s1 p (trip_table s1))
    as (table' & s2 & -> & Htab2 & Hamt2 & Hsel2).
  simpl. eexists. split; [reflexivity|].
  destruct Hwf as [Hnodup Hfits].
  rewrite Htab2, Htab1. rewrite (remove_from_table_lookup _ _ _ Hi).
  unfold selection_consistent in *. simpl.
  rewrite Hamt2, Hinv1, Htab1.
  rewrite (count_selected_delete s1 _ _ _ Hi), Hunsel, Z.add_0_r.
  rewrite (list_lookup_total_correct _ _ _ Hi).
  symmetry. apply count_selected_ext.
  intros q Hq. unfold dive_at at 1. simpl.
  assert (p <> q).
  { intros ->. by apply (not_elem_of_delete _ _ _ Hnodup Hi). }
  rewrite lookup_total_delete_ne by assumption. apply Hsel2.
Qed.

Lemma dive_table_select_dive (s : state) (d : option dive_ptr) :
  dive_table (select_dive d s) = dive_table s.
Proof.
  destruct d as [p|]; [|reflexivity]. unfold select_dive.
  destruct (selected (dive_at s p)); reflexivity.
Qed.

Lemma dive_table_deselect_dive (s : state) (d : option dive_ptr) :
  dive_table (deselect_dive d s) = dive_table s.
Proof.
  destruct d as [p|]; [|reflexivity].
  destruct (selected (dive_at s p)) eqn:Hsel.
  - destruct (deselect_dive_shape s p Hsel) as [c ->].
    destruct (amount_selected s =? 0); reflexivity.
  - unfold deselect_dive. rewrite Hsel. reflexivity.
Qed.

Lemma dive_table_filter_dive (s : state) (d : option dive_ptr) (shown : bool) :
  dive_table (filter_dive d shown s) = dive_table s.
Proof.
  destruct d as [p|]; [|reflexivity]. unfold filter_dive.
  match goal with |- context [if ?c then _ else _] => destruct c end;
    [rewrite dive_table_deselect_dive|]; reflexivity.
Qed.

Lemma table_well_formed_same_table (s s' : state) :
  dive_table s' = dive_table s -> table_well_formed s -> table_well_formed s'.
Proof. unfold table_well_formed. by intros ->. Qed.

Lemma table_well_formed_delete (s s' : state) (i : nat) :
  dive_table s' = delete i (dive_table s) -> table_well_formed s -> table_well_formed s'.
Proof.
  unfold table_well_formed. intros -> [Hnodup Hfits]. split.
  - apply (sublist_NoDup _ _ Hnodup), sublist_delete.
  - pose proof (sublist_length _ _ (sublist_delete (dive_table s) i)). lia.
Qed.

Lemma unregister_dive_well_formed (s : state) (idx : Z) :
  table_well_formed s -> table_well_formed (snd (unregister_dive idx s)).
Proof.
  intros Hwf. unfold unregister_dive.
  destruct (get_dive s idx) as [p|] eqn:Hget; [|exact Hwf].
  apply get_dive_Some in Hget as [Hidx Hi].
  apply (table_well_formed_delete s _ (Z.to_nat idx)); [|exact Hwf].
  simpl. destruct (selected _); simpl; apply (remove_from_table_lookup _ _ _ Hi).
Qed.

Lemma add_single_dive_well_formed (s s' : state) (idx : Z) (p : dive_ptr) :
  table_well_formed s -> add_single_dive idx p s = Done s' ->
  (p ∉ dive_table s) -> Z.of_nat (length (dive_table s)) + 1 < 2 ^ 31 ->
  table_well_formed s'.
Proof.
  intros [Hnodup Hfits] Hadd Hnew Hroom. unfold add_single_dive in Hadd.
  destruct (_ || _); [discriminate|]. injection Hadd as <-.
  unfold table_well_formed.
  match goal with |- context [if ?c then _ else _] => destruct c end; simpl;
    (split; [by apply NoDup_add_to_table|rewrite length_add_to_table; lia]).
Qed.

Lemma delete_single_dive_well_formed (s s' : state) (idx : Z) :
  table_well_formed s -> delete_single_dive idx s = Done s' -> table_well_formed s'.
Proof.
  intros Hwf. unfold delete_single_dive.
  destruct (get_dive s idx) as [p|] eqn:Hget; [|by intros [= <-]].
  apply get_dive_Some in Hget as [Hidx Hi].
  set (s1 := if selected (dive_at s p) then deselect_dive (Some p) s else s).
  assert (Htab1 : dive_table s1 = dive_table s).
  { subst s1. destruct (selected (dive_at s p)); [|reflexivity].
    apply dive_table_deselect_dive. }
  destruct (remove_dive_from_trip_done s1 p (trip_table s1))
    as (table' & s2 & -> & Htab2 & _).
  simpl. intros [= <-].
  apply (table_well_formed_delete s _ (Z.to_nat idx)); [|exact Hwf].
  simpl. rewrite Htab2, Htab1. apply (remove_from_table_lookup _ _ _ Hi).
Qed.

(** C4 (amended).  The invariant [amount_selected = number of selected
    dives of the dive table] is kept on a state whose dive table holds
    every dive once, by [select_dive], [deselect_dive] and [filter_dive]
    on a dive of the table (or on the null pointer), by
    [unregister_dive] and [delete_single_dive] at any index, and by
    [add_single_dive] at an index of the table or its end; the last two
    return normally.  The table holds every dive once afterwards as
    well, for [add_single_dive] when the dive was not yet in the table
    and the table has room for it. *)
Theorem selection_count_preserved (s : state) :
  table_well_formed s -> selection_consistent s ->
  (forall dive, (forall p, dive = Some p -> p ∈ dive_table s) ->
     (selection_consistent (select_dive dive s)
      /\ table_well_formed (select_dive dive s))
     /\ (selection_consistent (deselect_dive dive s)
         /\ table_well_formed (deselect_dive dive s))
     /\ forall shown, selection_consistent (filter_dive dive shown s)
                      /\ table_well_formed (filter_dive dive shown s))
  /\ (forall idx, selection_consistent (snd (unregister_dive idx s))
                  /\ table_well_formed (snd (unregister_dive idx s)))
  /\ (forall idx dive, 0 <= idx <= Z.of_nat (length (dive_table s)) ->
        exists s', add_single_dive idx dive s = Done s' /\ selection_consistent s'
                   /\ ((dive ∉ dive_table s) ->
                       Z.of_nat (length (dive_table s)) + 1 < 2 ^ 31 ->
                       table_well_formed s'))
  /\ (forall idx, exists s', delete_single_dive idx s = Done s' /\ selection_consistent s'
                             /\ table_well_formed s').
Proof.
  intros Hwf Hinv. split; [|split; [|split]].
  - intros dive Hin.
    assert (Hcons : selection_consistent (select_dive dive s)
                    /\ selection_consistent (deselect_dive dive s)
                    /\ forall shown, selection_consistent (filter_dive dive shown s)).
    { destruct dive as [p|].
      - specialize (Hin p eq_refl). split; [|split].
        + by apply select_dive_consistent.
        + by apply deselect_dive_consistent.
        + intros shown. by apply filter_dive_consistent.
      - split; [|split]; [exact Hinv..|]. intros shown. exact Hinv. }
    destruct Hcons as (Hsel & Hdesel & Hfilter).
    split; [|split].
    + split; [exact Hsel|].
      apply (table_well_formed_same_table s); [apply dive_table_select_dive|exact Hwf].
    + split; [exact Hdesel|].
      apply (table_well_formed_same_table s); [apply dive_table_deselect_dive|exact Hwf].
    + intros shown. split; [apply Hfilter|].
      apply (table_well_formed_same_table s); [apply dive_table_filter_dive|exact Hwf].
  - intros idx. split; [by apply unregister_dive_consistent|].
    by apply unregister_dive_well_formed.
  - intros idx p Hidx.
    destruct (add_single_dive_consistent s idx p Hwf Hinv Hidx) as (s' & Hadd & Hcons).
    exists s'. split; [exact Hadd|]. split; [exact Hcons|].
    intros Hnew Hroom. by apply (add_single_dive_well_formed s s' idx p).
  - intros idx.
    destruct (delete_single_dive_consistent s idx Hwf Hinv) as (s' & Hdel & Hcons).
    exists s'. split; [exact Hdel|]. split; [exact Hcons|].
    by apply (delete_single_dive_well_formed s s' idx).
Qed.

End SelectionFacts.

(** ** Deselecting *)

Section DeselectFacts.

(** Deselecting a selected dive clears its flag and takes one off a
    positive [amount_selected]. *)
Lemma deselect_dive_flag (s : state) (p : dive_ptr) :
  selected (dive_at s p) = true ->
  selected (dive_at (deselect_dive (Some p) s) p) = false
  /\ amount_selected (deselect_dive (Some p) s)
     = (if amount_selected s =? 0 then 0 else amount_selected s - 1).
Proof.
  intros Hsel. destruct (deselect_dive_shape s p Hsel) as [c ->].
  destruct (Z.eqb_spec (amount_selected s) 0) as [Hz|Hnz];
    (split; [unfold dive_at; simpl; by rewrite lookup_total_insert_eq|]);
    simpl; congruence.
Qed.

(** Whatever dive is current, deselecting another, selected dive leaves
    no current dive. *)
Lemma deselect_other_dive_clears_current (s : state) (p : dive_ptr) :
  selected (dive_at s p) = true -> current_dive s <> Some p ->
  current_dive (deselect_dive (Some p) s) = None.
Proof.
  intros Hsel Hcur. unfold deselect_dive. rewrite Hsel. simpl.
  destruct (amount_selected s =? 0); simpl;
    rewrite (bool_decide_eq_false_2 _ Hcur); reflexivity.
Qed.

(** The selection scenario of the specification: dives 1, 2, 3 selected,
    dive 2 current; deselecting dive 2 leaves two selected dives and
    makes dive 1, the nearest one towards the front, current. *)
Example deselect_current_promotes_previous :
  let s' := deselect_dive (Some 1%nat) (three_selected (Some 1%nat)) in
  selected (dive_at s' 1%nat) = false /\ amount_selected s' = 2
  /\ current_dive s' = Some 0%nat /\ id (dive_at s' 0%nat) = 1.
Proof. vm_compute. auto. Qed.

(** C3 (failing input).  Dives 1, 2, 3 are selected and dive 1 is
    current.  Deselecting dive 3 clears its flag and leaves
    [amount_selected = 2], but [current_dive] becomes null although dive
    1 is still selected. *)
Theorem deselect_other_dive_loses_current :
  let s := three_selected (Some 0%nat) in
  let s' := deselect_dive (Some 2%nat) s in
  current_dive s = Some 0%nat
  /\ selected (dive_at s' 2%nat) = false /\ amount_selected s' = 2
  /\ selected (dive_at s' 0%nat) = true
  /\ current_dive s' = None.
Proof. vm_compute. auto. Qed.

End DeselectFacts.

(** ** Renumbering of imported dives *)

Section RenumberFacts.

Lemma renumber_from_untouched (added : list dive_ptr) (nr : Z) (s : state) (q : dive_ptr) :
  q ∉ added -> dive_at (renumber_from added nr s) q = dive_at s q.
Proof.
  revert nr s. induction added as [|d added IH]; intros nr s Hq; [reflexivity|].
  simpl. rewrite not_elem_of_cons in Hq. destruct Hq as [Hne Hq].
  rewrite IH by assumption. unfold dive_at, store_dive. simpl.
  by rewrite lookup_total_insert_ne.
Qed.

(** The renumbering loop gives the dives of a duplicate-free list the
    numbers [nr + 1], [nr + 2], ... in list order. *)
Lemma renumber_from_numbers (added : list dive_ptr) (nr : Z) (s : state) (i : nat) (d : dive_ptr) :
  NoDup added -> added !! i = Some d ->
  number (dive_at (renumber_from added nr s) d) = nr + 1 + Z.of_nat i.
Proof.
  revert nr s i. induction added as [|x added IH]; intros nr s i Hnodup Hi.
  - rewrite lookup_nil in Hi. discriminate.
  - apply NoDup_cons in Hnodup as [Hx Hnodup]. simpl. destruct i as [|i]; simpl in Hi.
    + injection Hi as ->. rewrite renumber_from_untouched by assumption.
      unfold dive_at, store_dive. simpl. rewrite lookup_total_insert_eq. simpl. lia.
    + rewrite (IH _ _ i Hnodup Hi). lia.
Qed.

(** What the closing step of [process_imported_dives] does when its
    test passes: the entries of [dives_to_add] from
    [start_renumbering_at] on, if no dive occurs twice among them, get
    the numbers that follow the number of the last dive of the log. *)
Lemma renumber_added_dives_numbers (new_dive_has_number : bool) (preexisting : nat)
    (pl : planner) (last_dive : dive_ptr) (i : nat) (d : dive_ptr) :
  last (dive_table (st pl)) = Some last_dive ->
  sequence_changed pl = false -> new_dive_has_number = false ->
  Z.of_nat preexisting <= number (dive_at (st pl) last_dive) ->
  NoDup (drop (start_renumbering_at pl) (dives_to_add pl)) ->
  dives_to_add pl !! (start_renumbering_at pl + i)%nat = Some d ->
  number (dive_at (st (renumber_added_dives new_dive_has_number preexisting pl)) d)
  = number (dive_at (st pl) last_dive) + 1 + Z.of_nat i.
Proof.
  intros Hlast Hseq Hnum Hnr Hnodup Hd. unfold renumber_added_dives.
  rewrite Hlast, Hseq, Hnum. simpl.
  destruct (Z.geb_spec (number (dive_at (st pl) last_dive)) (Z.of_nat preexisting)); [|lia].
  simpl. apply renumber_from_numbers; [assumption|]. by rewrite lookup_drop.
Qed.

(** [get_dive_nr_at_idx], asked for the number of a dive appended to the
    partly numbered log, tests that the last number is not zero and
    answers 3. *)
Example next_number_of_partly_numbered_log :
  get_dive_nr_at_idx 3 partly_numbered_log = 3.
Proof. vm_compute. reflexivity. Qed.

(** The renumbering scenario of the specification: the log ends with
    dive number 42 and three numberless dives are imported after it. *)
Example import_after_42 :
  exists pl,
    process_imported_dives three_days end_by_duration never_merge 8
      [1; 2; 3]%nat None no_flags [] [] [] log_ending_at_42 = Done pl
    /\ dives_to_add pl = [1; 2; 3]%nat
    /\ number (dive_at (st pl) 1%nat) = 43
    /\ number (dive_at (st pl) 2%nat) = 44
    /\ number (dive_at (st pl) 3%nat) = 45.
Proof. eexists. split; [vm_compute; reflexivity|]. vm_compute. auto. Qed.

(** C1 (failing input).  The log holds three dives and its last dive has
    number 2; one numberless dive that starts after it is imported.  No
    added dive precedes the prior last dive ([sequence_changed] is
    false) and nothing was merged, yet the added dive keeps number 0: the
    code renumbers only when the last number is at least the number of
    dives in the log. *)
Theorem import_after_partly_numbered_log :
  exists pl,
    process_imported_dives three_days end_by_duration never_merge 8
      [3%nat] None no_flags [] [] [] partly_numbered_log = Done pl
    /\ number (dive_at partly_numbered_log 2%nat) = 2
    /\ number (dive_at partly_numbered_log 3%nat) = 0
    /\ sequence_changed pl = false /\ start_renumbering_at pl = 0%nat
    /\ dives_to_add pl = [3%nat]
    /\ number (dive_at (st pl) 3%nat) = 0.
Proof. eexists. split; [vm_compute; reflexivity|]. vm_compute. auto 10. Qed.

End RenumberFacts.

(** ** Ordering and termination *)

Section OrderFacts.

Lemma comp_dives_when (s : state) (a b : dive_ptr) :
  comp_dives s a b <= 0 -> when (dive_at s a) <= when (dive_at s b).
Proof.
  unfold comp_dives.
  destruct (Z.ltb_spec (when (dive_at s a)) (when (dive_at s b))); [lia|].
  destruct (Z.gtb_spec (when (dive_at s a)) (when (dive_at s b))); lia.
Qed.

(** A dive table sorted by [comp_dives] is chronological. *)
Lemma sorted_table_chronological (s : state) :
  dive_table_sorted s -> chronological (loaded_dives s).
Proof.
  intros Hsorted i j di dj Hi Hj Hij. unfold loaded_dives in Hi, Hj.
  rewrite list_lookup_fmap in Hi, Hj.
  destruct (dive_table s !! i) as [a|] eqn:Ha; [|discriminate].
  destruct (dive_table s !! j) as [b|] eqn:Hb; [|discriminate].
  simpl in Hi, Hj. injection Hi as <-. injection Hj as <-.
  apply comp_dives_when. by apply (Hsorted i j).
Qed.

End OrderFacts.

Section AutogroupTermination.

Variable TRIP_THRESHOLD : Z.

Lemma autogroup_extend_range (rest : list dive_ptr) (trip : trip_ptr) (lastdive : dive_ptr)
    (to : nat) (s : state) :
  (to <= fst (autogroup_extend TRIP_THRESHOLD rest trip lastdive to s) <= to + length rest)%nat.
Proof.
  revert lastdive to s. induction rest as [|d rest IH]; intros lastdive to s; simpl; [lia|].
  match goal with |- context [if ?c then _ else _] => destruct c end; simpl; [lia|].
  match goal with |- context [autogroup_extend _ rest trip d (S to) ?s'] =>
    specialize (IH d (S to) s') end.
  lia.
Qed.

Lemma autogroup_scan_range (rest : list dive_ptr) (i : nat) (lastdive : option dive_ptr)
    (s s' : state) (trip : trip_ptr) (from to : nat) (alloc : bool) :
  autogroup_scan TRIP_THRESHOLD rest i lastdive s = (Some (trip, from, to, alloc), s') ->
  (i <= from < to)%nat /\ (to <= i + length rest)%nat.
Proof.
  revert i lastdive s. induction rest as [|d rest IH]; intros i lastdive s; simpl.
  - discriminate.
  - destruct (divetrip (dive_at s d)).
    + intros H. apply IH in H. lia.
    + destruct (notrip (dive_at s d)).
      * intros H. apply IH in H. lia.
      * match goal with |- context [match ?r with Some _ => _ | None => _ end] =>
          destruct r as [[t|]|] end.
        -- match goal with |- context [autogroup_extend _ rest ?t ?l ?n ?s0] =>
             pose proof (autogroup_extend_range rest t l n s0) as Hrange;
             destruct (autogroup_extend TRIP_THRESHOLD rest t l n s0) as [to' s0'] end.
           simpl in Hrange. intros [= <- <- <- <- <-]. lia.
        -- discriminate.
        -- unfold create_trip_from_dive, alloc_trip.
           match goal with |- context [autogroup_extend _ rest ?t ?l ?n ?s0] =>
             pose proof (autogroup_extend_range rest t l n s0) as Hrange;
             destruct (autogroup_extend TRIP_THRESHOLD rest t l n s0) as [to' s0'] end.
           simpl in Hrange. intros [= <- <- <- <- <-]. lia.
Qed.

(** The loop of [autogroup_dives] ends within its fuel. *)
Lemma autogroup_loop_returns (fuel : nat) (table : list dive_ptr) (i : nat)
    (trips : list trip_ptr) (s : state) :
  (length table - i < fuel)%nat ->
  exists r, autogroup_loop TRIP_THRESHOLD fuel table i trips s = Done r.
Proof.
  revert i trips s. induction fuel as [|fuel IH]; intros i trips s Hfuel; [lia|].
  simpl. unfold get_dives_to_autogroup.
  destruct (autogroup_scan TRIP_THRESHOLD (drop i table) i None s)
    as [[[[[trip from] to] alloc]|] s'] eqn:Hscan.
  - apply autogroup_scan_range in Hscan. rewrite length_drop in Hscan.
    apply IH. lia.
  - eauto.
Qed.

(** [autogroup_dives] and [process_loaded_dives] always return. *)
Lemma autogroup_dives_returns (table : list dive_ptr) (trips : list trip_ptr) (s : state) :
  exists r, autogroup_dives TRIP_THRESHOLD table trips s = Done r.
Proof.
  unfold autogroup_dives. destruct (autogroup s); [|simpl; eauto].
  destruct (autogroup_loop_returns (S (length table)) table O trips s) as [r Hr]; [lia|].
  change (negb true) with false. cbv iota. rewrite Hr. simpl. eauto.
Qed.

Lemma process_loaded_dives_returns (s : state) :
  exists s', process_loaded_dives TRIP_THRESHOLD s = Done s'.
Proof.
  unfold process_loaded_dives.
  match goal with |- context [autogroup_dives _ ?t ?tr ?s0] =>
    destruct (autogroup_dives_returns t tr s0) as [r ->] end.
  simpl. eauto.
Qed.

End AutogroupTermination.

(** ** Autogrouping *)

Lemma if_same {X : Type} (b : bool) (x : X) : (if b then x else x) = x.
Proof. by destruct b. Qed.

(** Reading through the stores of a heap built by [<[_ := _]>]. *)
Ltac heap_reads :=
  unfold trip_at, dive_at; simpl;
  repeat first
    [ rewrite lookup_total_insert_eq
    | rewrite lookup_total_insert_ne by (clear; lia)
    | rewrite lookup_total_empty ];
  simpl.

(** Settling the integer comparisons that the hypotheses decide. *)
Ltac decide_comparisons :=
  rewrite ?Z.gtb_ltb, ?Z.geb_leb;
  repeat match goal with
         | |- context [Z.ltb ?a ?b] =>
             first [ rewrite (proj2 (Z.ltb_lt a b)) by lia
                   | rewrite (proj2 (Z.ltb_ge a b)) by lia ]
         | |- context [Z.leb ?a ?b] =>
             first [ rewrite (proj2 (Z.leb_le a b)) by lia
                   | rewrite (proj2 (Z.leb_gt a b)) by lia ]
         end;
  rewrite ?if_same; simpl.

(** Settling the equality tests on trip pointers. *)
Ltac decide_equalities :=
  repeat match goal with
         | |- context [bool_decide ?P] =>
             first [ rewrite (bool_decide_eq_true_2 P) by congruence
                   | rewrite (bool_decide_eq_false_2 P) by congruence ]
         end;
  simpl.

Section AutogroupFacts.

Variable TRIP_THRESHOLD : Z.
Variables A B : dive.
Hypothesis threshold_positive : 0 < TRIP_THRESHOLD.
Hypothesis A_when : when A = 1000.
Hypothesis A_trip : divetrip A = None.
Hypothesis B_trip : divetrip B = None.
Hypothesis A_notrip : notrip A = false.
Hypothesis B_notrip : notrip B = false.

Ltac known := rewrite ?A_when, ?A_trip, ?B_trip, ?A_notrip, ?B_notrip; simpl.

Lemma autogroup_two_distant_dives :
  when B = 1000 + TRIP_THRESHOLD ->
  exists s' t0 t1,
    process_loaded_dives TRIP_THRESHOLD (two_dive_log A B) = Done s'
    /\ trip_table s' = [t0; t1] /\ t0 <> t1
    /\ divetrip (dive_at s' 0%nat) = Some t0 /\ divetrip (dive_at s' 1%nat) = Some t1
    /\ dives (trip_at s' t0) = [0%nat] /\ dives (trip_at s' t1) = [1%nat]
    /\ autogen (trip_at s' t0) = true /\ autogen (trip_at s' t1) = true.
Proof.
  intros B_when.
  eexists _, 0%nat, 1%nat. split.
  { unfold process_loaded_dives, two_dive_log. simpl.
    (* sorting the two dives *)
    unfold sort_dive_table, sort_table. simpl. unfold comp_dives.
    heap_reads. known. rewrite B_when. decide_comparisons.
    (* first group: dive 0 alone *)
    unfold autogroup_dives. simpl. unfold get_dives_to_autogroup. simpl.
    heap_reads. known. heap_reads. known. rewrite B_when. decide_comparisons.
    unfold add_range_to_trip. simpl. unfold add_dive_to_trip.
    heap_reads. known.
    (* second group: dive 1 alone *)
    heap_reads. known. unfold add_dive_to_trip. heap_reads. known.
    unfold insert_trip. simpl. unfold trip_less_than, comp_trips.
    heap_reads. unfold comp_dives. heap_reads. known. rewrite B_when. decide_comparisons.
    (* final sort of the trip table *)
    unfold sort_trip_table, sort_table. simpl. unfold comp_trips.
    heap_reads. unfold comp_dives. heap_reads. known. rewrite B_when. decide_comparisons.
    reflexivity. }
  heap_reads. repeat split; auto.
Qed.

(** The dives in table order [0; 1]: [A] sorts before [B]. *)
Lemma autogroup_two_close_dives_in_order :
  when B = 1000 + TRIP_THRESHOLD - 1 ->
  1 < TRIP_THRESHOLD \/ id A < id B ->
  exists s' t,
    process_loaded_dives TRIP_THRESHOLD (two_dive_log A B) = Done s'
    /\ trip_table s' = [t]
    /\ divetrip (dive_at s' 0%nat) = Some t /\ divetrip (dive_at s' 1%nat) = Some t
    /\ dives (trip_at s' t) = [0%nat; 1%nat]
    /\ autogen (trip_at s' t) = true.
Proof.
  intros B_when [Hlong|Hlt];
  destruct (dive_location B) as [locB|] eqn:B_loc;
    destruct (copy_string (dive_location A)) as [locA|] eqn:A_loc;
    (eexists _, 0%nat; split;
     [ unfold process_loaded_dives, two_dive_log; simpl;
       unfold sort_dive_table, sort_table; simpl; unfold comp_dives;
       heap_reads; known; rewrite ?B_when; decide_equalities; decide_comparisons;
       (* one group: dives 0 and 1 *)
       unfold autogroup_dives; simpl; unfold get_dives_to_autogroup; simpl;
       heap_reads; known; heap_reads; known; rewrite ?B_when; decide_comparisons;
       rewrite ?B_loc, ?A_loc; simpl; heap_reads; rewrite ?A_loc; simpl;
       unfold add_range_to_trip; simpl; unfold add_dive_to_trip;
       heap_reads; known; heap_reads; known;
       unfold dive_less_than, comp_dives; heap_reads; known; rewrite ?B_when;
       decide_equalities; decide_comparisons;
       heap_reads;
       unfold sort_trip_table, sort_table; simpl;
       reflexivity
     | heap_reads; repeat split; auto ]).
Qed.

(** The dives in table order [1; 0]: same start time, and [B] does not
    have the larger id. *)
Lemma autogroup_two_close_dives_swapped :
  when B = 1000 + TRIP_THRESHOLD - 1 ->
  TRIP_THRESHOLD = 1 -> id B <= id A ->
  exists s' t,
    process_loaded_dives TRIP_THRESHOLD (two_dive_log A B) = Done s'
    /\ trip_table s' = [t]
    /\ divetrip (dive_at s' 0%nat) = Some t /\ divetrip (dive_at s' 1%nat) = Some t
    /\ dives (trip_at s' t) = [1%nat; 0%nat]
    /\ autogen (trip_at s' t) = true.
Proof.
  intros B_when Hone Hids.
  destruct (Z_lt_le_dec (id B) (id A)) as [Hgt|Heq];
  destruct (dive_location A) as [locA|] eqn:A_loc;
    destruct (copy_string (dive_location B)) as [locB|] eqn:B_loc;
    (eexists _, 0%nat; split;
     [ unfold process_loaded_dives, two_dive_log; simpl;
       unfold sort_dive_table, sort_table; simpl; unfold comp_dives;
       heap_reads; known; rewrite ?B_when; decide_equalities; decide_comparisons;
       (* one group: dives 1 and 0 *)
       unfold autogroup_dives; simpl; unfold get_dives_to_autogroup; simpl;
       heap_reads; known; heap_reads; known; rewrite ?B_when; decide_comparisons;
       rewrite ?B_loc, ?A_loc; simpl; heap_reads; rewrite ?B_loc; simpl;
       unfold add_range_to_trip; simpl; unfold add_dive_to_trip;
       heap_reads; known; heap_reads; known;
       unfold dive_less_than, comp_dives; heap_reads; known; rewrite ?B_when;
       decide_equalities; decide_comparisons;
       heap_reads;
       unfold sort_trip_table, sort_table; simpl;
       reflexivity
     | heap_reads; repeat split; auto ]).
Qed.

Lemma autogroup_two_close_dives :
  when B = 1000 + TRIP_THRESHOLD - 1 ->
  exists s' t,
    process_loaded_dives TRIP_THRESHOLD (two_dive_log A B) = Done s'
    /\ trip_table s' = [t]
    /\ divetrip (dive_at s' 0%nat) = Some t /\ divetrip (dive_at s' 1%nat) = Some t
    /\ (dives (trip_at s' t) = [0%nat; 1%nat] \/ dives (trip_at s' t) = [1%nat; 0%nat])
    /\ autogen (trip_at s' t) = true.
Proof.
  intros B_when.
  destruct (Z_lt_le_dec 1 TRIP_THRESHOLD) as [Hlong|Hshort];
    [|destruct (Z_lt_le_dec (id A) (id B)) as [Hlt|Hge]].
  - destruct (autogroup_two_close_dives_in_order B_when (or_introl Hlong))
      as (s' & t & H1 & H2 & H3 & H4 & H5 & H6).
    exists s', t. auto 10.
  - destruct (autogroup_two_close_dives_in_order B_when (or_intror Hlt))
      as (s' & t & H1 & H2 & H3 & H4 & H5 & H6).
    exists s', t. auto 10.
  - destruct (autogroup_two_close_dives_swapped B_when ltac:(lia) Hge)
      as (s' & t & H1 & H2 & H3 & H4 & H5 & H6).
    exists s', t. auto 10.
Qed.

(** C2 (amended).  With autogrouping on and a log of exactly two
    trip-less dives [A] (start 1000) and [B] that the user has not taken
    out of a trip: if [B] starts at [1000 + TRIP_THRESHOLD],
    [process_loaded_dives] puts each dive into an autogenerated trip of
    its own and the trip table has size 2; if [B] starts at
    [1000 + TRIP_THRESHOLD - 1], both dives end up in one autogenerated
    trip (in the order of the sorted dive table) and the trip table has
    size 1. *)
Theorem autogroup_pair_threshold :
  (when B = 1000 + TRIP_THRESHOLD ->
     exists s' t0 t1,
       process_loaded_dives TRIP_THRESHOLD (two_dive_log A B) = Done s'
       /\ trip_table s' = [t0; t1] /\ t0 <> t1
       /\ divetrip (dive_at s' 0%nat) = Some t0 /\ divetrip (dive_at s' 1%nat) = Some t1
       /\ dives (trip_at s' t0) = [0%nat] /\ dives (trip_at s' t1) = [1%nat]
       /\ autogen (trip_at s' t0) = true /\ autogen (trip_at s' t1) = true)
  /\ (when B = 1000 + TRIP_THRESHOLD - 1 ->
      exists s' t,
        process_loaded_dives TRIP_THRESHOLD (two_dive_log A B) = Done s'
        /\ trip_table s' = [t]
        /\ divetrip (dive_at s' 0%nat) = Some t /\ divetrip (dive_at s' 1%nat) = Some t
        /\ (dives (trip_at s' t) = [0%nat; 1%nat]
            \/ dives (trip_at s' t) = [1%nat; 0%nat])
        /\ autogen (trip_at s' t) = true).
Proof.
  split; [apply autogroup_two_distant_dives | apply autogroup_two_close_dives].
Qed.

End AutogroupFacts.

(** ** Closed instances *)

Lemma chronological_pair (a b : dive) : when a <= when b -> chronological [a; b].
Proof.
  intros Hab i j di dj Hi Hj Hij.
  destruct i as [|[|i]], j as [|[|j]]; simpl in Hi, Hj; try discriminate;
    try (injection Hi as <-); try (injection Hj as <-); lia.
Qed.

(** C2 (counterexample).  With a threshold of three days, two trip-less
    dives that start exactly one threshold apart do not stay trip-less
    with an empty trip table. *)
Lemma autogroup_boundary_counterexample :
  ~ (exists s',
       process_loaded_dives three_days
         (two_dive_log (plain_dive 1 1000) (plain_dive 2 (1000 + three_days))) = Done s'
       /\ divetrip (dive_at s' 0%nat) = None /\ divetrip (dive_at s' 1%nat) = None
       /\ length (trip_table s') = 0%nat).
Proof.
  intros (s' & Hrun & _ & _ & Hlen).
  destruct (autogroup_two_distant_dives three_days (plain_dive 1 1000)
              (plain_dive 2 (1000 + three_days)))
    as (s'' & t0 & t1 & Hrun' & Htab & _); try reflexivity.
  rewrite Hrun in Hrun'. injection Hrun' as ->. rewrite Htab in Hlen. discriminate.
Qed.

(** C4 (counterexample).  The log holds three unselected dives and its
    counter is 0; a fourth dive sits outside the dive table.
    [select_dive] on that dive sets its flag and counts it, so the
    counter is 1 while no dive of the table is selected: without the
    condition that the dive is in the table the invariant is not kept. *)
Lemma selection_count_counterexample :
  table_well_formed partly_numbered_log
  /\ selection_consistent partly_numbered_log
  /\ (3%nat ∉ dive_table partly_numbered_log)
  /\ amount_selected (select_dive (Some 3%nat) partly_numbered_log) = 1
  /\ count_selected (select_dive (Some 3%nat) partly_numbered_log)
       (dive_table (select_dive (Some 3%nat) partly_numbered_log)) = 0
  /\ ~ selection_consistent (select_dive (Some 3%nat) partly_numbered_log).
Proof.
  split; [split; [apply (bool_decide_unpack _)|]; vm_compute; [exact I|reflexivity]|].
  split; [vm_compute; reflexivity|].
  split; [apply (bool_decide_unpack _); vm_compute; exact I|].
  split; [vm_compute; reflexivity|].
  split; [vm_compute; reflexivity|].
  unfold selection_consistent. vm_compute. discriminate.
Qed.

(** C5 (counterexample).  Both trips have a location; the combined trip
    gets that of the second, not the first non-empty one. *)
Lemma combine_trips_counterexample :
  location (trip_at (snd (combine_trips 0%nat 1%nat two_named_trips))
                    (fst (combine_trips 0%nat 1%nat two_named_trips)))
  = Some "Bonaire"%string
  /\ first_non_empty (location (trip_at two_named_trips 0%nat))
                     (location (trip_at two_named_trips 1%nat))
     = Some "Red Sea"%string
  /\ location (trip_at (snd (combine_trips 0%nat 1%nat two_named_trips))
                       (fst (combine_trips 0%nat 1%nat two_named_trips)))
     <> first_non_empty (location (trip_at two_named_trips 0%nat))
                        (location (trip_at two_named_trips 1%nat)).
Proof. vm_compute. repeat split; discriminate. Qed.

(** C7 (counterexample).  On a chronological table whose earlier dive has
    the larger id, the id returned drops from 2 to 1 as the timestamp grows
    from 0 to 100. *)
Lemma closest_id_not_monotone :
  chronological late_import_table
  /\ ~ (forall w1 w2, w1 <= w2 ->
          get_dive_id_closest_to late_import_table w1
          <= get_dive_id_closest_to late_import_table w2).
Proof.
  split.
  - apply chronological_pair. vm_compute. discriminate.
  - intros Hmono. specialize (Hmono 0 100 ltac:(lia)). vm_compute in Hmono.
    apply Hmono. reflexivity.
Qed.

(** C8 (counterexample).  No used cylinder lacks a pressure drop, yet the
    air use (1500 litres) is neither the sum over all cylinders of
    [gas_volume(start) - gas_volume(end)] (3500000) nor a thousandth of
    it: the unused cylinder without an end pressure is skipped. *)
Lemma airuse_sum_counterexample :
  ~ used_without_drop first_cylinder_only dive_with_spare_cylinder
  /\ calculate_airuse first_cylinder_only ideal_gas_volume dive_with_spare_cylinder
     = Qmake 1500000 1000
  /\ sum_over_cylinders ideal_gas_volume dive_with_spare_cylinder = 3500000
  /\ ~ Qeq (calculate_airuse first_cylinder_only ideal_gas_volume dive_with_spare_cylinder)
           (inject_Z (sum_over_cylinders ideal_gas_volume dive_with_spare_cylinder))
  /\ ~ Qeq (calculate_airuse first_cylinder_only ideal_gas_volume dive_with_spare_cylinder)
           (Qmake (sum_over_cylinders ideal_gas_volume dive_with_spare_cylinder) 1000).
Proof.
  split.
  - intros (i & cyl & Hi & Hused & Hdrop).
    destruct i as [|i]; [|discriminate].
    injection Hi as <-. vm_compute in Hdrop. discriminate.
  - repeat split; try reflexivity; vm_compute; discriminate.
Qed.

(** Witnesses: the theorems applied at concrete inputs. *)

Lemma get_surface_interval_witness :
  chronological two_timed_dives
  /\ exists i prev,
       two_timed_dives !! i = Some prev /\ when prev < 9000
       /\ get_surface_interval end_by_duration two_timed_dives 9000
          = 9000 - end_by_duration prev.
Proof.
  assert (Hchron : chronological two_timed_dives)
    by (apply chronological_pair; vm_compute; discriminate).
  split; [exact Hchron|].
  destruct (proj2 (get_surface_interval_spec end_by_duration two_timed_dives 9000 Hchron))
    as (i & prev & Hi & Hw & _ & _ & _ & Hgap).
  - exists (mk_dive 1 1000 0 600 None false false false None [] 0 0).
    split; [apply list_elem_of_here|vm_compute; reflexivity].
  - exists i, prev. repeat split; [assumption..|]. apply Hgap.
    destruct i as [|[|i]]; simpl in Hi; [| |discriminate];
      injection Hi as <-; vm_compute; discriminate.
Defined.

Lemma closest_dive_monotone_witness :
  0 <= 100
  /\ (closest_idx late_import_table 0 <= closest_idx late_import_table 100)%nat.
Proof.
  split; [lia|]. apply (closest_dive_monotone late_import_table 0 100). lia.
Defined.

Lemma closest_id_edge_cases_witness :
  get_dive_id_closest_to [plain_dive 7 0; plain_dive 8 100] 50 = 8.
Proof.
  apply (proj1 (proj2 (proj2 closest_id_edge_cases)) [] (plain_dive 7 0) (plain_dive 8 100) [] 50).
  - apply chronological_pair. vm_compute. discriminate.
  - reflexivity.
  - reflexivity.
Defined.

Lemma calculate_airuse_witness :
  ~ used_without_drop first_cylinder_only dive_with_spare_cylinder
  /\ calculate_airuse first_cylinder_only ideal_gas_volume dive_with_spare_cylinder
     = Qmake (sum_over_drops ideal_gas_volume dive_with_spare_cylinder) 1000.
Proof.
  assert (Hnone : ~ used_without_drop first_cylinder_only dive_with_spare_cylinder).
  { intros (i & cyl & Hi & Hused & Hdrop).
    destruct i as [|i]; [|discriminate].
    injection Hi as <-. vm_compute in Hdrop. discriminate. }
  split; [exact Hnone|].
  apply (calculate_airuse_spec first_cylinder_only ideal_gas_volume no_sac_rate
           dive_with_spare_cylinder). exact Hnone.
Defined.

Lemma combine_trips_witness :
  (0 < next_trip two_named_trips)%nat /\ (1 < next_trip two_named_trips)%nat
  /\ location (trip_at (snd (combine_trips 0%nat 1%nat two_named_trips))
                       (fst (combine_trips 0%nat 1%nat two_named_trips)))
     = Some "Bonaire"%string.
Proof.
  assert (H0 : (0 < next_trip two_named_trips)%nat) by (simpl; lia).
  assert (H1 : (1 < next_trip two_named_trips)%nat) by (simpl; lia).
  split; [exact H0|]. split; [exact H1|].
  rewrite (proj1 (proj2 (combine_trips_spec two_named_trips 0%nat 1%nat H0 H1))).
  vm_compute. reflexivity.
Defined.

Lemma unregister_trip_witness :
  dives (trip_at two_named_trips 0%nat) = []
  /\ unregister_trip 0%nat [0; 1]%nat two_named_trips = Done [1%nat].
Proof.
  assert (Hempty : dives (trip_at two_named_trips 0%nat) = []) by (vm_compute; reflexivity).
  split; [exact Hempty|].
  apply (proj2 (proj1 (unregister_trip_spec two_named_trips 0%nat [0; 1]%nat) Hempty)
           [] [1%nat]); [reflexivity|]. apply not_elem_of_nil.
Defined.

Lemma selection_count_witness :
  table_well_formed (three_selected (Some 1%nat))
  /\ selection_consistent (three_selected (Some 1%nat))
  /\ selection_consistent (deselect_dive (Some 1%nat) (three_selected (Some 1%nat))).
Proof.
  assert (Hwf : table_well_formed (three_selected (Some 1%nat))).
  { split; [apply (bool_decide_unpack _)|]; vm_compute; [exact I|reflexivity]. }
  assert (Hinv : selection_consistent (three_selected (Some 1%nat)))
    by (vm_compute; reflexivity).
  split; [exact Hwf|]. split; [exact Hinv|].
  assert (Hin : forall p, Some 1%nat = Some p -> p ∈ dive_table (three_selected (Some 1%nat))).
  { intros p [= <-]. apply (bool_decide_unpack _). vm_compute. exact I. }
  exact (proj1 (proj1 (proj2 (proj1 (selection_count_preserved _ Hwf Hinv)
                                (Some 1%nat) Hin)))).
Defined.

Lemma autogroup_pair_threshold_witness :
  0 < three_days
  /\ exists s',
       process_loaded_dives three_days
         (two_dive_log (plain_dive 1 1000) (plain_dive 2 (1000 + three_days - 1))) = Done s'
       /\ length (trip_table s') = 1%nat.
Proof.
  split; [reflexivity|].
  destruct (proj2 (autogroup_pair_threshold three_days (plain_dive 1 1000)
                     (plain_dive 2 (1000 + three_days - 1))
                     eq_refl eq_refl eq_refl eq_refl eq_refl eq_refl) eq_refl)
    as (s' & t & Hrun & Htab & _).
  exists s'. split; [exact Hrun|]. rewrite Htab. reflexivity.
Defined.

(** ** The order on dives and trips *)

Section ComparisonFacts.

Ltac split_comparisons :=
  repeat match goal with
         | |- context [Z.ltb ?a ?b] => destruct (Z.ltb_spec a b)
         | |- context [Z.gtb ?a ?b] => destruct (Z.gtb_spec a b)
         | |- context [Z.eqb ?a ?b] => destruct (Z.eqb_spec a b)
         | H : context [Z.ltb ?a ?b] |- _ => destruct (Z.ltb_spec a b)
         | H : context [Z.gtb ?a ?b] |- _ => destruct (Z.gtb_spec a b)
         | H : context [Z.eqb ?a ?b] |- _ => destruct (Z.eqb_spec a b)
         end.

(** [comp_dives] as a comparison of sort keys. *)
Lemma comp_dives_by_key (s : state) (a b : dive_ptr) :
  comp_dives s a b = compare_keys (dive_sort_key s a) (dive_sort_key s b).
Proof.
  unfold comp_dives, compare_keys, dive_sort_key, compare_Z.
  destruct (divetrip (dive_at s a)) as [ta|] eqn:Ha,
           (divetrip (dive_at s b)) as [tb|] eqn:Hb;
    simpl; try case_bool_decide; simplify_eq; split_comparisons;
    try reflexivity; try lia.
Qed.

(** X1.  [comp_dives] is the lexicographic comparison of the keys
    (start time, trip bucket, start of the trip, id), where a dive in a
    trip sorts before a trip-less dive with the same start time. *)
Theorem comp_dives_lexicographic (s : state) (a b : dive_ptr) :
  comp_dives s a b = compare_keys (dive_sort_key s a) (dive_sort_key s b).
Proof. apply comp_dives_by_key. Qed.

Lemma compare_Z_antisym (x y : Z) : compare_Z y x = - compare_Z x y.
Proof. unfold compare_Z. split_comparisons; lia. Qed.

Lemma opp_eqb_zero (c : Z) : (- c =? 0) = (c =? 0).
Proof. destruct (Z.eqb_spec c 0), (Z.eqb_spec (- c) 0); lia || reflexivity. Qed.

Lemma compare_keys_antisym (k1 k2 : Z * Z * Z * Z) :
  compare_keys k2 k1 = - compare_keys k1 k2.
Proof.
  destruct k1 as [[[w1 b1] t1] i1], k2 as [[[w2 b2] t2] i2].
  unfold compare_keys.
  rewrite (compare_Z_antisym w1 w2), (compare_Z_antisym b1 b2),
    (compare_Z_antisym t1 t2), (compare_Z_antisym i1 i2).
  rewrite !opp_eqb_zero.
  destruct (compare_Z w1 w2 =? 0), (compare_Z b1 b2 =? 0), (compare_Z t1 t2 =? 0);
    reflexivity.
Qed.

Lemma compare_keys_negative (k1 k2 : Z * Z * Z * Z) :
  compare_keys k1 k2 < 0 <->
  k1.1.1.1 < k2.1.1.1
  \/ (k1.1.1.1 = k2.1.1.1
      /\ (k1.1.1.2 < k2.1.1.2
          \/ (k1.1.1.2 = k2.1.1.2
              /\ (k1.1.2 < k2.1.2 \/ (k1.1.2 = k2.1.2 /\ k1.2 < k2.2))))).
Proof.
  destruct k1 as [[[w1 b1] t1] i1], k2 as [[[w2 b2] t2] i2].
  unfold compare_keys, compare_Z. simpl. split_comparisons; lia.
Qed.

Lemma compare_keys_trans (k1 k2 k3 : Z * Z * Z * Z) :
  compare_keys k1 k2 < 0 -> compare_keys k2 k3 < 0 -> compare_keys k1 k3 < 0.
Proof. rewrite !compare_keys_negative. lia. Qed.

Lemma compare_keys_zero (k1 k2 : Z * Z * Z * Z) :
  compare_keys k1 k2 = 0 <-> k1 = k2.
Proof.
  destruct k1 as [[[w1 b1] t1] i1], k2 as [[[w2 b2] t2] i2].
  unfold compare_keys, compare_Z. split.
  - split_comparisons; intros; try lia; repeat f_equal; lia.
  - intros [= -> -> -> ->]. split_comparisons; lia.
Qed.

Lemma dive_less_than_asym (s : state) (a b : dive_ptr) :
  dive_less_than s a b = true -> dive_less_than s b a = false.
Proof.
  unfold dive_less_than. rewrite !comp_dives_by_key.
  rewrite (compare_keys_antisym (dive_sort_key s a)).
  intros H. apply Z.ltb_lt in H. apply Z.ltb_ge. lia.
Qed.

Lemma dive_less_than_trans (s : state) (a b c : dive_ptr) :
  dive_less_than s a b = true -> dive_less_than s b c = true ->
  dive_less_than s a c = true.
Proof.
  unfold dive_less_than. rewrite !comp_dives_by_key.
  intros H1 H2. apply Z.ltb_lt in H1, H2. apply Z.ltb_lt.
  by eapply compare_keys_trans.
Qed.

(** X2.  [dive_less_than] is a strict order on the dives of a state:
    nothing is less than itself, the relation is transitive, and of two
    dives with different ids exactly one is less than the other. *)
Theorem dive_less_than_strict_order (s : state) :
  (forall a, dive_less_than s a a = false)
  /\ (forall a b c, dive_less_than s a b = true -> dive_less_than s b c = true ->
                    dive_less_than s a c = true)
  /\ (forall a b, id (dive_at s a) <> id (dive_at s b) ->
                  dive_less_than s a b = negb (dive_less_than s b a)).
Proof.
  split; [|split].
  - intros a. unfold dive_less_than. rewrite comp_dives_by_key.
    rewrite (proj2 (compare_keys_zero _ _) eq_refl). reflexivity.
  - apply dive_less_than_trans.
  - intros a b Hid. unfold dive_less_than. rewrite !comp_dives_by_key.
    rewrite (compare_keys_antisym (dive_sort_key s a)).
    assert (Hnz : compare_keys (dive_sort_key s a) (dive_sort_key s b) <> 0).
    { intros Hz. apply compare_keys_zero in Hz. unfold dive_sort_key in Hz.
      injection Hz as _ _ _ Hz. contradiction. }
    destruct (Z.ltb_spec (compare_keys (dive_sort_key s a) (dive_sort_key s b)) 0),
             (Z.ltb_spec (- compare_keys (dive_sort_key s a) (dive_sort_key s b)) 0);
      simpl; try reflexivity; lia.
Qed.

Lemma trip_less_than_asym (s : state) (a b : trip_ptr) :
  trip_less_than s a b = true -> trip_less_than s b a = false.
Proof.
  unfold trip_less_than, comp_trips.
  destruct (dives (trip_at s a)) as [|da ?], (dives (trip_at s b)) as [|db ?];
    simpl; try discriminate; try reflexivity.
  apply dive_less_than_asym.
Qed.

Lemma trip_less_than_trans (s : state) (a b c : trip_ptr) :
  trip_less_than s a b = true -> trip_less_than s b c = true ->
  trip_less_than s a c = true.
Proof.
  unfold trip_less_than, comp_trips.
  destruct (dives (trip_at s a)) as [|da ?], (dives (trip_at s b)) as [|db ?],
           (dives (trip_at s c)) as [|dc ?];
    simpl; try discriminate; try reflexivity.
  apply dive_less_than_trans.
Qed.

End ComparisonFacts.

(** ** Tables *)

Section TableFacts.

Context {A : Type}.
Variable less : A -> A -> bool.
Hypothesis less_asym : forall x y, less x y = true -> less y x = false.
Hypothesis less_trans : forall x y z, less x y = true -> less y z = true -> less x z = true.

Lemma get_insertion_index_le_length (table : list A) (item : A) :
  (get_insertion_index less table item <= length table)%nat.
Proof.
  induction table as [|x table IH]; simpl; [lia|]. destruct (less item x); lia.
Qed.

Lemma get_insertion_index_before (table : list A) (item : A) (i : nat) (x : A) :
  (i < get_insertion_index less table item)%nat -> table !! i = Some x ->
  less item x = false.
Proof.
  revert i. induction table as [|y table IH]; intros i Hi Hx; simpl in *; [lia|].
  destruct (less item y) eqn:Hy; [lia|].
  destruct i as [|i]; simpl in Hx; [by injection Hx as <-|].
  apply (IH i); [lia|assumption].
Qed.

Lemma get_insertion_index_at (table : list A) (item : A) (x : A) :
  table !! get_insertion_index less table item = Some x -> less item x = true.
Proof.
  induction table as [|y table IH]; simpl; [discriminate|].
  destruct (less item y) eqn:Hy; simpl; [by intros [= <-]|assumption].
Qed.

Lemma in_order_insert (table : list A) (item : A) :
  in_order less table ->
  in_order less (add_to_table table (get_insertion_index less table item) item).
Proof.
  intros Hord. unfold add_to_table.
  set (idx := get_insertion_index less table item).
  pose proof (get_insertion_index_le_length table item) as Hlen. fold idx in Hlen.
  assert (Htake : length (take idx table) = idx) by (rewrite length_take; lia).
  assert (Hafter : forall k y, drop idx table !! k = Some y -> less y item = false).
  { intros k y Hy. rewrite lookup_drop in Hy.
    destruct (drop idx table !! O) as [z|] eqn:Hz.
    - rewrite lookup_drop, Nat.add_0_r in Hz.
      pose proof (get_insertion_index_at table item z Hz) as Hitem.
      destruct k as [|k].
      + rewrite Nat.add_0_r in Hy. rewrite Hz in Hy. injection Hy as <-.
        by apply less_asym.
      + destruct (less y item) eqn:Hyi; [|reflexivity].
        assert (less y z = true) by (by apply (less_trans y item z)).
        assert (less y z = false); [|congruence].
        apply (Hord idx (idx + S k)%nat z y); [assumption..|lia].
    - rewrite lookup_drop, Nat.add_0_r in Hz. apply lookup_ge_None in Hz.
      apply lookup_lt_Some in Hy. lia. }
  intros i j x y Hi Hj Hij.
  destruct (decide (i < idx)%nat) as [Hi1|Hi1].
  - rewrite lookup_app_l in Hi by lia. rewrite lookup_take_lt in Hi by lia.
    destruct (decide (j < idx)%nat) as [Hj1|Hj1].
    + rewrite lookup_app_l in Hj by lia. rewrite lookup_take_lt in Hj by lia.
      by apply (Hord i j).
    + rewrite lookup_app_r in Hj by lia. rewrite Htake in Hj.
      destruct (j - idx)%nat as [|k] eqn:Hk; simpl in Hj.
      * injection Hj as <-. by apply (get_insertion_index_before table item i).
      * rewrite lookup_drop in Hj. apply (Hord i (idx + k)%nat); [assumption..|lia].
  - rewrite lookup_app_r in Hi by lia. rewrite Htake in Hi.
    rewrite lookup_app_r in Hj by lia. rewrite Htake in Hj.
    destruct (i - idx)%nat as [|ki] eqn:Hki; simpl in Hi;
      destruct (j - idx)%nat as [|kj] eqn:Hkj; simpl in Hj; try lia.
    + injection Hi as <-. by apply (Hafter kj).
    + rewrite lookup_drop in Hi, Hj.
      apply (Hord (idx + ki)%nat (idx + kj)%nat); [assumption..|lia].
Qed.

End TableFacts.

Section TableRoundTrips.

Context {A : Type}.

(** X3.  Adding an item at an index of a table (or at its end) and
    removing the entry at that index gives the table back; the item sits
    at the index in between, and the table is one longer. *)
Theorem add_then_remove (table : list A) (idx : nat) (item : A) :
  (idx <= length table)%nat ->
  add_to_table table idx item !! idx = Some item
  /\ length (add_to_table table idx item) = S (length table)
  /\ remove_from_table (add_to_table table idx item) idx = table.
Proof.
  intros Hidx. unfold add_to_table.
  assert (Htake : length (take idx table) = idx) by (rewrite length_take; lia).
  split; [|split].
  - rewrite lookup_app_r by lia. by rewrite Htake, Nat.sub_diag.
  - rewrite length_app. simpl. rewrite Htake, length_drop. lia.
  - pose proof (remove_from_table_middle (take idx table) (drop idx table) item) as Hmid.
    rewrite Htake in Hmid. rewrite Hmid. apply take_drop.
Qed.

End TableRoundTrips.

Section InsertFacts.

(** X4.  [insert_dive] puts a dive into a table that is in
    [dive_less_than] order so that the table stays in order; likewise
    [insert_trip] for a trip table in [trip_less_than] order. *)
Theorem insert_keeps_order (s : state) :
  (forall table d, in_order (dive_less_than s) table ->
                   in_order (dive_less_than s) (insert_dive table d s))
  /\ (forall table t, in_order (trip_less_than s) table ->
                      in_order (trip_less_than s) (insert_trip t table s)).
Proof.
  split.
  - intros table d Hord. unfold insert_dive. apply in_order_insert; try assumption.
    + apply dive_less_than_asym.
    + apply dive_less_than_trans.
  - intros table t Hord. unfold insert_trip. apply in_order_insert; try assumption.
    + apply trip_less_than_asym.
    + apply trip_less_than_trans.
Qed.

End InsertFacts.

(** ** Looking dives up *)

Section LookupFacts.

Lemma divenr_from_miss (s : state) (the_id : Z) (table : list dive_ptr) (i : Z) :
  (forall q, q ∈ table -> id (dive_at s q) <> the_id) ->
  divenr_from s the_id table i = -1.
Proof.
  revert i. induction table as [|d table IH]; intros i Hmiss; simpl; [reflexivity|].
  destruct (Z.eqb_spec (id (dive_at s d)) the_id) as [Heq|_].
  - exfalso. apply (Hmiss d); [left|assumption].
  - apply IH. intros q Hq. apply Hmiss. by right.
Qed.

Lemma divenr_from_hit (s : state) (the_id : Z) (table : list dive_ptr) (i : Z)
    (k : nat) (p : dive_ptr) :
  table !! k = Some p -> id (dive_at s p) = the_id ->
  (forall j q, (j < k)%nat -> table !! j = Some q -> id (dive_at s q) <> the_id) ->
  divenr_from s the_id table i = i + Z.of_nat k.
Proof.
  revert i k. induction table as [|d table IH]; intros i k Hk Hid Hfirst; [discriminate|].
  simpl. destruct k as [|k]; simpl in Hk.
  - injection Hk as ->. destruct (Z.eqb_spec (id (dive_at s p)) the_id); lia.
  - destruct (Z.eqb_spec (id (dive_at s d)) the_id) as [Heq|_].
    + exfalso. apply (Hfirst O d); [lia|reflexivity|assumption].
    + rewrite (IH (i + 1) k Hk Hid); [lia|].
      intros j q Hj Hq. apply (Hfirst (S j) q); [lia|assumption].
Qed.

(** X5.  [get_divenr] looks a dive up by its id, never by its address:
    the answer for two dives with the same id is the same; it is [-1]
    for the null pointer and when no dive of the table has the id; and
    when the ids of the table are pairwise distinct, the dive at index
    [i] is found at [i], where [get_dive] gives it back. *)
Theorem get_divenr_round_trip (s : state) :
  get_divenr s None = -1
  /\ (forall p q, id (dive_at s p) = id (dive_at s q) ->
                  get_divenr s (Some p) = get_divenr s (Some q))
  /\ (forall p, (forall q, q ∈ dive_table s -> id (dive_at s q) <> id (dive_at s p)) ->
                get_divenr s (Some p) = -1)
  /\ ((forall i j a b, dive_table s !! i = Some a -> dive_table s !! j = Some b ->
                       id (dive_at s a) = id (dive_at s b) -> i = j) ->
      forall i p, dive_table s !! i = Some p ->
                  get_divenr s (Some p) = Z.of_nat i
                  /\ get_dive s (get_divenr s (Some p)) = Some p).
Proof.
  split; [reflexivity|]. split; [|split].
  - intros p q Hid. unfold get_divenr. by rewrite Hid.
  - intros p Hmiss. unfold get_divenr. by apply divenr_from_miss.
  - intros Hdistinct i p Hi.
    assert (Hnr : get_divenr s (Some p) = Z.of_nat i).
    { unfold get_divenr. rewrite (divenr_from_hit s _ _ 0 i p Hi eq_refl); [lia|].
      intros j q Hj Hq Hid. specialize (Hdistinct j i q p Hq Hi Hid). lia. }
    split; [assumption|]. rewrite Hnr. unfold get_dive.
    destruct (Z.ltb_spec (Z.of_nat i) 0); [lia|]. by rewrite Nat2Z.id.
Qed.

Lemma add_after_remove {A : Type} (table : list A) (idx : nat) (item : A) :
  table !! idx = Some item ->
  add_to_table (remove_from_table table idx) idx item = table.
Proof.
  intros Hidx. unfold remove_from_table, add_to_table.
  apply lookup_lt_Some in Hidx as Hlen.
  destruct (Nat.ltb_spec idx (length table)); [|lia].
  rewrite delete_take_drop.
  rewrite take_app_length' by (rewrite length_take; lia).
  rewrite drop_app_length' by (rewrite length_take; lia).
  by apply take_drop_middle.
Qed.

(** X6.  Unregistering the dive at an index of the global table and
    adding it back at that index restores the table; the dive comes back
    with its selection flag cleared and, if it was selected,
    [amount_selected] one lower; no other dive and no trip changes. *)
Theorem unregister_then_add (s : state) (idx : Z) (p : dive_ptr) :
  get_dive s idx = Some p ->
  let s1 := snd (unregister_dive idx s) in
  fst (unregister_dive idx s) = Some p
  /\ exists s2,
       add_single_dive idx p s1 = Done s2
       /\ dive_table s2 = dive_table s
       /\ dive_at s2 p = set_selected false (dive_at s p)
       /\ (forall q, q <> p -> dive_at s2 q = dive_at s q)
       /\ amount_selected s2
          = (if selected (dive_at s p) then wrap32 (amount_selected s - 1)
             else amount_selected s)
       /\ trip_heap s2 = trip_heap s /\ trip_table s2 = trip_table s
       /\ current_dive s2 = current_dive s.
Proof.
  intros Hget. simpl. unfold unregister_dive. rewrite Hget. simpl.
  split; [reflexivity|].
  apply get_dive_Some in Hget as [Hidx Hi].
  apply lookup_lt_Some in Hi as Hlen.
  assert (Hlen' : length (remove_from_table (dive_table s) (Z.to_nat idx))
                  = (length (dive_table s) - 1)%nat).
  { rewrite (remove_from_table_lookup _ _ _ Hi). rewrite length_delete by eauto. lia. }
  unfold add_single_dive.
  change (dive_table (store_dive p ?d ?s0)) with (dive_table s0).
  destruct (selected (dive_at (with_dive_table _ s) p)) eqn:Hsel;
    change (dive_at (with_dive_table ?t s) p) with (dive_at s p) in Hsel;
    rewrite Hsel; simpl; rewrite Hlen';
    (destruct (Z.ltb_spec idx 0); [lia|]);
    (destruct (Z.ltb_spec (Z.of_nat (length (dive_table s) - 1)) idx); [lia|]);
    simpl; unfold dive_at; simpl; rewrite lookup_total_insert_eq; simpl;
    (eexists; split; [reflexivity|]); simpl;
    rewrite (add_after_remove _ _ _ Hi), lookup_total_insert_eq;
    repeat split; try reflexivity;
    intros q Hq; by rewrite lookup_total_insert_ne.
Qed.

End LookupFacts.

(** ** Scans over the selection *)

Section SelectionScans.

Lemma first_selected_from_spec (s : state) (table : list dive_ptr) :
  match first_selected_from s table with
  | Some p => exists i, table !! i = Some p /\ selected (dive_at s p) = true
                        /\ forall j q, (j < i)%nat -> table !! j = Some q ->
                                       selected (dive_at s q) = false
  | None => forall q, q ∈ table -> selected (dive_at s q) = false
  end.
Proof.
  induction table as [|d table IH]; simpl.
  - intros q Hq. by apply elem_of_nil in Hq.
  - destruct (selected (dive_at s d)) eqn:Hd.
    + exists O. repeat split; [assumption|]. intros j q Hj. lia.
    + destruct (first_selected_from s table) as [p|].
      * destruct IH as (i & Hi & Hp & Hbefore). exists (S i). repeat split; [assumption..|].
        intros [|j] q Hj Hq; simpl in Hq; [by injection Hq as <-|].
        apply (Hbefore j); [lia|assumption].
      * intros q Hq. apply elem_of_cons in Hq as [->|Hq]; [assumption|by apply IH].
Qed.

Lemma last_selected_snoc (s : state) (table : list dive_ptr) (d : dive_ptr)
    (ret : option dive_ptr) :
  foldl (fun ret d => if selected (dive_at s d) then Some d else ret) ret (table ++ [d])
  = if selected (dive_at s d) then Some d
    else foldl (fun ret d => if selected (dive_at s d) then Some d else ret) ret table.
Proof. by rewrite foldl_app. Qed.

Lemma last_selected_spec (s : state) (table : list dive_ptr) :
  match foldl (fun ret d => if selected (dive_at s d) then Some d else ret) None table with
  | Some p => exists i, table !! i = Some p /\ selected (dive_at s p) = true
                        /\ forall j q, (i < j)%nat -> table !! j = Some q ->
                                       selected (dive_at s q) = false
  | None => forall q, q ∈ table -> selected (dive_at s q) = false
  end.
Proof.
  induction table as [|d table IH] using rev_ind.
  - simpl. intros q Hq. by apply elem_of_nil in Hq.
  - rewrite last_selected_snoc. destruct (selected (dive_at s d)) eqn:Hd.
    + exists (length table). split; [by rewrite list_lookup_middle|]. split; [assumption|].
      intros j q Hj Hq. apply lookup_lt_Some in Hq. rewrite length_app in Hq. simpl in Hq. lia.
    + destruct (foldl _ None table) as [p|].
      * destruct IH as (i & Hi & Hp & Hafter). exists i.
        split; [by apply lookup_app_l_Some|]. split; [assumption|].
        intros j q Hj Hq. apply lookup_app_Some in Hq as [Hq|[Hlen Hq]].
        -- by apply (Hafter j).
        -- destruct (j - length table)%nat; simpl in Hq; [|discriminate].
           by injection Hq as <-.
      * intros q Hq. apply elem_of_app in Hq as [Hq|Hq]; [by apply IH|].
        apply list_elem_of_singleton in Hq as ->. assumption.
Qed.

Lemma count_selected_zero (s : state) (table : list dive_ptr) :
  count_selected s table = 0 <-> forall q, q ∈ table -> selected (dive_at s q) = false.
Proof.
  induction table as [|d table IH]; simpl.
  - split; [|reflexivity]. intros _ q Hq. by apply elem_of_nil in Hq.
  - pose proof (count_selected_bounds s table) as Hb. split.
    + intros Hz q Hq. destruct (selected (dive_at s d)) eqn:Hd; [lia|].
      apply elem_of_cons in Hq as [->|Hq]; [assumption|]. apply IH; [lia|assumption].
    + intros Hall. rewrite (Hall d) by left. apply IH. intros q Hq. apply Hall. by right.
Qed.

(** X7.  [first_selected_dive] returns the first selected dive of the
    table and [last_selected_dive] the last one; both return null
    exactly when no dive of the table is selected, which on a state with
    a consistent counter is when [amount_selected] is 0. *)
Theorem first_and_last_selected (s : state) :
  (forall p, first_selected_dive s = Some p ->
     exists i, dive_table s !! i = Some p /\ selected (dive_at s p) = true
               /\ forall j q, (j < i)%nat -> dive_table s !! j = Some q ->
                              selected (dive_at s q) = false)
  /\ (forall p, last_selected_dive s = Some p ->
        exists i, dive_table s !! i = Some p /\ selected (dive_at s p) = true
                  /\ forall j q, (i < j)%nat -> dive_table s !! j = Some q ->
                                 selected (dive_at s q) = false)
  /\ (first_selected_dive s = None <-> count_selected s (dive_table s) = 0)
  /\ (last_selected_dive s = None <-> count_selected s (dive_table s) = 0)
  /\ (selection_consistent s ->
      (first_selected_dive s = None <-> amount_selected s = 0)).
Proof.
  pose proof (first_selected_from_spec s (dive_table s)) as Hfirst.
  pose proof (last_selected_spec s (dive_table s)) as Hlast.
  assert (Hf : first_selected_dive s = None <-> count_selected s (dive_table s) = 0).
  { unfold first_selected_dive. rewrite count_selected_zero.
    destruct (first_selected_from s (dive_table s)) as [p|]; split; try done.
    intros Hnone. destruct Hfirst as (i & Hi & Hp & _).
    rewrite (Hnone p) in Hp; [discriminate|]. apply list_elem_of_lookup. eauto. }
  split; [|split; [|split; [|split]]].
  - intros p Hp. unfold first_selected_dive in Hp. by rewrite Hp in Hfirst.
  - intros p Hp. unfold last_selected_dive in Hp. by rewrite Hp in Hlast.
  - exact Hf.
  - unfold last_selected_dive. rewrite count_selected_zero.
    destruct (foldl _ None (dive_table s)) as [p|]; split; try done.
    intros Hnone. destruct Hlast as (i & Hi & Hp & _).
    rewrite (Hnone p) in Hp; [discriminate|]. apply list_elem_of_lookup. eauto.
  - intros Hinv. rewrite Hf. unfold selection_consistent in Hinv. by rewrite Hinv.
Qed.

End SelectionScans.

Section ConsecutiveFacts.

Variable s : state.

Let sel (d : dive_ptr) : Prop := selected (dive_at s d) = true.
Let unsel (d : dive_ptr) : Prop := selected (dive_at s d) = false.
Let scan (flags : bool * bool * bool) (l : list dive_ptr) : bool :=
  fst (fst (foldl (consecutive_step s) flags l)).

Lemma scan_after_block (c : bool) (l : list dive_ptr) :
  scan (c, true, true) l = true <-> c = true /\ Forall unsel l.
Proof.
  unfold scan. revert c. induction l as [|d l IH]; intros c; simpl.
  - split; [intros ->; split; [reflexivity|constructor]|by intros [-> _]].
  - destruct (selected (dive_at s d)) eqn:Hd; simpl.
    + rewrite IH. split; [intros [? _]; discriminate|].
      intros [_ Hall]. apply Forall_cons in Hall as [Hu _]. unfold unsel in Hu. congruence.
    + rewrite IH. rewrite Forall_cons. unfold unsel at 2. tauto.
Qed.

Lemma scan_in_block (c : bool) (l : list dive_ptr) :
  scan (c, true, false) l = true <->
  c = true /\ exists l2 l3, l = l2 ++ l3 /\ Forall sel l2 /\ Forall unsel l3.
Proof.
  unfold scan. revert c. induction l as [|d l IH]; intros c; simpl.
  - split.
    + intros ->. split; [reflexivity|]. exists [], []. repeat split; constructor.
    + by intros [-> _].
  - destruct (selected (dive_at s d)) eqn:Hd; simpl.
    + rewrite IH. split; intros [Hc (l2 & l3 & Hl & H2 & H3)]; (split; [assumption|]).
      * exists (d :: l2), l3. rewrite Hl. repeat split; [|assumption].
        by apply Forall_cons.
      * destruct l2 as [|x l2]; simpl in Hl.
        -- subst l3. apply Forall_cons in H3 as [Hu _]. unfold unsel in Hu. congruence.
        -- injection Hl as <- ->. apply Forall_cons in H2 as [_ H2]. eauto.
    + fold (scan (c, true, true) l). rewrite scan_after_block.
      split; intros [Hc H]; (split; [assumption|]).
      * exists [], (d :: l). repeat split; [constructor|]. by apply Forall_cons.
      * destruct H as (l2 & l3 & Hl & H2 & H3). destruct l2 as [|x l2]; simpl in Hl.
        -- subst l3. by apply Forall_cons in H3 as [_ H3].
        -- injection Hl as <- ->. apply Forall_cons in H2 as [Hs _].
           unfold sel in Hs. congruence.
Qed.

Lemma scan_before_block (c : bool) (l : list dive_ptr) :
  scan (c, false, false) l = true <->
  c = true /\ exists l1 l2 l3, l = l1 ++ l2 ++ l3
                               /\ Forall unsel l1 /\ Forall sel l2 /\ Forall unsel l3.
Proof.
  unfold scan. revert c. induction l as [|d l IH]; intros c; simpl.
  - split.
    + intros ->. split; [reflexivity|]. exists [], [], []. repeat split; constructor.
    + by intros [-> _].
  - destruct (selected (dive_at s d)) eqn:Hd; simpl.
    + fold (scan (c, true, false) l). rewrite scan_in_block.
      split; intros [Hc H]; (split; [assumption|]).
      * destruct H as (l2 & l3 & -> & H2 & H3).
        exists [], (d :: l2), l3. repeat split; [constructor| |assumption].
        by apply Forall_cons.
      * destruct H as (l1 & l2 & l3 & Hl & H1 & H2 & H3).
        destruct l1 as [|x l1]; simpl in Hl.
        -- destruct l2 as [|y l2]; simpl in Hl.
           ++ subst l3. apply Forall_cons in H3 as [Hu _]. unfold unsel in Hu. congruence.
           ++ injection Hl as <- ->. apply Forall_cons in H2 as [_ H2]. eauto.
        -- injection Hl as <- ->. apply Forall_cons in H1 as [Hu _].
           unfold unsel in Hu. congruence.
    + rewrite IH. split; intros [Hc (l1 & l2 & l3 & Hl & H1 & H2 & H3)];
        (split; [assumption|]).
      * exists (d :: l1), l2, l3. rewrite Hl. repeat split; [|assumption..].
        by apply Forall_cons.
      * destruct l1 as [|x l1]; simpl in Hl.
        -- destruct l2 as [|y l2]; simpl in Hl.
           ++ subst l3. apply Forall_cons in H3 as [_ H3].
              exists [], [], l. repeat split; [constructor..|assumption].
           ++ injection Hl as <- ->. apply Forall_cons in H2 as [Hs _].
              unfold sel in Hs. congruence.
        -- injection Hl as <- ->. apply Forall_cons in H1 as [_ H1].
           exists l1, l2, l3. auto.
Qed.

(** X8.  With two or more dives counted as selected,
    [consecutive_selected] is true exactly when the selected dives form
    one uninterrupted run of the table: unselected dives, then selected
    ones, then unselected ones.  With a count of 0 or 1 it is true
    without looking at the table. *)
Theorem consecutive_selected_spec :
  consecutive_selected s = true <->
  amount_selected s = 0 \/ amount_selected s = 1
  \/ exists l1 l2 l3,
       dive_table s = l1 ++ l2 ++ l3
       /\ Forall (fun d => selected (dive_at s d) = false) l1
       /\ Forall (fun d => selected (dive_at s d) = true) l2
       /\ Forall (fun d => selected (dive_at s d) = false) l3.
Proof.
  unfold consecutive_selected.
  destruct (Z.eqb_spec (amount_selected s) 0) as [H0|H0]; simpl; [tauto|].
  destruct (Z.eqb_spec (amount_selected s) 1) as [H1|H1]; simpl; [tauto|].
  fold (scan (true, false, false) (dive_table s)). rewrite scan_before_block.
  split.
  - intros [_ H]. right. right. exact H.
  - intros [?|[?|H]]; [contradiction..|]. split; [reflexivity|exact H].
Qed.

End ConsecutiveFacts.

Section VisibleFacts.

Variable s : state.


Lemma first_not_before_le (table : list dive_ptr) (w : Z) :
  (first_not_before s table w <= length table)%nat.
Proof.
  induction table as [|d table IH]; simpl; [lia|].
  destruct (w <=? when (dive_at s d)); lia.
Qed.

Lemma first_not_before_zero (table : list dive_ptr) (w : Z) :
  first_not_before s table w = O <->
  table = [] \/ exists d rest, table = d :: rest /\ w <= when (dive_at s d).
Proof.
  destruct table as [|d table]; simpl.
  - split; [by left|reflexivity].
  - destruct (Z.leb_spec w (when (dive_at s d))).
    + split; [|reflexivity]. intros _. right. eauto.
    + split; [discriminate|]. intros [?|(? & ? & Heq & ?)]; [discriminate|].
      injection Heq as <- <-. lia.
Qed.

Lemma visible_down_to_one_some (j : nat) (d : dive_ptr) :
  (j < length (dive_table s))%nat ->
  visible_down_to_one s j = Some d ->
  hidden_by_filter (dive_at s d) = false
  /\ exists k, (1 <= k <= j)%nat /\ dive_table s !! k = Some d.
Proof.
  induction j as [|j IH]; intros Hlt; simpl; [discriminate|].
  destruct (hidden_by_filter (dive_at s (dive_table s !!! S j))) eqn:Hh; simpl.
  - intros Hd. destruct (IH ltac:(lia) Hd) as [Hv (k & Hk & Hlook)].
    split; [exact Hv|]. exists k. split; [lia|exact Hlook].
  - intros [= <-]. split; [exact Hh|]. exists (S j). split; [lia|].
    by apply list_lookup_lookup_total_lt.
Qed.


Lemma first_visible_some (rest : list dive_ptr) (d : dive_ptr) :
  first_visible s rest = Some d ->
  hidden_by_filter (dive_at s d) = false /\ d ∈ rest.
Proof.
  induction rest as [|x rest IH]; simpl; [discriminate|].
  destruct (hidden_by_filter (dive_at s x)) eqn:Hh; simpl.
  - intros Hd. destruct (IH Hd). split; [assumption|]. by apply list_elem_of_further.
  - intros [= <-]. split; [exact Hh|]. apply list_elem_of_here.
Qed.


(** X9.  A dive returned by [find_next_visible_dive] is in the dive
    table and not hidden by the filter. *)
Theorem find_next_visible_dive_sound (w : Z) (d : dive_ptr) :
  find_next_visible_dive s w = Some d ->
  d ∈ dive_table s /\ hidden_by_filter (dive_at s d) = false.
Proof.
  unfold find_next_visible_dive.
  destruct (length (dive_table s) =? 0)%nat eqn:Hlen; [discriminate|].
  apply Nat.eqb_neq in Hlen.
  pose proof (first_not_before_le (dive_table s) w) as Hle.
  destruct (visible_down_to_one s (first_not_before s (dive_table s) w - 1)) as [d'|] eqn:Hdown.
  - intros [= <-].
    apply visible_down_to_one_some in Hdown as [Hv (k & _ & Hlook)]; [|lia].
    split; [|exact Hv]. apply list_elem_of_lookup. eauto.
  - intros Hup. apply first_visible_some in Hup as [Hv Hin].
    split; [|exact Hv]. apply list_elem_of_lookup in Hin as [k Hk].
    rewrite lookup_drop in Hk. apply list_elem_of_lookup. eauto.
Qed.


(** When [when] is not later than the start of the first dive, the
    search is the forward scan over the whole table. *)
Lemma find_next_visible_dive_at_front (w : Z) (first : dive_ptr) (rest : list dive_ptr) :
  dive_table s = first :: rest ->
  w <= when (dive_at s first) ->
  find_next_visible_dive s w = first_visible s (dive_table s).
Proof.
  intros Htable Hw. unfold find_next_visible_dive.
  assert (Hi : first_not_before s (dive_table s) w = O).
  { apply first_not_before_zero. right. eauto. }
  rewrite Hi, Htable. reflexivity.
Qed.

End VisibleFacts.

Section TripSelectionFacts.

Lemma deselect_dive_trip_heap (s : state) (d : option dive_ptr) :
  trip_heap (deselect_dive d s) = trip_heap s /\ dive_table (deselect_dive d s) = dive_table s.
Proof.
  destruct d as [p|]; [|by split].
  destruct (selected (dive_at s p)) eqn:Hsel.
  - destruct (deselect_dive_shape s p Hsel) as [c ->].
    destruct (amount_selected s =? 0); by split.
  - unfold deselect_dive. rewrite Hsel. by split.
Qed.

Lemma deselect_dive_flags (s : state) (p q : dive_ptr) :
  selected (dive_at (deselect_dive (Some p) s) q)
  = (if decide (p = q) then false else selected (dive_at s q))
  /\ hidden_by_filter (dive_at (deselect_dive (Some p) s) q) = hidden_by_filter (dive_at s q).
Proof.
  destruct (selected (dive_at s p)) eqn:Hsel.
  - destruct (deselect_dive_shape s p Hsel) as [c ->].
    assert (Hat : forall s', dive_at (with_current_dive c s') q = dive_at s' q) by reflexivity.
    rewrite Hat.
    assert (Hat' : dive_at (if amount_selected s =? 0
                            then store_dive p (set_selected false (dive_at s p)) s
                            else with_amount_selected (amount_selected s - 1)
                                   (store_dive p (set_selected false (dive_at s p)) s)) q
                   = dive_at (store_dive p (set_selected false (dive_at s p)) s) q).
    { by destruct (amount_selected s =? 0). }
    rewrite Hat', dive_at_store_dive.
    destruct (decide (p = q)) as [->|_]; by split.
  - unfold deselect_dive. rewrite Hsel.
    destruct (decide (p = q)) as [<-|_]; by split.
Qed.

Lemma deselect_all_spec (l : list dive_ptr) (s : state) :
  let s' := foldl (fun s d => deselect_dive (Some d) s) s l in
  dive_table s' = dive_table s
  /\ forall q, selected (dive_at s' q)
               = (if decide (q ∈ l) then false else selected (dive_at s q)).
Proof.
  revert s. induction l as [|d l IH]; intros s; cbn [foldl].
  - split; [reflexivity|]. intros q. rewrite decide_False; [reflexivity|].
    apply not_elem_of_nil.
  - destruct (IH (deselect_dive (Some d) s)) as [Htab Hsel].
    split; [rewrite Htab; apply deselect_dive_trip_heap|].
    intros q. rewrite Hsel. rewrite (proj1 (deselect_dive_flags s d q)).
    destruct (decide (q ∈ l)) as [Hin|Hnin].
    + rewrite decide_True; [reflexivity|]. by apply list_elem_of_further.
    + destruct (decide (d = q)) as [->|Hne].
      * rewrite decide_True; [reflexivity|]. apply list_elem_of_here.
      * rewrite decide_False; [reflexivity|].
        rewrite elem_of_cons. intros [?|?]; [congruence|contradiction].
Qed.

Lemma deselect_all_consistent (l : list dive_ptr) (s : state) :
  table_well_formed s -> selection_consistent s ->
  (forall d, d ∈ l -> d ∈ dive_table s) ->
  selection_consistent (foldl (fun s d => deselect_dive (Some d) s) s l).
Proof.
  revert s. induction l as [|d l IH]; intros s Hwf Hinv Hin; cbn [foldl]; [exact Hinv|].
  pose proof (deselect_dive_trip_heap s (Some d)) as [_ Htab].
  apply IH.
  - unfold table_well_formed. rewrite Htab. exact Hwf.
  - apply deselect_dive_consistent; [assumption..|]. apply Hin, list_elem_of_here.
  - intros x Hx. rewrite Htab. apply Hin. by apply list_elem_of_further.
Qed.

(** X11.  After [deselect_dives_in_trip] no dive of the trip is
    selected and every other dive keeps its flag; when the trip's dives
    are in the dive table, the counter [amount_selected] stays equal to
    the number of selected dives. *)
Theorem deselect_dives_in_trip_spec (s : state) (t : trip_ptr) :
  table_well_formed s -> selection_consistent s ->
  (forall d, d ∈ dives (trip_at s t) -> d ∈ dive_table s) ->
  let s' := deselect_dives_in_trip (Some t) s in
  (forall q, selected (dive_at s' q)
             = (if decide (q ∈ dives (trip_at s t)) then false else selected (dive_at s q)))
  /\ selection_consistent s'.
Proof.
  intros Hwf Hinv Hin. simpl. split.
  - apply deselect_all_spec.
  - by apply deselect_all_consistent.
Qed.

End TripSelectionFacts.

Section AutogroupCoverage.

Variable TRIP_THRESHOLD : Z.

(** A dive that autogrouping has nothing to do for: it is in a trip, or
    the user took it out of one. *)
Let grouped (s : state) (d : dive_ptr) : Prop :=
  divetrip (dive_at s d) <> None \/ notrip (dive_at s d) = true.

(** From [s] to [s'] no dive left its trip and no [notrip] flag changed. *)
Let trips_kept (s s' : state) : Prop :=
  (forall q, notrip (dive_at s' q) = notrip (dive_at s q))
  /\ (forall q t, divetrip (dive_at s q) = Some t -> divetrip (dive_at s' q) = Some t).

Lemma trips_kept_refl (s : state) : trips_kept s s.
Proof. by split. Qed.

Lemma trips_kept_trans (s1 s2 s3 : state) :
  trips_kept s1 s2 -> trips_kept s2 s3 -> trips_kept s1 s3.
Proof.
  intros [Hn1 Ht1] [Hn2 Ht2]. split.
  - intros q. by rewrite Hn2, Hn1.
  - intros q t Hq. by apply Ht2, Ht1.
Qed.

Lemma trips_kept_same_dives (s s' : state) :
  dive_heap s' = dive_heap s -> trips_kept s s'.
Proof. intros Heq. unfold trips_kept, dive_at. rewrite Heq. by split. Qed.

Lemma grouped_kept (s s' : state) (d : dive_ptr) :
  trips_kept s s' -> grouped s d -> grouped s' d.
Proof.
  intros [Hn Ht] [Htrip|Hno].
  - left. destruct (divetrip (dive_at s d)) as [t|] eqn:Hd; [|contradiction].
    by rewrite (Ht _ _ Hd).
  - right. by rewrite Hn.
Qed.

Lemma add_dive_to_trip_dive (dive : dive_ptr) (trip : trip_ptr) (s : state) :
  divetrip (dive_at (add_dive_to_trip dive trip s) dive) = Some trip
  /\ (forall q, q <> dive -> dive_at (add_dive_to_trip dive trip s) q = dive_at s q)
  /\ (forall q, notrip (dive_at (add_dive_to_trip dive trip s) q) = notrip (dive_at s q)).
Proof.
  unfold add_dive_to_trip.
  destruct (bool_decide (divetrip (dive_at s dive) = Some trip)) eqn:Hsame.
  - apply bool_decide_eq_true_1 in Hsame. auto.
  - split; [|split].
    + by rewrite dive_at_store_dive_eq.
    + intros q Hq. by rewrite dive_at_store_dive_ne.
    + intros q. rewrite dive_at_store_dive.
      destruct (decide (dive = q)) as [->|]; reflexivity.
Qed.

Lemma add_all_to_trip (l : list dive_ptr) (trip : trip_ptr) (s : state) :
  (forall d, d ∈ l -> divetrip (dive_at s d) = None \/ divetrip (dive_at s d) = Some trip) ->
  let s' := foldl (fun s dive => add_dive_to_trip dive trip s) s l in
  (forall d, d ∈ l -> divetrip (dive_at s' d) = Some trip) /\ trips_kept s s'.
Proof.
  revert s. induction l as [|x l IH]; intros s Hfree; cbn [foldl].
  - split; [intros d Hd; by apply not_elem_of_nil in Hd|apply trips_kept_refl].
  - destruct (add_dive_to_trip_dive x trip s) as (Hx & Hother & Hnotrip).
    set (s1 := add_dive_to_trip x trip s) in *.
    assert (Hstep : trips_kept s s1).
    { split; [exact Hnotrip|]. intros q t Hq.
      destruct (decide (q = x)) as [->|Hne]; [|by rewrite Hother].
      destruct (Hfree x (list_elem_of_here _ _)) as [Hnone|Hsome]; congruence. }
    destruct (IH s1) as [Hall Hkept].
    { intros d Hd. destruct (decide (d = x)) as [->|Hne]; [by right|].
      rewrite Hother by assumption. apply Hfree. by apply list_elem_of_further. }
    split.
    + intros d Hd. apply elem_of_cons in Hd as [->|Hd]; [|by apply Hall].
      apply Hkept. exact Hx.
    + by apply (trips_kept_trans s s1).
Qed.

Lemma autogroup_extend_spec (rest : list dive_ptr) (trip : trip_ptr) (lastdive : dive_ptr)
    (to : nat) (s : state) :
  let r := autogroup_extend TRIP_THRESHOLD rest trip lastdive to s in
  dive_heap (snd r) = dive_heap s
  /\ forall k d, rest !! k = Some d -> (to + k < fst r)%nat -> divetrip (dive_at s d) = None.
Proof.
  revert lastdive to s. induction rest as [|x rest IH]; intros lastdive to s; simpl.
  - split; [reflexivity|]. intros k d Hk. by rewrite lookup_nil in Hk.
  - destruct (bool_decide (divetrip (dive_at s x) <> None)) eqn:Htrip; simpl.
    { split; [reflexivity|]. intros; lia. }
    apply bool_decide_eq_false_1 in Htrip.
    assert (Hnone : divetrip (dive_at s x) = None).
    { destruct (divetrip (dive_at s x)); [exfalso; by apply Htrip|reflexivity]. }
    match goal with |- context [if ?c then _ else _] => destruct c end; simpl.
    { split; [reflexivity|]. intros; lia. }
    match goal with |- context [autogroup_extend _ rest trip x (S to) ?s'] =>
      set (s1 := s'); destruct (IH x (S to) s1) as [Hheap Hfree] end.
    assert (Hs1 : dive_heap s1 = dive_heap s).
    { subst s1. destruct (dive_location (dive_at s x)); [|reflexivity].
      destruct (location (trip_at s trip)); reflexivity. }
    split; [by rewrite Hheap|].
    intros k d Hk Hlt. destruct k as [|k]; simpl in Hk.
    + by injection Hk as <-.
    + specialize (Hfree k d Hk ltac:(lia)). unfold dive_at in *. by rewrite <- Hs1.
Qed.

Lemma create_trip_from_dive_dives (dive : dive_ptr) (s : state) :
  dive_heap (snd (create_trip_from_dive dive s)) = dive_heap s.
Proof. reflexivity. Qed.

Lemma autogroup_scan_some (rest : list dive_ptr) (i : nat) (lastdive : option dive_ptr)
    (s s' : state) (trip : trip_ptr) (from to : nat) (alloc : bool) :
  autogroup_scan TRIP_THRESHOLD rest i lastdive s = (Some (trip, from, to, alloc), s') ->
  dive_heap s' = dive_heap s
  /\ forall k d, rest !! k = Some d ->
       ((i + k < from)%nat -> grouped s d)
       /\ ((from <= i + k < to)%nat -> divetrip (dive_at s d) = None).
Proof.
  revert i lastdive s. induction rest as [|x rest IH]; intros i lastdive s; simpl.
  - discriminate.
  - destruct (divetrip (dive_at s x)) as [t|] eqn:Hx.
    { intros Hscan. pose proof (autogroup_scan_range _ _ _ _ _ _ _ _ _ _ Hscan) as Hrange.
      destruct (IH _ _ _ Hscan) as [Hheap Hrest]. split; [exact Hheap|].
      intros k d Hk. destruct k as [|k]; simpl in Hk.
      - injection Hk as <-. split; [intros _; left; by rewrite Hx|lia].
      - destruct (Hrest k d Hk) as [Hlow Hin]. split; intros; [apply Hlow|apply Hin]; lia. }
    destruct (notrip (dive_at s x)) eqn:Hnotrip.
    { intros Hscan. pose proof (autogroup_scan_range _ _ _ _ _ _ _ _ _ _ Hscan) as Hrange.
      destruct (IH _ _ _ Hscan) as [Hheap Hrest]. split; [exact Hheap|].
      intros k d Hk. destruct k as [|k]; simpl in Hk.
      - injection Hk as <-. split; [intros _; by right|lia].
      - destruct (Hrest k d Hk) as [Hlow Hin]. split; intros; [apply Hlow|apply Hin]; lia. }
    assert (Hfound : forall t0 s0 to0 s0' a0,
              dive_heap s0 = dive_heap s ->
              autogroup_extend TRIP_THRESHOLD rest t0 x (S i) s0 = (to0, s0') ->
              (Some (t0, i, to0, a0), s0') = (Some (trip, from, to, alloc), s') ->
              dive_heap s' = dive_heap s
              /\ forall k d, (x :: rest) !! k = Some d ->
                   ((i + k < from)%nat -> grouped s d)
                   /\ ((from <= i + k < to)%nat -> divetrip (dive_at s d) = None)).
    { intros t0 s0 to0 s0' a0 Hs0 Hext [= <- <- <- <- <-].
      destruct (autogroup_extend_spec rest t0 x (S i) s0) as [Hheap Hfree].
      rewrite Hext in Hheap, Hfree. simpl in Hheap, Hfree.
      split; [by rewrite Hheap|].
      intros k d Hk. split; [lia|]. intros Hin. destruct k as [|k]; simpl in Hk.
      - by injection Hk as <-.
      - specialize (Hfree k d Hk ltac:(lia)). unfold dive_at in *. by rewrite <- Hs0. }
    destruct lastdive as [l|].
    + destruct (when (dive_at s x) >=? when (dive_at s l) + TRIP_THRESHOLD).
      * destruct (autogroup_extend TRIP_THRESHOLD rest _ x (S i) _) as [to0 s0'] eqn:Hext.
        intros Heq. eapply Hfound; [|exact Hext|exact Heq]. reflexivity.
      * destruct (divetrip (dive_at s l)) as [t0|]; [|discriminate].
        destruct (autogroup_extend TRIP_THRESHOLD rest t0 x (S i) s) as [to0 s0'] eqn:Hext.
        intros Heq. eapply Hfound; [|exact Hext|exact Heq]. reflexivity.
    + destruct (autogroup_extend TRIP_THRESHOLD rest _ x (S i) _) as [to0 s0'] eqn:Hext.
      intros Heq. eapply Hfound; [|exact Hext|exact Heq]. reflexivity.
Qed.

Lemma autogroup_scan_none (rest : list dive_ptr) (i : nat) (lastdive : option dive_ptr)
    (s s' : state) :
  (forall l, lastdive = Some l -> divetrip (dive_at s l) <> None) ->
  autogroup_scan TRIP_THRESHOLD rest i lastdive s = (None, s') ->
  s' = s /\ forall d, d ∈ rest -> grouped s d.
Proof.
  revert i lastdive. induction rest as [|x rest IH]; intros i lastdive Hlast; simpl.
  - intros [= <-]. split; [reflexivity|]. intros d Hd. by apply not_elem_of_nil in Hd.
  - destruct (divetrip (dive_at s x)) as [t|] eqn:Hx.
    { intros Hscan. destruct (IH (S i) (Some x)) as [Heq Hrest]; [|exact Hscan|].
      { intros l [= <-]. by rewrite Hx. }
      split; [exact Heq|]. intros d Hd.
      apply elem_of_cons in Hd as [->|Hd]; [left; by rewrite Hx|by apply Hrest]. }
    destruct (notrip (dive_at s x)) eqn:Hnotrip.
    { intros Hscan. destruct (IH (S i) None) as [Heq Hrest]; [|exact Hscan|].
      { intros l [=]. }
      split; [exact Heq|]. intros d Hd.
      apply elem_of_cons in Hd as [->|Hd]; [by right|by apply Hrest]. }
    destruct lastdive as [l|].
    + destruct (when (dive_at s x) >=? when (dive_at s l) + TRIP_THRESHOLD).
      * destruct (autogroup_extend TRIP_THRESHOLD rest _ x (S i) _); discriminate.
      * specialize (Hlast l eq_refl).
        destruct (divetrip (dive_at s l)) as [t0|]; [|contradiction].
        destruct (autogroup_extend TRIP_THRESHOLD rest t0 x (S i) s); discriminate.
    + destruct (autogroup_extend TRIP_THRESHOLD rest _ x (S i) _); discriminate.
Qed.

Lemma autogroup_loop_spec (fuel : nat) (table : list dive_ptr) (i : nat)
    (trips trips' : list trip_ptr) (s s' : state) :
  autogroup_loop TRIP_THRESHOLD fuel table i trips s = Done (trips', s') ->
  (forall k d, table !! k = Some d -> (k < i)%nat -> grouped s d) ->
  (forall d, d ∈ table -> grouped s' d) /\ trips_kept s s'.
Proof.
  revert i trips s. induction fuel as [|fuel IH]; intros i trips s; simpl; [discriminate|].
  unfold get_dives_to_autogroup.
  destruct (autogroup_scan TRIP_THRESHOLD (drop i table) i None s)
    as [[[[[trip from] to] alloc]|] s1] eqn:Hscan.
  - intros Hloop Hdone.
    pose proof (autogroup_scan_range _ _ _ _ _ _ _ _ _ _ Hscan) as Hrange.
    destruct (autogroup_scan_some _ _ _ _ _ _ _ _ _ Hscan) as [Hheap Hrest].
    assert (Hkept1 : trips_kept s s1) by (by apply trips_kept_same_dives).
    assert (Hsame : forall d, dive_at s1 d = dive_at s d).
    { intros d. unfold dive_at. by rewrite Hheap. }
    destruct (add_all_to_trip (take (to - from) (drop from table)) trip s1) as [Hin Hkept2].
    { intros d Hd. left. apply list_elem_of_lookup in Hd as [k Hk].
      apply lookup_take_Some in Hk as [Hk Hlt]. rewrite lookup_drop in Hk.
      rewrite Hsame. apply (proj2 (Hrest (from + k - i)%nat d ltac:(
        rewrite lookup_drop; replace (i + (from + k - i))%nat with (from + k)%nat by lia;
        exact Hk))). lia. }
    fold (add_range_to_trip table from to trip s1) in Hin, Hkept2.
    set (s2 := add_range_to_trip table from to trip s1) in *.
    assert (Hkept : trips_kept s s2) by (by apply (trips_kept_trans s s1)).
    destruct (IH _ _ _ Hloop) as [Hall Hkept3].
    { intros k d Hk Hlt. destruct (decide (k < i)%nat) as [Hold|Hnew].
      - apply (grouped_kept s); [exact Hkept|]. by apply (Hdone k).
      - destruct (decide (k < from)%nat) as [Hskip|Hadd].
        + apply (grouped_kept s); [exact Hkept|].
          apply (proj1 (Hrest (k - i)%nat d ltac:(
            rewrite lookup_drop; replace (i + (k - i))%nat with k by lia; exact Hk))). lia.
        + left. rewrite (Hin d); [discriminate|].
          apply list_elem_of_lookup. exists (k - from)%nat.
          apply lookup_take_Some. split; [|lia]. rewrite lookup_drop.
          by replace (from + (k - from))%nat with k by lia. }
    split; [exact Hall|]. by apply (trips_kept_trans s s2).
  - intros [= <- <-] Hdone.
    apply autogroup_scan_none in Hscan as [-> Hrest]; [|intros l [=]].
    split; [|apply trips_kept_refl].
    intros d Hd. apply list_elem_of_lookup in Hd as [k Hk].
    destruct (decide (k < i)%nat) as [Hold|Hnew]; [by apply (Hdone k)|].
    apply Hrest. apply list_elem_of_lookup. exists (k - i)%nat.
    rewrite lookup_drop. by replace (i + (k - i))%nat with k by lia.
Qed.

Lemma elem_of_sort_insert {A : Type} (cmp : A -> A -> Z) (x y : A) (l : list A) :
  y ∈ sort_insert cmp x l <-> y = x \/ y ∈ l.
Proof.
  induction l as [|z l IH]; simpl.
  - rewrite list_elem_of_singleton. split; [by left|]. intros [?|H]; [assumption|].
    by apply not_elem_of_nil in H.
  - destruct (cmp x z <? 0).
    + by rewrite elem_of_cons.
    + rewrite !elem_of_cons, IH. tauto.
Qed.

Lemma elem_of_sort_table {A : Type} (cmp : A -> A -> Z) (y : A) (l : list A) :
  y ∈ sort_table cmp l <-> y ∈ l.
Proof.
  unfold sort_table. induction l as [|x l IH]; simpl; [reflexivity|].
  by rewrite elem_of_sort_insert, elem_of_cons, IH.
Qed.

(** X12.  With autogrouping switched on, [process_loaded_dives] returns,
    and afterwards every dive of the dive table is in a trip unless the
    user took it out of one ([notrip]).  No dive that was in a trip has
    left it, and no [notrip] flag has changed. *)
Theorem process_loaded_dives_groups_all (s : state) :
  autogroup s = true ->
  exists s',
    process_loaded_dives TRIP_THRESHOLD s = Done s'
    /\ (forall d, d ∈ dive_table s ->
          divetrip (dive_at s' d) <> None \/ notrip (dive_at s' d) = true)
    /\ (forall d t, divetrip (dive_at s d) = Some t -> divetrip (dive_at s' d) = Some t)
    /\ (forall d, notrip (dive_at s' d) = notrip (dive_at s d)).
Proof.
  intros Hauto. unfold process_loaded_dives.
  set (s0 := with_trip_table _ (with_dive_table _ s)).
  assert (Hauto0 : autogroup s0 = true) by exact Hauto.
  assert (Htable : dive_table s0 = sort_dive_table s (dive_table s)) by reflexivity.
  assert (Hdives : forall d, dive_at s0 d = dive_at s d) by reflexivity.
  unfold autogroup_dives. rewrite Hauto0. change (negb true) with false. cbv iota.
  destruct (autogroup_loop_returns TRIP_THRESHOLD (S (length (dive_table s0)))
              (dive_table s0) O (trip_table s0) s0) as [[trips' s'] Hloop]; [lia|].
  rewrite Hloop.
  destruct (autogroup_loop_spec _ _ _ _ _ _ _ Hloop) as [Hall [Hnotrip Hkept]];
    [intros; lia|].
  simpl. eexists. split; [reflexivity|]. split; [|split].
  - intros d Hd. apply (Hall d). rewrite Htable. by apply elem_of_sort_table.
  - intros d t Hd. apply (Hkept d t). by rewrite Hdives.
  - intros d. specialize (Hnotrip d). rewrite Hdives in Hnotrip. exact Hnotrip.
Qed.

End AutogroupCoverage.

Section PlannerFrame.

Variable TRIP_THRESHOLD : Z.
Variable dive_endtime : dive -> Z.
Variable try_to_merge : dive -> dive -> bool -> option dive.

Lemma globals_clear_table (table : list dive_ptr) (s : state) :
  globals (clear_table table s) = globals s.
Proof.
  unfold clear_table. revert s. induction table as [|d table IH]; intros s; simpl;
    [reflexivity|]. by rewrite IH.
Qed.

Lemma globals_clear_trip_table (table : list trip_ptr) (s : state) :
  globals (clear_trip_table table s) = globals s.
Proof.
  unfold clear_trip_table. revert s. induction table as [|d table IH]; intros s; simpl;
    [reflexivity|]. by rewrite IH.
Qed.

Lemma globals_merge_imported_from (prev : dive_ptr) (rest : list dive_ptr) (s : state) :
  globals (snd (merge_imported_from dive_endtime try_to_merge prev rest s)) = globals s.
Proof.
  revert prev s. induction rest as [|d rest IH]; intros prev s; simpl; [reflexivity|].
  destruct (_ && _).
  - specialize (IH d s). destruct (merge_imported_from _ _ d rest s). exact IH.
  - destruct (try_to_merge _ _ false) as [m|].
    + by rewrite IH.
    + specialize (IH d s). destruct (merge_imported_from _ _ d rest s). exact IH.
Qed.

Lemma globals_merge_imported_dives (table : list dive_ptr) (s : state) :
  globals (snd (merge_imported_dives dive_endtime try_to_merge table s)) = globals s.
Proof.
  destruct table as [|d table]; [reflexivity|]. apply globals_merge_imported_from.
Qed.

Lemma globals_autogroup_extend (rest : list dive_ptr) (trip : trip_ptr) (lastdive : dive_ptr)
    (to : nat) (s : state) :
  globals (snd (autogroup_extend TRIP_THRESHOLD rest trip lastdive to s)) = globals s.
Proof.
  revert lastdive to s. induction rest as [|x rest IH]; intros lastdive to s; simpl;
    [reflexivity|].
  destruct (_ || _); [reflexivity|]. rewrite IH.
  destruct (dive_location (dive_at s x)); [|reflexivity].
  destruct (location (trip_at s trip)); reflexivity.
Qed.

Lemma globals_autogroup_scan (rest : list dive_ptr) (i : nat) (lastdive : option dive_ptr)
    (s : state) :
  globals (snd (autogroup_scan TRIP_THRESHOLD rest i lastdive s)) = globals s.
Proof.
  revert i lastdive s. induction rest as [|x rest IH]; intros i lastdive s; simpl;
    [reflexivity|].
  destruct (divetrip (dive_at s x)); [apply IH|].
  destruct (notrip (dive_at s x)); [apply IH|].
  destruct lastdive as [l|];
    [destruct (when (dive_at s x) >=? when (dive_at s l) + TRIP_THRESHOLD);
     [|destruct (divetrip (dive_at s l)); [|reflexivity]]|];
    match goal with |- context [autogroup_extend _ rest ?t x (S i) ?s0] =>
      pose proof (globals_autogroup_extend rest t x (S i) s0) as Hg;
      destruct (autogroup_extend TRIP_THRESHOLD rest t x (S i) s0)
    end; exact Hg.
Qed.

Lemma globals_add_dive_to_trip (dive : dive_ptr) (trip : trip_ptr) (s : state) :
  globals (add_dive_to_trip dive trip s) = globals s.
Proof. unfold add_dive_to_trip. destruct (bool_decide _); reflexivity. Qed.

Lemma globals_add_range_to_trip (table : list dive_ptr) (from to : nat) (trip : trip_ptr)
    (s : state) :
  globals (add_range_to_trip table from to trip s) = globals s.
Proof.
  unfold add_range_to_trip. generalize (take (to - from) (drop from table)). intros l.
  revert s. induction l as [|d l IH]; intros s; cbn [foldl]; [reflexivity|].
  by rewrite IH, globals_add_dive_to_trip.
Qed.

Lemma globals_autogroup_loop (fuel : nat) (table : list dive_ptr) (i : nat)
    (trips : list trip_ptr) (s : state) (r : list trip_ptr * state) :
  autogroup_loop TRIP_THRESHOLD fuel table i trips s = Done r ->
  globals (snd r) = globals s.
Proof.
  revert i trips s. induction fuel as [|fuel IH]; intros i trips s; simpl; [discriminate|].
  unfold get_dives_to_autogroup.
  pose proof (globals_autogroup_scan (drop i table) i None s) as Hscan.
  destruct (autogroup_scan TRIP_THRESHOLD (drop i table) i None s)
    as [[[[[trip from] to] alloc]|] s1]; simpl in Hscan.
  - intros Hloop. apply IH in Hloop.
    by rewrite Hloop, globals_add_range_to_trip.
  - by intros [= <-].
Qed.

Lemma globals_autogroup_dives (table : list dive_ptr) (trips : list trip_ptr) (s : state)
    (r : list trip_ptr * state) :
  autogroup_dives TRIP_THRESHOLD table trips s = Done r -> globals (snd r) = globals s.
Proof.
  unfold autogroup_dives. destruct (negb (autogroup s)); [by intros [= <-]|].
  destruct (autogroup_loop TRIP_THRESHOLD (S (length table)) table O trips s) as [r0|f] eqn:Hloop;
    [|discriminate].
  cbn [bind]. intros [= <-]. by apply globals_autogroup_loop in Hloop.
Qed.

Lemma globals_try_to_merge_into (dive_to_add : dive_ptr) (idx : nat) (table : list dive_ptr)
    (prefer : bool) (to_add to_remove to_add' to_remove' : list dive_ptr) (s s' : state) :
  try_to_merge_into try_to_merge dive_to_add idx table prefer to_add to_remove s
  = Some (to_add', to_remove', s') ->
  globals s' = globals s.
Proof.
  unfold try_to_merge_into. destruct (try_to_merge _ _ prefer); [|discriminate].
  by intros [= _ _ <-].
Qed.

Lemma globals_merge_dive_tables_loop (dives_from dives_to : list dive_ptr) (prefer : bool)
    (trip : option trip_ptr) (j : nat) (last_merged_into : Z) (acc : merge_out) :
  globals (mo_state (merge_dive_tables_loop dive_endtime try_to_merge dives_from dives_to
                       prefer trip j last_merged_into acc))
  = globals (mo_state acc).
Proof.
  revert j last_merged_into acc.
  induction dives_from as [|d dives_from IH]; intros j last_merged_into acc;
    [reflexivity|].
  cbn [merge_dive_tables_loop]. cbv zeta.
  set (j' := find_insertion_point _ _ _ _).
  destruct (if (0 <? j')%nat && _ && _ then _ else None)
    as [[[to_add to_remove] s1]|] eqn:Hprev.
  - rewrite IH. cbn [mo_state].
    destruct ((0 <? j')%nat && _ && _); [|discriminate].
    apply globals_try_to_merge_into in Hprev. exact Hprev.
  - destruct (if (j' <? length dives_to)%nat && _ && _ then _ else None)
      as [[[to_add to_remove] s1]|] eqn:Hnext.
    + rewrite IH. cbn [mo_state].
      destruct ((j' <? length dives_to)%nat && _ && _); [|discriminate].
      apply globals_try_to_merge_into in Hnext. exact Hnext.
    + rewrite IH. reflexivity.
Qed.

Lemma globals_merge_dive_tables (dives_from : list dive_ptr)
    (delete_from : option (list dive_ptr)) (dives_to : list dive_ptr) (prefer : bool)
    (trip : option trip_ptr) (to_add to_remove : list dive_ptr) (num_merged : nat)
    (s : state) :
  globals (mo_state (merge_dive_tables dive_endtime try_to_merge dives_from delete_from
                       dives_to prefer trip to_add to_remove num_merged s))
  = globals s.
Proof. unfold merge_dive_tables. by rewrite globals_merge_dive_tables_loop. Qed.

Lemma globals_try_to_merge_trip_from (trips : list trip_ptr) (trip_import : trip_ptr)
    (prefer : bool) (pl pl' : planner) :
  try_to_merge_trip_from dive_endtime try_to_merge trips trip_import prefer pl = Some pl' ->
  globals (st pl') = globals (st pl).
Proof.
  induction trips as [|t trips IH]; simpl; [discriminate|].
  destruct (trips_overlap dive_endtime (st pl) trip_import t); [|exact IH].
  intros [= <-]. cbn [st].
  change (globals (free_trip trip_import ?s)) with (globals s).
  apply globals_merge_dive_tables.
Qed.

Lemma globals_add_trip_as_is (trip_import : trip_ptr) (pl : planner) :
  globals (st (add_trip_as_is trip_import pl)) = globals (st pl).
Proof.
  unfold add_trip_as_is. cbn [st].
  change (globals (store_trip ?t ?tr ?s)) with (globals s).
  generalize (dives (trip_at (st pl) trip_import)). intros l.
  revert pl. induction l as [|d l IH]; intros pl; cbn [foldl]; [reflexivity|].
  by rewrite IH.
Qed.

Lemma globals_import_trips_loop (fuel : nat) (trips : list trip_ptr) (flags : import_flags)
    (i : nat) (pl pl' : planner) :
  import_trips_loop dive_endtime try_to_merge fuel trips flags i pl = Done pl' ->
  globals (st pl') = globals (st pl).
Proof.
  revert i pl. induction fuel as [|fuel IH]; intros i pl; simpl; [discriminate|].
  destruct (trips !! i) as [trip_import|]; [|by intros [= <-]].
  destruct (trip_heap (st pl) !! trip_import) as [tr|]; [|discriminate].
  destruct (if IMPORT_MERGE_ALL_TRIPS flags || autogen tr then _ else None) as [pl1|] eqn:Hm.
  - intros Hloop. apply IH in Hloop. rewrite Hloop.
    destruct (IMPORT_MERGE_ALL_TRIPS flags || autogen tr); [|discriminate].
    by apply globals_try_to_merge_trip_from in Hm.
  - intros Hloop. apply IH in Hloop. by rewrite Hloop, globals_add_trip_as_is.
Qed.

Lemma globals_add_to_new_trip (pl : planner) :
  globals (st (add_to_new_trip pl)) = globals (st pl).
Proof.
  unfold add_to_new_trip, create_trip_from_dive, alloc_trip. cbv zeta. cbn [st].
  match goal with |- context [foldl ?f ?p0 ?l] =>
    assert (Hfold : forall l0 p, globals (st (foldl f p l0)) = globals (st p)) end.
  { intros l0. induction l0 as [|d l0 IH]; intros p; cbn [foldl]; [reflexivity|].
    by rewrite IH. }
  by rewrite Hfold.
Qed.

Lemma globals_merge_into_global (flags : import_flags) (pl : planner) :
  globals (st (merge_into_global dive_endtime try_to_merge flags pl)) = globals (st pl).
Proof. unfold merge_into_global. cbn [st]. apply globals_merge_dive_tables. Qed.

Lemma globals_renumber_from (added : list dive_ptr) (nr : Z) (s : state) :
  globals (renumber_from added nr s) = globals s.
Proof.
  revert nr s. induction added as [|d added IH]; intros nr s; simpl; [reflexivity|].
  by rewrite IH.
Qed.

Lemma globals_renumber_added_dives (has_number : bool) (preexisting : nat) (pl : planner) :
  globals (st (renumber_added_dives has_number preexisting pl)) = globals (st pl).
Proof.
  unfold renumber_added_dives. destruct (_ && _); [|reflexivity].
  cbn [st]. apply globals_renumber_from.
Qed.

Lemma globals_plan_imported_dives (fuel : nat) (table : list dive_ptr)
    (trips : list trip_ptr) (flags : import_flags) (s : state) (pl : planner) :
  plan_imported_dives TRIP_THRESHOLD dive_endtime try_to_merge fuel table trips flags s
  = Done pl ->
  globals (st pl) = globals s.
Proof.
  unfold plan_imported_dives.
  pose proof (globals_merge_imported_dives (sort_dive_table s table) s) as Hmerge.
  destruct (merge_imported_dives _ _ (sort_dive_table s table) s) as [table1 s1].
  simpl in Hmerge.
  destruct (if negb (IMPORT_ADD_TO_NEW_TRIP flags) then _ else Done (trips, s1))
    as [[trips2 s2]|f] eqn:Hgroup; [|discriminate].
  assert (Hs2 : globals s2 = globals s1).
  { destruct (negb (IMPORT_ADD_TO_NEW_TRIP flags)).
    - by apply globals_autogroup_dives in Hgroup.
    - by injection Hgroup as _ <-. }
  cbn [bind].
  destruct (import_trips_loop _ _ fuel trips2 flags O _) as [pl1|f] eqn:Hloop; [|discriminate].
  apply globals_import_trips_loop in Hloop. cbn [st] in Hloop.
  cbn [bind]. intros [= <-].
  destruct (_ && _).
  - rewrite globals_add_to_new_trip. congruence.
  - destruct (0 <? length (import_table pl1))%nat.
    + rewrite globals_merge_into_global. congruence.
    + congruence.
Qed.

(** X13.  [process_imported_dives] only plans an import.  Whenever it
    returns, the dive table, the trip table, the selection counter, the
    current dive and the autogroup setting are what they were before the
    call: the dives and trips to add or remove are handed back in the
    result tables and nothing is put into the log. *)
Theorem process_imported_dives_plans_only (fuel : nat) (table : list dive_ptr)
    (trips : option (list trip_ptr)) (flags : import_flags)
    (to_add to_remove : list dive_ptr) (new_trips : list trip_ptr)
    (s : state) (pl : planner) :
  process_imported_dives TRIP_THRESHOLD dive_endtime try_to_merge fuel table trips flags
    to_add to_remove new_trips s = Done pl ->
  dive_table (st pl) = dive_table s
  /\ trip_table (st pl) = trip_table s
  /\ amount_selected (st pl) = amount_selected s
  /\ current_dive (st pl) = current_dive s
  /\ autogroup (st pl) = autogroup s.
Proof.
  intros Hdone.
  assert (Hglobals : globals (st pl) = globals s).
  { revert Hdone. unfold process_imported_dives. cbv zeta.
    set (s0 := clear_trip_table new_trips (clear_table to_remove (clear_table to_add s))).
    assert (Hs0 : globals s0 = globals s).
    { subst s0. by rewrite globals_clear_trip_table, !globals_clear_table. }
    destruct (length table =? 0)%nat; [by intros [= <-]|].
    destruct (plan_imported_dives _ _ _ fuel table (default [] trips) flags s0)
      as [pl0|f] eqn:Hplan; [|discriminate].
    cbn [bind]. intros [= <-]. rewrite globals_renumber_added_dives.
    apply globals_plan_imported_dives in Hplan. congruence. }
  unfold globals in Hglobals. injection Hglobals as -> -> -> -> ->. auto.
Qed.

End PlannerFrame.

Section MergeFacts.

Variable dive_endtime : dive -> Z.
Variable try_to_merge : dive -> dive -> bool -> option dive.

Lemma try_to_merge_into_tables (dive_to_add : dive_ptr) (idx : nat) (table : list dive_ptr)
    (prefer : bool) (to_add to_remove to_add' to_remove' : list dive_ptr) (s s' : state) :
  try_to_merge_into try_to_merge dive_to_add idx table prefer to_add to_remove s
  = Some (to_add', to_remove', s') ->
  length to_add' = S (length to_add)
  /\ length to_remove' = S (length to_remove)
  /\ (forall x, x ∈ to_remove' <-> x = table !!! idx \/ x ∈ to_remove)
  /\ (NoDup to_remove -> (table !!! idx) ∉ to_remove -> NoDup to_remove').
Proof.
  unfold try_to_merge_into. destruct (try_to_merge _ _ prefer); [|discriminate].
  intros [= <- <- _]. unfold insert_dive.
  rewrite !length_add_to_table. repeat split; try reflexivity.
  - by apply elem_of_add_to_table.
  - by apply elem_of_add_to_table.
  - apply NoDup_add_to_table.
Qed.

Lemma find_insertion_point_range (s : state) (rest : list dive_ptr) (d : dive_ptr) (j : nat) :
  (j <= find_insertion_point s rest d j <= j + length rest)%nat.
Proof.
  revert j. induction rest as [|x rest IH]; intros j; simpl; [lia|].
  destruct (dive_less_than s x d); [|lia]. specialize (IH (S j)). lia.
Qed.

(** The invariant of the loop of [merge_dive_tables]: [j] stays inside
    [dives_to], and every dive scheduled for removal by the loop sits in
    [dives_to] at an index up to [last_merged_into]. *)
Lemma merge_dive_tables_loop_spec (dives_from dives_to : list dive_ptr) (prefer : bool)
    (trip : option trip_ptr) (j : nat) (last_merged_into : Z) (acc : merge_out) :
  let r := merge_dive_tables_loop dive_endtime try_to_merge dives_from dives_to prefer trip
             j last_merged_into acc in
  (length (mo_dives_to_add r) = length (mo_dives_to_add acc) + length dives_from)%nat
  /\ (length (mo_dives_to_remove r) + mo_num_merged acc
      = length (mo_dives_to_remove acc) + mo_num_merged r)%nat
  /\ (mo_num_merged acc <= mo_num_merged r <= mo_num_merged acc + length dives_from)%nat
  /\ ((j <= length dives_to)%nat -> -1 <= last_merged_into ->
      NoDup dives_to -> NoDup (mo_dives_to_remove acc) ->
      (forall k x, dives_to !! k = Some x -> last_merged_into < Z.of_nat k ->
                   x ∉ mo_dives_to_remove acc) ->
      NoDup (mo_dives_to_remove r)).
Proof.
  revert j last_merged_into acc.
  induction dives_from as [|d dives_from IH]; intros j last_merged_into acc.
  { simpl. repeat split; try lia. intros _ _ _ Hnodup _. exact Hnodup. }
  cbn [merge_dive_tables_loop]. cbv zeta.
  pose proof (find_insertion_point_range (mo_state acc) (drop j dives_to) d j) as Hj.
  rewrite length_drop in Hj.
  set (j' := find_insertion_point _ _ _ _) in *.
  assert (Hfresh : forall (idx : nat) (to_remove' : list dive_ptr),
            (idx < length dives_to)%nat -> last_merged_into < Z.of_nat idx ->
            NoDup dives_to ->
            (forall k x, dives_to !! k = Some x -> last_merged_into < Z.of_nat k ->
                         x ∉ mo_dives_to_remove acc) ->
            (forall x, x ∈ to_remove' <-> x = dives_to !!! idx \/ x ∈ mo_dives_to_remove acc) ->
            forall k x, dives_to !! k = Some x -> Z.of_nat idx < Z.of_nat k ->
                        x ∉ to_remove').
  { intros idx to_remove' Hidx Hlast Hnodup Hout Hin k x Hk Hlt.
    rewrite Hin. intros [->|Hold].
    - apply list_lookup_lookup_total_lt in Hidx.
      pose proof (NoDup_lookup _ _ _ _ Hnodup Hk Hidx). lia.
    - apply (Hout k x Hk); [lia|exact Hold]. }
  destruct (if (0 <? j')%nat && _ && _ then _ else None)
    as [[[to_add to_remove] s1]|] eqn:Hprev.
  - destruct ((0 <? j')%nat && (Z.of_nat j' - 1 >? last_merged_into) && _) eqn:Htest;
      [|discriminate].
    apply andb_prop in Htest as [Htest _]. apply andb_prop in Htest as [Hpos Hnew].
    apply Nat.ltb_lt in Hpos. apply Z.gtb_lt in Hnew.
    apply try_to_merge_into_tables in Hprev as (Hadd & Hrem & Hin & Hnd).
    match goal with |- context [merge_dive_tables_loop _ _ dives_from dives_to prefer trip
                                  ?jj ?ll ?aa] =>
      destruct (IH jj ll aa) as (IHadd & IHrem & IHnum & IHnd) end.
    cbn [mo_dives_to_add mo_dives_to_remove mo_num_merged] in IHadd, IHrem, IHnum, IHnd.
    simpl length. repeat split; try lia.
    intros Hjlen Hlast Hnodup Hacc Hout. apply IHnd; try lia; try assumption.
    + apply Hnd; [exact Hacc|].
      apply (Hout (j' - 1)%nat); [|lia].
      apply list_lookup_lookup_total_lt. lia.
    + intros k x Hk Hlt. apply (Hfresh (j' - 1)%nat to_remove ltac:(lia) ltac:(lia) Hnodup Hout Hin k x Hk); lia.
  - destruct (if (j' <? length dives_to)%nat && _ && _ then _ else None)
      as [[[to_add to_remove] s1]|] eqn:Hnext.
    + destruct ((j' <? length dives_to)%nat && (Z.of_nat j' >? last_merged_into) && _)
        eqn:Htest; [|discriminate].
      apply andb_prop in Htest as [Htest _]. apply andb_prop in Htest as [Hpos Hnew].
      apply Nat.ltb_lt in Hpos. apply Z.gtb_lt in Hnew.
      apply try_to_merge_into_tables in Hnext as (Hadd & Hrem & Hin & Hnd).
      match goal with |- context [merge_dive_tables_loop _ _ dives_from dives_to prefer trip
                                    ?jj ?ll ?aa] =>
        destruct (IH jj ll aa) as (IHadd & IHrem & IHnum & IHnd) end.
      cbn [mo_dives_to_add mo_dives_to_remove mo_num_merged] in IHadd, IHrem, IHnum, IHnd.
      simpl length. repeat split; try lia.
      intros Hjlen Hlast Hnodup Hacc Hout. apply IHnd; try lia; try assumption.
      * apply Hnd; [exact Hacc|].
        apply (Hout j'); [|lia]. by apply list_lookup_lookup_total_lt.
      * intros k x Hk Hlt. apply (Hfresh j' to_remove ltac:(lia) ltac:(lia) Hnodup Hout Hin k x Hk); lia.
    + match goal with |- context [merge_dive_tables_loop _ _ dives_from dives_to prefer trip
                                    ?jj ?ll ?aa] =>
        destruct (IH jj ll aa) as (IHadd & IHrem & IHnum & IHnd) end.
      cbn [mo_dives_to_add mo_dives_to_remove mo_num_merged] in IHadd, IHrem, IHnum, IHnd.
      unfold insert_dive in *. rewrite length_add_to_table in IHadd.
      simpl length. repeat split; try lia.
      intros Hjlen Hlast Hnodup Hacc Hout. apply IHnd; try lia; assumption.
Qed.

(** X14.  [merge_dive_tables] accounts for every incoming dive once:
    [dives_to_add] grows by the number of dives in [dives_from], and
    [dives_to_remove] grows by exactly the increase of [*num_merged],
    which is at most that number. *)
Theorem merge_dive_tables_counts (dives_from : list dive_ptr)
    (delete_from : option (list dive_ptr)) (dives_to : list dive_ptr) (prefer : bool)
    (trip : option trip_ptr) (to_add to_remove : list dive_ptr) (num_merged : nat)
    (s : state) :
  let r := merge_dive_tables dive_endtime try_to_merge dives_from delete_from dives_to
             prefer trip to_add to_remove num_merged s in
  (length (mo_dives_to_add r) = length to_add + length dives_from)%nat
  /\ (length (mo_dives_to_remove r) = length to_remove + (mo_num_merged r - num_merged))%nat
  /\ (num_merged <= mo_num_merged r <= num_merged + length dives_from)%nat.
Proof.
  unfold merge_dive_tables.
  match goal with |- context [merge_dive_tables_loop _ _ _ _ _ _ ?jj ?ll ?aa] =>
    destruct (merge_dive_tables_loop_spec dives_from dives_to prefer trip jj ll aa)
      as (Hadd & Hrem & Hnum & _) end.
  cbn [mo_dives_to_add mo_dives_to_remove mo_num_merged] in Hadd, Hrem, Hnum.
  cbv zeta. repeat split; lia.
Qed.

(** X15.  [merge_dive_tables] never merges into the same dive twice:
    when [dives_to] holds no dive twice and [dives_to_remove] comes in
    duplicate-free and disjoint from it, no dive is put on
    [dives_to_remove] twice. *)
Theorem merge_dive_tables_removes_once (dives_from : list dive_ptr)
    (delete_from : option (list dive_ptr)) (dives_to : list dive_ptr) (prefer : bool)
    (trip : option trip_ptr) (to_add to_remove : list dive_ptr) (num_merged : nat)
    (s : state) :
  NoDup dives_to -> NoDup to_remove ->
  (forall x, x ∈ dives_to -> x ∉ to_remove) ->
  NoDup (mo_dives_to_remove
           (merge_dive_tables dive_endtime try_to_merge dives_from delete_from dives_to
              prefer trip to_add to_remove num_merged s)).
Proof.
  intros Hto Hrem Hdisj. unfold merge_dive_tables.
  match goal with |- context [merge_dive_tables_loop _ _ _ _ _ _ ?jj ?ll ?aa] =>
    destruct (merge_dive_tables_loop_spec dives_from dives_to prefer trip jj ll aa)
      as (_ & _ & _ & Hnd) end.
  apply Hnd; try assumption; try lia.
  intros k x Hk _. apply Hdisj. apply list_elem_of_lookup. eauto.
Qed.

Lemma merge_imported_from_apart (prev : dive_ptr) (rest : list dive_ptr) (s : state) :
  (forall i p d, (prev :: rest) !! i = Some p -> (prev :: rest) !! S i = Some d ->
     duration (dive_at s p) <> 0 /\ duration (dive_at s d) <> 0
     /\ dive_endtime (dive_at s p) < when (dive_at s d)) ->
  merge_imported_from dive_endtime try_to_merge prev rest s = (prev :: rest, s).
Proof.
  revert prev. induction rest as [|d rest IH]; intros prev Hapart; simpl; [reflexivity|].
  destruct (Hapart O prev d eq_refl eq_refl) as (Hp & Hd & Hlt).
  destruct (Z.eqb_spec (duration (dive_at s prev)) 0) as [|_]; [contradiction|].
  destruct (Z.eqb_spec (duration (dive_at s d)) 0) as [|_]; [contradiction|].
  destruct (Z.ltb_spec (dive_endtime (dive_at s prev)) (when (dive_at s d))); [|lia].
  simpl. rewrite IH; [reflexivity|].
  intros i p x Hi Hsi. exact (Hapart (S i) p x Hi Hsi).
Qed.

(** X16.  [merge_imported_dives] leaves a table alone in which every
    dive has a duration and ends before the next one starts: no merge is
    attempted, whatever [try_to_merge] would answer. *)
Theorem merge_imported_dives_apart (table : list dive_ptr) (s : state) :
  (forall i p d, table !! i = Some p -> table !! S i = Some d ->
     duration (dive_at s p) <> 0 /\ duration (dive_at s d) <> 0
     /\ dive_endtime (dive_at s p) < when (dive_at s d)) ->
  merge_imported_dives dive_endtime try_to_merge table s = (table, s).
Proof.
  intros Hapart. destruct table as [|first rest]; [reflexivity|].
  by apply merge_imported_from_apart.
Qed.

End MergeFacts.

Section TripMembership.

Lemma remove_dive_first (l1 l2 : list dive_ptr) (d : dive_ptr) :
  d ∉ l1 -> remove_dive (l1 ++ d :: l2) d = l1 ++ l2.
Proof.
  intros Hl1. unfold remove_dive.
  pose proof (get_idx_in_table_spec (l1 ++ d :: l2) d) as Hidx.
  destruct (get_idx_in_table (l1 ++ d :: l2) d) as [i|].
  - destruct Hidx as (k1 & k2 & Heq & Hk1 & <-).
    destruct (first_occurrence_unique _ _ _ _ _ Heq Hl1 Hk1) as [-> ->].
    apply remove_from_table_middle.
  - exfalso. apply Hidx. rewrite elem_of_app. right. left.
Qed.

Lemma remove_dive_absent (l : list dive_ptr) (d : dive_ptr) :
  d ∉ l -> remove_dive l d = l.
Proof.
  intros Hl. unfold remove_dive.
  pose proof (get_idx_in_table_spec l d) as Hidx.
  destruct (get_idx_in_table l d) as [i|]; [|reflexivity].
  destruct Hidx as (k1 & k2 & -> & _ & _). exfalso. apply Hl.
  rewrite elem_of_app. right. left.
Qed.

Lemma remove_dive_NoDup (l : list dive_ptr) (d : dive_ptr) :
  NoDup l ->
  NoDup (remove_dive l d) /\ forall x, x ∈ remove_dive l d <-> x ∈ l /\ x <> d.
Proof.
  intros Hnodup. destruct (decide (d ∈ l)) as [Hin|Hnin].
  - apply list_elem_of_split in Hin as (l1 & l2 & ->).
    apply NoDup_app in Hnodup as (Hn1 & Hdisj & Hn2).
    apply NoDup_cons in Hn2 as (Hd2 & Hn2).
    assert (Hd1 : d ∉ l1). { intros H. apply (Hdisj d H). left. }
    rewrite remove_dive_first by assumption. split.
    + apply NoDup_app. split; [exact Hn1|]. split; [|exact Hn2].
      intros x Hx Hx2. apply (Hdisj x Hx). by right.
    + intros x. rewrite !elem_of_app, elem_of_cons. split.
      * intros [H|H]; (split; [tauto|]); intros ->; contradiction.
      * intros [[H|[H|H]] Hne]; tauto.
  - rewrite remove_dive_absent by assumption. split; [exact Hnodup|].
    intros x. split; [|tauto]. intros Hx. split; [exact Hx|]. by intros ->.
Qed.

(** X17.  [add_dive_to_trip] on a dive without a trip makes the dive a
    member of the trip, both ways: the dive points to the trip and the
    trip's table holds the dive, one entry more than before.
    [unregister_dive_from_trip] right after returns that trip and
    undoes the step: every dive and every trip reads as it did before. *)
Theorem add_dive_to_trip_round_trip (s : state) (dive : dive_ptr) (trip : trip_ptr) :
  divetrip (dive_at s dive) = None ->
  (dive ∉ dives (trip_at s trip)) ->
  let s1 := add_dive_to_trip dive trip s in
  let r := unregister_dive_from_trip dive s1 in
  divetrip (dive_at s1 dive) = Some trip
  /\ dive ∈ dives (trip_at s1 trip)
  /\ length (dives (trip_at s1 trip)) = S (length (dives (trip_at s trip)))
  /\ fst r = Some trip
  /\ (forall q, dive_at (snd r) q = dive_at s q)
  /\ (forall t, trip_at (snd r) t = trip_at s t).
Proof.
  intros Hnone Hnew. cbv zeta. unfold add_dive_to_trip.
  rewrite bool_decide_eq_false_2 by (rewrite Hnone; discriminate).
  set (idx := get_insertion_index _ _ _).
  set (sT := store_trip trip _ s).
  set (s1 := store_dive dive _ sT).
  assert (Hd1 : dive_at s1 dive = set_divetrip (Some trip) (dive_at s dive)).
  { subst s1. by rewrite dive_at_store_dive_eq. }
  assert (Ht1 : trip_at s1 trip
                = set_dives (add_to_table (dives (trip_at s trip)) idx dive) (trip_at s trip)).
  { subst s1 sT. unfold trip_at, store_dive, store_trip. simpl.
    by rewrite lookup_total_insert_eq. }
  assert (Hsplit : add_to_table (dives (trip_at s trip)) idx dive
                   = take idx (dives (trip_at s trip)) ++ dive :: drop idx (dives (trip_at s trip)))
    by reflexivity.
  split; [by rewrite Hd1|]. split.
  { rewrite Ht1. simpl. rewrite Hsplit, elem_of_app. right. left. }
  split.
  { rewrite Ht1. simpl. rewrite Hsplit, length_app. simpl.
    rewrite <- (take_drop idx (dives (trip_at s trip))) at 3. rewrite length_app. lia. }
  unfold unregister_dive_from_trip. rewrite Hd1. simpl.
  split; [reflexivity|].
  assert (Hback : remove_dive (dives (trip_at s1 trip)) dive = dives (trip_at s trip)).
  { rewrite Ht1. simpl. rewrite Hsplit, remove_dive_first.
    - apply take_drop.
    - intros Hin. apply Hnew. rewrite <- (take_drop idx (dives (trip_at s trip))).
      rewrite elem_of_app. by left. }
  rewrite Hback. split.
  - intros q. rewrite dive_at_store_dive.
    destruct (decide (dive = q)) as [<-|Hne].
    + change (dive_at (store_trip ?t ?tr ?s0) dive) with (dive_at s0 dive). rewrite Hd1.
      destruct (dive_at s dive). simpl in *. by subst.
    + change (dive_at (store_trip ?t ?tr ?s0) q) with (dive_at s0 q).
      subst s1. by rewrite dive_at_store_dive_ne.
  - intros t. change (trip_at (store_dive ?p ?d ?s0) t) with (trip_at s0 t).
    destruct (decide (trip = t)) as [<-|Hne].
    + rewrite trip_at_store_trip_eq, Ht1. by destruct (trip_at s trip).
    + rewrite trip_at_store_trip_ne by assumption.
      subst s1 sT. change (trip_at (store_dive ?p ?d ?s0) t) with (trip_at s0 t).
      by rewrite trip_at_store_trip_ne.
Qed.

Lemma remove_first_entry (table : list trip_ptr) (t : trip_ptr) :
  NoDup table ->
  let table' := match get_idx_in_table table t with
                | Some i => remove_from_table table i
                | None => table
                end in
  NoDup table' /\ forall u, u ∈ table' <-> u ∈ table /\ u <> t.
Proof. apply (remove_dive_NoDup table t). Qed.

(** X18.  [remove_dive_from_trip] always returns: it calls
    [delete_trip], whose assertion wants an empty trip, only for a trip
    that has just lost its last dive.  Afterwards the dive has no trip
    and no other dive has changed.  On a duplicate-free trip table in
    which no trip is empty, the table that comes back is again
    duplicate-free without an empty trip, and holds no trip that was not
    there before. *)
Theorem remove_dive_from_trip_spec (s : state) (p : dive_ptr) (table : list trip_ptr) :
  NoDup table ->
  (forall u, u ∈ table -> dives (trip_at s u) <> []) ->
  exists table' s',
    remove_dive_from_trip p table s = Done (table', s')
    /\ divetrip (dive_at s' p) = None
    /\ (forall q, q <> p -> dive_at s' q = dive_at s q)
    /\ NoDup table'
    /\ (forall u, u ∈ table' -> u ∈ table /\ dives (trip_at s' u) <> []).
Proof.
  intros Hnodup Hfull. unfold remove_dive_from_trip, unregister_dive_from_trip.
  destruct (divetrip (dive_at s p)) as [t|] eqn:Htrip.
  - set (sT := store_trip t _ s).
    set (s1 := store_dive p _ sT).
    assert (Ht1 : trip_at s1 t
                  = set_dives (remove_dive (dives (trip_at s t)) p) (trip_at s t)).
    { subst s1 sT. unfold trip_at, store_dive, store_trip. simpl.
      by rewrite lookup_total_insert_eq. }
    assert (Hu1 : forall u, u <> t -> trip_at s1 u = trip_at s u).
    { intros u Hu. subst s1 sT. unfold trip_at, store_dive, store_trip. simpl.
      by rewrite lookup_total_insert_ne. }
    assert (Hp1 : divetrip (dive_at s1 p) = None).
    { subst s1. by rewrite dive_at_store_dive_eq. }
    assert (Hq1 : forall q, q <> p -> dive_at s1 q = dive_at s q).
    { intros q Hq. subst s1. by rewrite dive_at_store_dive_ne. }
    assert (Hfree : forall u, u <> t -> trip_at (free_trip t s1) u = trip_at s1 u).
    { intros u Hu. unfold trip_at, free_trip. simpl. by apply lookup_total_delete_ne. }
    destruct (Nat.eqb_spec (length (dives (trip_at s1 t))) 0) as [Hzero|Hnz].
    + unfold delete_trip, unregister_trip. rewrite Hzero. simpl.
      destruct (remove_first_entry table t Hnodup) as [Hnd Hin].
      destruct (get_idx_in_table table t) as [i|]; simpl;
        eexists _, _; (split; [reflexivity|]);
        (split; [exact Hp1|]); (split; [exact Hq1|]); (split; [exact Hnd|]);
        intros u Hu; apply Hin in Hu as [Hu Hne]; (split; [exact Hu|]);
        rewrite Hfree by assumption; rewrite Hu1 by assumption; by apply Hfull.
    + eexists _, _. split; [reflexivity|]. split; [exact Hp1|]. split; [exact Hq1|].
      split; [exact Hnodup|]. intros u Hu. split; [exact Hu|].
      destruct (decide (u = t)) as [->|Hne].
      * intros Hempty. rewrite Hempty in Hnz. simpl in Hnz. lia.
      * rewrite Hu1 by assumption. by apply Hfull.
  - eexists _, _. split; [reflexivity|]. split; [exact Htrip|]. split; [reflexivity|].
    split; [exact Hnodup|]. intros u Hu. split; [exact Hu|]. by apply Hfull.
Qed.

End TripMembership.

Section DiveGasFacts.

Variable get_o2 : cylinder_t -> Z.
Variable get_he : cylinder_t -> Z.
Variable cylinder_none : cylinder_t -> bool.
Variable is_cylinder_used : dive -> nat -> bool.
Variable O2_IN_AIR : Z.

Lemma max_from_ge (b : Z) (l : list Z) : b <= foldr Z.max b l.
Proof. induction l as [|x l IH]; simpl; lia. Qed.

Lemma max_from_base (b1 b2 : Z) (l : list Z) :
  b2 <= b1 -> foldr Z.max b1 l = Z.max b1 (foldr Z.max b2 l).
Proof. intros Hle. induction l as [|x l IH]; simpl; lia. Qed.

Lemma max_from_attained (b : Z) (l : list cylinder_t) :
  b < foldr Z.max b (get_he <$> l) ->
  exists c, List.find (fun c => get_he c =? foldr Z.max b (get_he <$> l)) l = Some c.
Proof.
  intros Hlt.
  destruct (List.find (fun c => get_he c =? foldr Z.max b (get_he <$> l)) l) as [c|] eqn:Hfind;
    [eauto|].
  exfalso. pose proof (List.find_none _ _ Hfind) as Hnone.
  assert (Hall : forall M, (forall c, In c l -> get_he c <> M) -> b < M ->
                           foldr Z.max b (get_he <$> l) <> M).
  { clear. intros M. induction l as [|c l IH]; intros Hne Hb; [simpl; lia|].
    specialize (IH (fun x Hx => Hne x (or_intror Hx)) Hb).
    specialize (Hne c (or_introl eq_refl)). rewrite fmap_cons. cbn [foldr]. lia. }
  apply (Hall (foldr Z.max b (get_he <$> l))); [|exact Hlt|reflexivity].
  intros c Hc. specialize (Hnone c Hc). simpl in Hnone. lia.
Qed.

(** What the loop of [get_dive_gas] computes from [(maxo2, maxhe,
    mino2)]: the two maxima, and for [mino2] the O2 of the first
    cylinder that reaches the final [maxhe], if that is above the
    starting one. *)
Lemma dive_gas_loop_spec (d : dive) (cyls : list cylinder_t) (i : nat) (mo mh mn : Z) :
  let l := considered_from cylinder_none is_cylinder_used d cyls i in
  let M := foldr Z.max mh (get_he <$> l) in
  dive_gas_loop get_o2 get_he cylinder_none is_cylinder_used d cyls i mo mh mn
  = (foldr Z.max mo (get_o2 <$> l), M,
     if M >? mh
     then match List.find (fun c => get_he c =? M) l with
          | Some c => get_o2 c
          | None => mn
          end
     else mn).
Proof.
  revert i mo mh mn. induction cyls as [|cyl rest IH]; intros i mo mh mn; simpl.
  - by rewrite Z.gtb_ltb, Z.ltb_irrefl.
  - destruct (is_cylinder_used d i); simpl; [|apply IH].
    destruct (cylinder_none cyl); simpl; [apply IH|].
    change (list_fmap cylinder_t Z get_he ?x) with (get_he <$> x).
    change (list_fmap cylinder_t Z get_o2 ?x) with (get_o2 <$> x).
    set (l := considered_from cylinder_none is_cylinder_used d rest (S i)) in *.
    assert (Hmo : forall o, foldr Z.max (if o >? mo then o else mo) (get_o2 <$> l)
                            = Z.max o (foldr Z.max mo (get_o2 <$> l))).
    { intros o. destruct (Z.gtb_spec o mo).
      - rewrite (max_from_base o mo) by lia. lia.
      - pose proof (max_from_ge mo (get_o2 <$> l)). lia. }
    pose proof (max_from_ge mh (get_he <$> l)) as Hge.
    destruct (Z.gtb_spec (get_he cyl) mh) as [Hup|Hnotup].
    + rewrite IH. fold l. rewrite Hmo.
      rewrite (max_from_base (get_he cyl) mh) by lia.
      set (M := Z.max (get_he cyl) (foldr Z.max mh (get_he <$> l))).
      f_equal.
      replace (M >? mh) with true by (symmetry; apply Z.gtb_lt; lia).
      destruct (Z.eqb_spec (get_he cyl) M) as [Heq|Hne].
      * rewrite <- Heq. by rewrite Z.gtb_ltb, Z.ltb_irrefl.
      * replace (M >? get_he cyl) with true by (symmetry; apply Z.gtb_lt; lia).
        assert (HM : M = foldr Z.max mh (get_he <$> l)) by lia.
        destruct (max_from_attained mh l ltac:(lia)) as [c Hc].
        rewrite <- HM in Hc. by rewrite Hc.
    + assert (Hsame : Z.max (get_he cyl) (foldr Z.max mh (get_he <$> l))
                      = foldr Z.max mh (get_he <$> l)) by lia.
      assert (Hskip : dive_gas_loop get_o2 get_he cylinder_none is_cylinder_used d rest (S i)
                        (if get_o2 cyl >? mo then get_o2 cyl else mo) mh mn
                      = (Z.max (get_o2 cyl) (foldr Z.max mo (get_o2 <$> l)),
                         Z.max (get_he cyl) (foldr Z.max mh (get_he <$> l)),
                         if Z.max (get_he cyl) (foldr Z.max mh (get_he <$> l)) >? mh
                         then match (if get_he cyl =? Z.max (get_he cyl)
                                                        (foldr Z.max mh (get_he <$> l))
                                     then Some cyl
                                     else List.find
                                            (fun c => get_he c =? Z.max (get_he cyl)
                                               (foldr Z.max mh (get_he <$> l))) l) with
                              | Some c => get_o2 c
                              | None => mn
                              end
                         else mn)).
      { rewrite IH. fold l. rewrite Hmo, Hsame. f_equal.
        destruct (Z.gtb_spec (foldr Z.max mh (get_he <$> l)) mh) as [Hgt|]; [|reflexivity].
        by destruct (Z.eqb_spec (get_he cyl) (foldr Z.max mh (get_he <$> l))) as [|_]; [lia|]. }
      destruct (Z.ltb_spec (get_he cyl) mh); [exact Hskip|].
      destruct (Z.leb_spec (get_o2 cyl) (if get_o2 cyl >? mo then get_o2 cyl else mo))
        as [_|Hbad]; [exact Hskip|].
      exfalso. destruct (Z.gtb_spec (get_o2 cyl) mo); lia.
Qed.

(** X19.  What [get_dive_gas] stores, for a dive whose considered
    cylinders (used, not [cylinder_none]) have no negative He value.
    [*he_p] is the highest He among them and [*o2max_p] the highest O2
    ([-1] for He, 0 for O2 when there is no such cylinder).  [*o2_p] is
    the O2 of the first cylinder that has the highest He: among
    cylinders of equal He the O2 does not decide, because the test
    [o2 <= maxo2] comes after [maxo2] was raised to [o2].  When the
    result would be plain air, or there is no cylinder, both O2 values
    are 0. *)
Theorem get_dive_gas_spec (d : dive) :
  let l := considered_cylinders cylinder_none is_cylinder_used d in
  let maxhe := foldr Z.max (-1) (get_he <$> l) in
  let maxo2 := foldr Z.max (-1) (get_o2 <$> l) in
  let o2 := match List.find (fun c => get_he c =? maxhe) l with
            | Some c => get_o2 c
            | None => 1000
            end in
  (forall c, c ∈ l -> 0 <= get_he c) ->
  get_dive_gas get_o2 get_he cylinder_none is_cylinder_used O2_IN_AIR d
  = if ((maxhe =? 0) && (maxo2 =? O2_IN_AIR) && (o2 =? maxo2))
       || ((maxo2 =? -1) && (maxhe =? -1) && (o2 =? 1000))
    then (0, maxhe, 0)
    else (o2, maxhe, maxo2).
Proof.
  cbv zeta. intros Hhe. unfold get_dive_gas. rewrite dive_gas_loop_spec.
  fold (considered_cylinders cylinder_none is_cylinder_used d).
  set (l := considered_cylinders cylinder_none is_cylinder_used d) in *.
  destruct (Z.gtb_spec (foldr Z.max (-1) (get_he <$> l)) (-1)) as [Hgt|Hle]; [reflexivity|].
  assert (Hnil : l = []).
  { destruct l as [|c l']; [reflexivity|]. exfalso.
    specialize (Hhe c (list_elem_of_here _ _)).
    pose proof (max_from_ge (-1) (get_he <$> l')). simpl in Hle. lia. }
  rewrite Hnil. reflexivity.
Qed.

End DiveGasFacts.

Section VersionFacts.

Lemma report_datafile_version_min (versions : list Z) (m : Z) :
  Forall (fun v => 0 < v) versions -> 0 < m ->
  foldl (fun m v => report_datafile_version v m) m versions = foldr Z.min m versions.
Proof.
  revert m. induction versions as [|v versions IH]; intros m Hpos Hm; simpl; [reflexivity|].
  apply Forall_cons in Hpos as [Hv Hpos]. unfold report_datafile_version at 2.
  destruct (Z.eqb_spec m 0) as [|_]; [lia|]. simpl.
  destruct (Z.gtb_spec m v).
  - rewrite IH by assumption. clear IH.
    induction versions as [|x versions IH]; simpl; [lia|].
    apply Forall_cons in Hpos as [_ Hpos]. specialize (IH Hpos). lia.
  - rewrite IH by assumption. clear IH.
    induction versions as [|x versions IH]; simpl; [lia|].
    apply Forall_cons in Hpos as [_ Hpos]. specialize (IH Hpos). lia.
Qed.

(** X20.  After [reset_min_datafile_version], reporting a series of
    versions, all positive, leaves [get_min_datafile_version] at the
    smallest version reported. *)
Theorem min_datafile_version_is_minimum (v : Z) (versions : list Z) :
  Forall (fun v => 0 < v) (v :: versions) ->
  get_min_datafile_version
    (foldl (fun m v => report_datafile_version v m) reset_min_datafile_version
           (v :: versions))
  = foldr Z.min v versions.
Proof.
  intros Hpos. unfold get_min_datafile_version, reset_min_datafile_version. simpl.
  apply Forall_cons in Hpos as [Hv Hpos].
  change (report_datafile_version v 0) with v.
  by apply report_datafile_version_min.
Qed.

End VersionFacts.

Section OverlapFacts.

Variable dive_endtime : dive -> Z.

(** X21.  [trips_overlap] is false when one of the two trips has no
    dives.  For two trips with dives of which neither ends before it
    starts, it is true exactly when the two time spans (start of the
    first dive to end of the last dive) have a point in common. *)
Theorem trips_overlap_spec (s : state) (t1 t2 : trip_ptr) :
  (dives (trip_at s t1) = [] \/ dives (trip_at s t2) = [] ->
   trips_overlap dive_endtime s t1 t2 = false)
  /\ (dives (trip_at s t1) <> [] -> dives (trip_at s t2) <> [] ->
      trip_date s (Some t1) <= trip_enddate dive_endtime s (Some t1) ->
      trip_date s (Some t2) <= trip_enddate dive_endtime s (Some t2) ->
      (trips_overlap dive_endtime s t1 t2 = true
       <-> trip_date s (Some t1) <= trip_enddate dive_endtime s (Some t2)
           /\ trip_date s (Some t2) <= trip_enddate dive_endtime s (Some t1))).
Proof.
  unfold trips_overlap. split.
  - intros [H|H]; rewrite H; simpl; [reflexivity|]. by rewrite orb_true_r.
  - intros H1 H2 Hspan1 Hspan2.
    destruct (dives (trip_at s t1)) as [|d1 l1] eqn:E1; [contradiction|].
    destruct (dives (trip_at s t2)) as [|d2 l2] eqn:E2; [contradiction|].
    cbn [length Nat.eqb orb].
    destruct (Z.ltb_spec (trip_date s (Some t1)) (trip_date s (Some t2))).
    + rewrite Z.geb_le. lia.
    + rewrite Z.geb_le. lia.
Qed.

End OverlapFacts.

Section NewDiveTripFacts.

Variable TRIP_THRESHOLD : Z.

Lemma trip_in_range_some (s : state) (table : list dive_ptr) (w : Z) (trip : trip_ptr) :
  trip_in_range TRIP_THRESHOLD s table w = Some trip ->
  exists d, d ∈ table /\ divetrip (dive_at s d) = Some trip
            /\ w - TRIP_THRESHOLD <= when (dive_at s d) < w + TRIP_THRESHOLD.
Proof.
  induction table as [|d table IH]; simpl; [discriminate|].
  destruct (Z.geb_spec (when (dive_at s d)) (w + TRIP_THRESHOLD)); [discriminate|].
  assert (Hrest : trip_in_range TRIP_THRESHOLD s table w = Some trip ->
                  exists d0, d0 ∈ d :: table /\ divetrip (dive_at s d0) = Some trip
                             /\ w - TRIP_THRESHOLD <= when (dive_at s d0) < w + TRIP_THRESHOLD).
  { intros Hfound. destruct (IH Hfound) as (d0 & Hin & Hd0). exists d0.
    split; [by apply list_elem_of_further|exact Hd0]. }
  destruct (divetrip (dive_at s d)) as [t|] eqn:Htrip; [|exact Hrest].
  destruct (Z.geb_spec (when (dive_at s d) + TRIP_THRESHOLD) w); [|exact Hrest].
  intros [= <-]. exists d. split; [apply list_elem_of_here|]. split; [exact Htrip|lia].
Qed.

Lemma trip_in_range_none (s : state) (table : list dive_ptr) (w : Z) :
  (forall i j a b, table !! i = Some a -> table !! j = Some b -> (i <= j)%nat ->
                   when (dive_at s a) <= when (dive_at s b)) ->
  trip_in_range TRIP_THRESHOLD s table w = None ->
  forall d, d ∈ table ->
    w - TRIP_THRESHOLD <= when (dive_at s d) < w + TRIP_THRESHOLD ->
    divetrip (dive_at s d) = None.
Proof.
  induction table as [|x table IH]; intros Hsorted; simpl.
  - intros _ d Hd. by apply not_elem_of_nil in Hd.
  - assert (Htail : forall i j a b, table !! i = Some a -> table !! j = Some b ->
                      (i <= j)%nat -> when (dive_at s a) <= when (dive_at s b)).
    { intros i j a b Hi Hj Hij. apply (Hsorted (S i) (S j)); [exact Hi|exact Hj|lia]. }
    destruct (Z.geb_spec (when (dive_at s x)) (w + TRIP_THRESHOLD)) as [Hpast|Hnot].
    + intros _ d Hd Hrange. exfalso.
      apply list_elem_of_lookup in Hd as [k Hk].
      pose proof (Hsorted O k x d eq_refl Hk ltac:(lia)). lia.
    + intros Hnone d Hd Hrange.
      assert (Hrest : trip_in_range TRIP_THRESHOLD s table w = None ->
                      d ∈ table -> divetrip (dive_at s d) = None).
      { intros Hrec Hin. by apply (IH Htail Hrec d Hin). }
      apply elem_of_cons in Hd as [->|Hd].
      * destruct (divetrip (dive_at s x)) as [t|]; [|reflexivity].
        destruct (Z.geb_spec (when (dive_at s x) + TRIP_THRESHOLD) w); [discriminate|lia].
      * destruct (divetrip (dive_at s x)) as [t|]; [|by apply Hrest].
        destruct (Z.geb_spec (when (dive_at s x) + TRIP_THRESHOLD) w);
          [discriminate|by apply Hrest].
Qed.

(** X22.  [get_trip_for_new_dive] on a dive table sorted by start time.
    When it sets [*allocated] to false, nothing has changed and the
    trip returned is the trip of a dive of the table that starts less
    than [TRIP_THRESHOLD] after and at most [TRIP_THRESHOLD] before the
    new dive.  When it sets [*allocated] to true, no dive of the table
    in that range has a trip, and the trip is a fresh one: autogenerated,
    without dives, with a copy of the new dive's location; no dive and no
    other trip has changed. *)
Theorem get_trip_for_new_dive_spec (s : state) (new_dive : dive_ptr) :
  (forall i j a b, dive_table s !! i = Some a -> dive_table s !! j = Some b ->
                   (i <= j)%nat -> when (dive_at s a) <= when (dive_at s b)) ->
  let r := get_trip_for_new_dive TRIP_THRESHOLD new_dive s in
  let trip := fst (fst r) in
  let allocated := snd (fst r) in
  let s' := snd r in
  let in_range (d : dive_ptr) :=
    when (dive_at s new_dive) - TRIP_THRESHOLD <= when (dive_at s d)
    < when (dive_at s new_dive) + TRIP_THRESHOLD in
  (allocated = false ->
     s' = s /\ exists d, d ∈ dive_table s /\ divetrip (dive_at s d) = Some trip /\ in_range d)
  /\ (allocated = true ->
        (forall d, d ∈ dive_table s -> in_range d -> divetrip (dive_at s d) = None)
        /\ trip = next_trip s
        /\ trip_at s' trip
           = mk_trip (copy_string (dive_location (dive_at s new_dive))) None true []
        /\ (forall q, dive_at s' q = dive_at s q)
        /\ (forall u, u <> trip -> trip_at s' u = trip_at s u)).
Proof.
  intros Hsorted. cbv zeta. unfold get_trip_for_new_dive.
  destruct (trip_in_range TRIP_THRESHOLD s (dive_table s) (when (dive_at s new_dive)))
    as [t|] eqn:Hfind.
  - simpl. split; [|discriminate]. intros _. split; [reflexivity|].
    by apply trip_in_range_some.
  - unfold create_trip_from_dive, alloc_trip. simpl. split; [discriminate|]. intros _.
    split; [by apply trip_in_range_none|]. split; [reflexivity|]. split.
    + unfold trip_at. simpl. rewrite !lookup_total_insert_eq. reflexivity.
    + split; [reflexivity|]. intros u Hu. unfold trip_at. simpl.
      by rewrite !lookup_total_insert_ne.
Qed.

End NewDiveTripFacts.

Section TripSelectFacts.




End TripSelectFacts.

Section MixedOrderFacts.

Lemma comp_dives_antisym (s : state) (a b : dive_ptr) :
  comp_dives s b a = - comp_dives s a b.
Proof. rewrite !comp_dives_by_key. apply compare_keys_antisym. Qed.

Lemma comp_trips_antisym (s : state) (a b : trip_ptr) :
  comp_trips s b a = - comp_trips s a b.
Proof.
  unfold comp_trips.
  destruct (dives (trip_at s a)) as [|da ?], (dives (trip_at s b)) as [|db ?];
    try reflexivity.
  apply comp_dives_antisym.
Qed.

(** X24.  On operands that each have a dive or a trip set,
    [comp_dive_or_trip] reads through no null pointer, and swapping the
    operands negates the result. *)
Theorem comp_dive_or_trip_antisym (s : state) (a b : dive_or_trip) :
  the_dive a <> None \/ the_trip a <> None ->
  the_dive b <> None \/ the_trip b <> None ->
  exists c, comp_dive_or_trip s a b = Some c /\ comp_dive_or_trip s b a = Some (- c).
Proof.
  intros Ha Hb. unfold comp_dive_or_trip, comp_dive_to_trip.
  destruct a as [[da|] [ta|]], b as [[db|] [tb|]]; simpl in *;
    try (destruct Ha; congruence); try (destruct Hb; congruence);
    try (eexists; split; [reflexivity|]; f_equal;
         first [apply comp_dives_antisym | apply comp_trips_antisym]).
  - destruct (dives (trip_at s tb)) as [|d ?]; simpl;
      eexists; (split; [reflexivity|]); reflexivity.
  - destruct (dives (trip_at s ta)) as [|d ?]; simpl;
      eexists; (split; [reflexivity|]); f_equal; lia.
Qed.

End MixedOrderFacts.

Section ImportLoopFacts.

Variable dive_endtime : dive -> Z.
Variable try_to_merge : dive -> dive -> bool -> option dive.

(** X25.  In [process_imported_dives] the loop that adds the dives of
    an import trip counts with the variable [i] of the loop over the
    import trips.  After a trip that is not merged (no
    [IMPORT_MERGE_ALL_TRIPS], not autogenerated) was added as-is, the
    outer loop goes on at index [dives.nr + 1]: when the import trip
    table has at most that many entries, the loop ends there and every
    other trip of the table is left out of [trips_to_add]. *)
Theorem import_trips_loop_skips (fuel : nat) (trips : list trip_ptr) (flags : import_flags)
    (i : nat) (pl : planner) (t : trip_ptr) (tr : dive_trip) :
  trips !! i = Some t ->
  trip_heap (st pl) !! t = Some tr ->
  IMPORT_MERGE_ALL_TRIPS flags = false -> autogen tr = false ->
  (length trips <= S (length (dives tr)))%nat ->
  import_trips_loop dive_endtime try_to_merge (S (S fuel)) trips flags i pl
  = Done (add_trip_as_is t pl)
  /\ forall u, u ∈ trips_to_add (add_trip_as_is t pl) -> u = t \/ u ∈ trips_to_add pl.
Proof.
  intros Hi Ht Hflag Hauto Hlen. split.
  - cbn [import_trips_loop]. rewrite Hi, Ht, Hflag, Hauto. cbn [orb].
    by rewrite (lookup_ge_None_2 trips (S (length (dives tr)))) by lia.
  - intros u. unfold add_trip_as_is. cbn [trips_to_add]. unfold insert_trip.
    rewrite elem_of_add_to_table.
    assert (Hsame : forall l p,
              trips_to_add
                (foldl (fun pl d =>
                          mk_planner (remove_dive (import_table pl) d)
                            (insert_dive (dives_to_add pl) d (st pl))
                            (dives_to_remove pl) (trips_to_add pl)
                            (sequence_changed pl || negb (dive_is_after_last (st pl) d))
                            (start_renumbering_at pl) (st pl)) p l)
              = trips_to_add p).
    { intros l. induction l as [|d l IH]; intros p; cbn [foldl]; [reflexivity|].
      by rewrite IH. }
    by rewrite Hsame.
Qed.

End ImportLoopFacts.

Section HookupFacts.

(** X26.  [create_and_hookup_trip_from_dive] on a dive without a trip
    returns a new trip that holds exactly the dive, makes the dive point
    to it and puts it into the trip table.  It allocates two trips: the
    first one stays allocated and empty, and neither the table nor a
    dive refers to it unless one did before the call. *)
Theorem create_and_hookup_trip_from_dive_spec (s : state) (dive : dive_ptr)
    (table : list trip_ptr) :
  divetrip (dive_at s dive) = None ->
  let r := create_and_hookup_trip_from_dive dive table s in
  let trip := fst (fst r) in
  let table' := snd (fst r) in
  let s' := snd r in
  trip = S (next_trip s)
  /\ dives (trip_at s' trip) = [dive]
  /\ divetrip (dive_at s' dive) = Some trip
  /\ (forall u, u ∈ table' <-> u = trip \/ u ∈ table)
  /\ trip_heap s' !! next_trip s = Some null_trip
  /\ (forall q, divetrip (dive_at s' q) = Some (next_trip s) ->
                divetrip (dive_at s q) = Some (next_trip s)).
Proof.
  intros Hnone. cbv zeta.
  unfold create_and_hookup_trip_from_dive, create_trip_from_dive, alloc_trip. cbv zeta.
  cbn [fst snd next_trip].
  set (s0 := mk_state _ _ _ _ _ _ _ _ _).
  set (s1 := store_trip (S (next_trip s)) _ _).
  assert (Hd1 : forall q, dive_at s1 q = dive_at s q) by reflexivity.
  assert (Ht1 : dives (trip_at s1 (S (next_trip s))) = []).
  { subst s1. rewrite trip_at_store_trip_eq. simpl.
    unfold trip_at. simpl. by rewrite lookup_total_insert_eq. }
  unfold add_dive_to_trip. rewrite Hd1.
  rewrite bool_decide_eq_false_2 by (rewrite Hnone; discriminate).
  rewrite Ht1. cbn [get_insertion_index]. unfold add_to_table at 1. cbn [take drop app].
  set (s2 := store_dive dive _ (store_trip _ _ s1)).
  split; [reflexivity|]. split.
  { subst s2. change (trip_at (store_dive ?p ?d ?s3) ?t) with (trip_at s3 t).
    by rewrite trip_at_store_trip_eq. }
  split.
  { subst s2. by rewrite dive_at_store_dive_eq. }
  split.
  { intros u. unfold insert_trip. apply elem_of_add_to_table. }
  split.
  { subst s2 s1 s0. unfold store_dive, store_trip. simpl.
    rewrite !lookup_insert_ne by lia. by rewrite lookup_insert_eq. }
  intros q. subst s2. rewrite dive_at_store_dive.
  destruct (decide (dive = q)) as [<-|_].
  - simpl. intros [= Heq]. lia.
  - change (dive_at (store_trip ?t ?x ?s3) q) with (dive_at s3 q). by rewrite Hd1.
Qed.

End HookupFacts.

Section RenumberingFacts.

(** X27.  The closing step of [process_imported_dives] numbers the
    added dives on from the last dive of the log: when no added dive
    changed the sequence, no imported dive had a number and the number
    of the last dive of the log is at least the size the log had, the
    [i]-th entry of [dives_to_add] after [start_renumbering_at] gets
    that number plus [i + 1] (the entries are taken to be distinct), and
    every dive outside that range keeps its number. *)
Theorem renumbering_follows_last_number (preexisting : nat) (pl : planner)
    (last_dive : dive_ptr) :
  last (dive_table (st pl)) = Some last_dive ->
  sequence_changed pl = false ->
  Z.of_nat preexisting <= number (dive_at (st pl) last_dive) ->
  NoDup (drop (start_renumbering_at pl) (dives_to_add pl)) ->
  let pl' := renumber_added_dives false preexisting pl in
  (forall i d, dives_to_add pl !! (start_renumbering_at pl + i)%nat = Some d ->
     number (dive_at (st pl') d) = number (dive_at (st pl) last_dive) + 1 + Z.of_nat i)
  /\ (forall q, (q ∉ drop (start_renumbering_at pl) (dives_to_add pl)) ->
        dive_at (st pl') q = dive_at (st pl) q).
Proof.
  intros Hlast Hseq Hnr Hnodup. cbv zeta. split.
  - intros i d Hd. by apply renumber_added_dives_numbers.
  - intros q Hq. unfold renumber_added_dives. rewrite Hlast, Hseq. simpl.
    destruct (Z.geb_spec (number (dive_at (st pl) last_dive)) (Z.of_nat preexisting)); [|lia].
    simpl. by apply renumber_from_untouched.
Qed.

End RenumberingFacts.

Section DeleteFacts.

Lemma remove_dive_from_trip_others (s : state) (p : dive_ptr) (table : list trip_ptr) :
  exists table' s',
    remove_dive_from_trip p table s = Done (table', s')
    /\ dive_table s' = dive_table s
    /\ (forall q, q <> p -> dive_at s' q = dive_at s q).
Proof.
  unfold remove_dive_from_trip, unregister_dive_from_trip.
  destruct (divetrip (dive_at s p)) as [t|] eqn:Htrip.
  - set (s1 := store_dive p _ _).
    assert (Hq : forall q, q <> p -> dive_at s1 q = dive_at s q).
    { intros q Hne. subst s1. by rewrite dive_at_store_dive_ne. }
    destruct (Nat.eqb_spec (length (dives (trip_at s1 t))) 0) as [Hzero|Hnz].
    + unfold delete_trip, unregister_trip. rewrite Hzero. simpl.
      destruct (get_idx_in_table table t); simpl; eexists _, _; eauto.
    + eexists _, _. eauto.
  - eexists _, _. eauto.
Qed.

(** X28.  [delete_single_dive] on an index outside the dive table does
    nothing.  On the index of a dive, in a table that holds no dive
    twice, it returns; the table is the old one without that entry, so
    the dive is no longer in it; the dive's memory is freed; and no
    other dive has changed. *)
Theorem delete_single_dive_spec (s : state) (idx : Z) :
  NoDup (dive_table s) ->
  (get_dive s idx = None -> delete_single_dive idx s = Done s)
  /\ (forall p, get_dive s idx = Some p ->
        exists s',
          delete_single_dive idx s = Done s'
          /\ dive_table s' = delete (Z.to_nat idx) (dive_table s)
          /\ (p ∉ dive_table s')
          /\ dive_heap s' !! p = None
          /\ (forall q, q <> p -> dive_at s' q = dive_at s q)).
Proof.
  intros Hnodup. unfold delete_single_dive. split.
  - by intros ->.
  - intros p Hget. rewrite Hget.
    apply get_dive_Some in Hget as [Hidx Hi].
    set (s1 := if selected (dive_at s p) then deselect_dive (Some p) s else s).
    assert (H1 : dive_table s1 = dive_table s
                 /\ forall q, q <> p -> dive_at s1 q = dive_at s q).
    { subst s1. destruct (selected (dive_at s p)) eqn:Hsel; [|auto].
      destruct (deselect_dive_shape s p Hsel) as [c ->].
      destruct (amount_selected s =? 0); simpl; (split; [reflexivity|]);
        intros q Hq; unfold dive_at; simpl; by rewrite lookup_total_insert_ne. }
    destruct H1 as [Htab1 Hq1].
    destruct (remove_dive_from_trip_others s1 p (trip_table s1))
      as (table' & s2 & -> & Htab2 & Hq2).
    simpl. eexists. split; [reflexivity|]. simpl.
    rewrite Htab2, Htab1, (remove_from_table_lookup _ _ _ Hi).
    split; [reflexivity|]. split; [by apply not_elem_of_delete|].
    rewrite (list_lookup_total_correct _ _ _ Hi).
    split; [apply lookup_delete_eq|].
    intros q Hq. unfold dive_at at 1. simpl.
    rewrite lookup_total_delete_ne by congruence.
    fold (dive_at s2 q). by rewrite Hq2, Hq1.
Qed.

End DeleteFacts.

Lemma delete_single_dive_witness :
  NoDup (dive_table (three_selected (Some 1%nat)))
  /\ exists s',
       delete_single_dive 1 (three_selected (Some 1%nat)) = Done s'
       /\ dive_table s' = [0; 2]%nat.
Proof.
  assert (Hnodup : NoDup (dive_table (three_selected (Some 1%nat))))
    by (apply (bool_decide_unpack _); vm_compute; exact I).
  split; [exact Hnodup|].
  destruct (proj2 (delete_single_dive_spec (three_selected (Some 1%nat)) 1 Hnodup) 1%nat
              ltac:(vm_compute; reflexivity))
    as (s' & Hrun & Htab & _).
  exists s'. split; [exact Hrun|exact Htab].
Defined.

(** ** Closed instances of the further properties *)

Lemma add_then_remove_witness :
  (1 <= length [10; 20; 30]%nat)%nat
  /\ remove_from_table (add_to_table [10; 20; 30]%nat 1 15%nat) 1 = [10; 20; 30]%nat.
Proof.
  assert (Hidx : (1 <= length [10; 20; 30]%nat)%nat) by (simpl; lia).
  split; [exact Hidx|].
  exact (proj2 (proj2 (add_then_remove [10; 20; 30]%nat 1 15%nat Hidx))).
Defined.

Lemma unregister_then_add_witness :
  get_dive (three_selected None) 1 = Some 1%nat
  /\ fst (unregister_dive 1 (three_selected None)) = Some 1%nat.
Proof.
  assert (Hget : get_dive (three_selected None) 1 = Some 1%nat) by (vm_compute; reflexivity).
  split; [exact Hget|].
  destruct (unregister_then_add (three_selected None) 1 1%nat Hget) as [Hfst _].
  exact Hfst.
Defined.

Lemma find_next_visible_dive_sound_witness :
  find_next_visible_dive (three_selected None) 2500 = Some 1%nat
  /\ (1%nat ∈ dive_table (three_selected None))
  /\ hidden_by_filter (dive_at (three_selected None) 1%nat) = false.
Proof.
  assert (Hfind : find_next_visible_dive (three_selected None) 2500 = Some 1%nat)
    by (vm_compute; reflexivity).
  split; [exact Hfind|].
  exact (find_next_visible_dive_sound (three_selected None) 2500 1%nat Hfind).
Defined.


Lemma log_with_trip_well_formed :
  table_well_formed log_with_trip /\ selection_consistent log_with_trip
  /\ (forall d, d ∈ dives (trip_at log_with_trip 0%nat) -> d ∈ dive_table log_with_trip).
Proof.
  split; [|split].
  - split; [apply (bool_decide_unpack _)|]; vm_compute; [exact I|reflexivity].
  - vm_compute. reflexivity.
  - apply Forall_forall. apply (bool_decide_unpack _). vm_compute. exact I.
Defined.

Lemma deselect_dives_in_trip_witness :
  table_well_formed log_with_trip /\ selection_consistent log_with_trip
  /\ selection_consistent (deselect_dives_in_trip (Some 0%nat) log_with_trip).
Proof.
  destruct log_with_trip_well_formed as (Hwf & Hinv & Hin).
  split; [exact Hwf|]. split; [exact Hinv|].
  exact (proj2 (deselect_dives_in_trip_spec log_with_trip 0%nat Hwf Hinv Hin)).
Defined.


Lemma process_loaded_dives_groups_all_witness :
  autogroup (two_dive_log (plain_dive 1 1000) (plain_dive 2 2000)) = true
  /\ exists s',
       process_loaded_dives three_days (two_dive_log (plain_dive 1 1000) (plain_dive 2 2000))
       = Done s'
       /\ forall d, d ∈ dive_table (two_dive_log (plain_dive 1 1000) (plain_dive 2 2000)) ->
                    divetrip (dive_at s' d) <> None \/ notrip (dive_at s' d) = true.
Proof.
  split; [reflexivity|].
  destruct (process_loaded_dives_groups_all three_days
              (two_dive_log (plain_dive 1 1000) (plain_dive 2 2000)) eq_refl)
    as (s' & Hrun & Hall & _).
  exists s'. split; [exact Hrun|exact Hall].
Defined.

Lemma process_imported_dives_plans_only_witness :
  exists pl,
    process_imported_dives three_days end_by_duration never_merge 8
      [1; 2; 3]%nat None no_flags [] [] [] log_ending_at_42 = Done pl
    /\ dive_table (st pl) = [0%nat].
Proof.
  destruct (process_imported_dives three_days end_by_duration never_merge 8
              [1; 2; 3]%nat None no_flags [] [] [] log_ending_at_42) as [pl|f] eqn:Hrun;
    [|vm_compute in Hrun; discriminate Hrun].
  exists pl. split; [reflexivity|].
  exact (proj1 (process_imported_dives_plans_only three_days end_by_duration never_merge 8
                  [1; 2; 3]%nat None no_flags [] [] [] log_ending_at_42 pl Hrun)).
Defined.

(** Both downloaded dives start during the only dive of the log and
    [always_merge] would merge either of them into it: the first one is
    merged, the second one is not merged into the same dive again and is
    added as it is. *)
Lemma merge_dive_tables_removes_once_witness :
  NoDup [0%nat]
  /\ mo_dives_to_remove
       (merge_dive_tables end_by_duration always_merge [1; 2]%nat None [0%nat]
          false None [] [] 0 log_with_overlapping_import) = [0%nat]
  /\ mo_num_merged
       (merge_dive_tables end_by_duration always_merge [1; 2]%nat None [0%nat]
          false None [] [] 0 log_with_overlapping_import) = 1%nat
  /\ NoDup (mo_dives_to_remove
              (merge_dive_tables end_by_duration always_merge [1; 2]%nat None [0%nat]
                 false None [] [] 0 log_with_overlapping_import)).
Proof.
  assert (Hto : NoDup [0%nat]) by (apply (bool_decide_unpack _); vm_compute; exact I).
  split; [exact Hto|].
  split; [vm_compute; reflexivity|].
  split; [vm_compute; reflexivity|].
  apply (merge_dive_tables_removes_once end_by_duration always_merge [1; 2]%nat None
           [0%nat] false None [] [] 0 log_with_overlapping_import Hto
           (NoDup_nil_2 (A := dive_ptr))).
  intros x _. apply not_elem_of_nil.
Defined.

Lemma merge_imported_dives_apart_witness :
  end_by_duration (dive_at timed_log 0%nat) < when (dive_at timed_log 1%nat)
  /\ merge_imported_dives end_by_duration never_merge [0; 1]%nat timed_log
     = ([0; 1]%nat, timed_log).
Proof.
  split; [vm_compute; reflexivity|].
  apply (merge_imported_dives_apart end_by_duration never_merge [0; 1]%nat timed_log).
  intros i p d Hi Hsi.
  destruct i as [|[|i]]; simpl in Hi, Hsi; try discriminate.
  injection Hi as <-. injection Hsi as <-.
  split; [vm_compute; discriminate|]. split; [vm_compute; discriminate|].
  vm_compute. reflexivity.
Defined.

Lemma add_dive_to_trip_round_trip_witness :
  divetrip (dive_at log_with_trip 2%nat) = None
  /\ divetrip (dive_at (add_dive_to_trip 2%nat 0%nat log_with_trip) 2%nat) = Some 0%nat.
Proof.
  assert (Hnone : divetrip (dive_at log_with_trip 2%nat) = None) by (vm_compute; reflexivity).
  assert (Hnew : 2%nat ∉ dives (trip_at log_with_trip 0%nat))
    by (apply (bool_decide_unpack _); vm_compute; exact I).
  split; [exact Hnone|].
  destruct (add_dive_to_trip_round_trip log_with_trip 2%nat 0%nat Hnone Hnew) as [Htrip _].
  exact Htrip.
Defined.

Lemma remove_dive_from_trip_witness :
  NoDup [0%nat]
  /\ exists table' s',
       remove_dive_from_trip 0%nat [0%nat] log_with_trip = Done (table', s')
       /\ divetrip (dive_at s' 0%nat) = None.
Proof.
  assert (Hnodup : NoDup [0%nat]) by (apply (bool_decide_unpack _); vm_compute; exact I).
  assert (Hfull : forall u, u ∈ [0%nat] -> dives (trip_at log_with_trip u) <> []).
  { intros u Hu. apply list_elem_of_singleton in Hu as ->. vm_compute. discriminate. }
  split; [exact Hnodup|].
  destruct (remove_dive_from_trip_spec log_with_trip 0%nat [0%nat] Hnodup Hfull)
    as (table' & s' & Hrun & Htrip & _).
  exists table', s'. split; [exact Hrun|exact Htrip].
Defined.

Lemma get_dive_gas_witness :
  get_dive_gas air_o2 air_he never_none first_cylinder_only 209 dive_with_spare_cylinder
  = (0, 0, 0).
Proof.
  rewrite (get_dive_gas_spec air_o2 air_he never_none first_cylinder_only 209
             dive_with_spare_cylinder).
  - vm_compute. reflexivity.
  - intros c _. unfold air_he. lia.
Defined.

Lemma min_datafile_version_witness :
  get_min_datafile_version
    (foldl (fun m v => report_datafile_version v m) reset_min_datafile_version [3; 2; 5])
  = 2.
Proof.
  apply (min_datafile_version_is_minimum 3 [2; 5]).
  repeat constructor; lia.
Defined.

Lemma get_trip_for_new_dive_witness :
  exists d, d ∈ dive_table log_with_trip
            /\ divetrip (dive_at log_with_trip d)
               = Some (fst (fst (get_trip_for_new_dive three_days 2%nat log_with_trip))).
Proof.
  assert (Hsorted : forall i j a b,
             dive_table log_with_trip !! i = Some a -> dive_table log_with_trip !! j = Some b ->
             (i <= j)%nat ->
             when (dive_at log_with_trip a) <= when (dive_at log_with_trip b)).
  { intros i j a b Hi Hj Hij.
    destruct i as [|[|[|i]]], j as [|[|[|j]]]; simpl in Hi, Hj;
      try discriminate; try lia;
      injection Hi as <-; injection Hj as <-; vm_compute; discriminate. }
  destruct (proj1 (get_trip_for_new_dive_spec three_days log_with_trip 2%nat Hsorted) eq_refl)
    as [_ (d & Hd & Htrip & _)].
  exists d. split; [exact Hd|exact Htrip].
Defined.

Lemma comp_dive_or_trip_antisym_witness :
  exists c,
    comp_dive_or_trip log_with_trip (mk_dive_or_trip (Some 2%nat) None)
      (mk_dive_or_trip None (Some 0%nat)) = Some c
    /\ comp_dive_or_trip log_with_trip (mk_dive_or_trip None (Some 0%nat))
         (mk_dive_or_trip (Some 2%nat) None) = Some (- c).
Proof.
  apply (comp_dive_or_trip_antisym log_with_trip (mk_dive_or_trip (Some 2%nat) None)
           (mk_dive_or_trip None (Some 0%nat))).
  - left. discriminate.
  - right. discriminate.
Defined.

Lemma import_trips_loop_skips_witness :
  import_trips_loop end_by_duration never_merge 2 [0; 1]%nat no_flags 0
    (mk_planner [0; 1]%nat [] [] [] false 0 log_with_two_trips)
  = Done (add_trip_as_is 0%nat (mk_planner [0; 1]%nat [] [] [] false 0 log_with_two_trips)).
Proof.
  apply (import_trips_loop_skips end_by_duration never_merge 0 [0; 1]%nat no_flags 0
           (mk_planner [0; 1]%nat [] [] [] false 0 log_with_two_trips) 0%nat
           (mk_trip None None false [0%nat])).
  - reflexivity.
  - vm_compute. reflexivity.
  - reflexivity.
  - reflexivity.
  - simpl. lia.
Defined.

Lemma create_and_hookup_trip_from_dive_witness :
  divetrip (dive_at log_with_trip 2%nat) = None
  /\ fst (fst (create_and_hookup_trip_from_dive 2%nat [0%nat] log_with_trip)) = 2%nat.
Proof.
  assert (Hnone : divetrip (dive_at log_with_trip 2%nat) = None) by (vm_compute; reflexivity).
  split; [exact Hnone|].
  destruct (create_and_hookup_trip_from_dive_spec log_with_trip 2%nat [0%nat] Hnone)
    as [Htrip _].
  exact Htrip.
Defined.

Lemma renumbering_follows_last_number_witness :
  number (dive_at (st (renumber_added_dives false 1
                         (mk_planner [] [1; 2; 3]%nat [] [] false 0 log_ending_at_42)))
                  2%nat)
  = 44.
Proof.
  assert (Hnr : Z.of_nat 1 <= number (dive_at log_ending_at_42 0%nat))
    by (vm_compute; discriminate).
  assert (Hnodup : NoDup (drop 0 [1; 2; 3]%nat))
    by (apply (bool_decide_unpack _); vm_compute; exact I).
  exact (proj1 (renumbering_follows_last_number 1
                  (mk_planner [] [1; 2; 3]%nat [] [] false 0 log_ending_at_42) 0%nat
                  eq_refl eq_refl Hnr Hnodup) 1%nat 2%nat eq_refl).
Defined.
